(** * Multipart transfer orchestration of the OSS Go SDK (oss/multipart.go)

    A shallow embedding of [CompleteMultipartUpload], [UploadFile] and
    [DownloadFile] together with the part of Go's [sort] package that
    [CompleteMultipartUpload] runs, and the properties of the upload and
    download orchestration that follow from the code. *)

From Stdlib Require Import ZArith Lia Ascii String.
From stdpp Require Import base list strings sorting gmap pretty.

Local Open Scope Z_scope.

(** ** Go's [sort] package

    [CompleteMultipartUpload] calls [sort.Sort(uploadParts(parts))].  The
    functions below follow sort.go as shipped from Go 1.6 to Go 1.18
    ([insertionSort], [siftDown], [heapSort], [medianOfThree], [doPivot],
    [quickSort], [maxDepth], [Sort]).  The package documents [Sort] as not
    guaranteed to be stable; which inputs have their ties reordered differs
    between releases.  The slice is a list, indices are
    [nat]; the algorithm touches the data only through [Less] and [Swap].
    Every index the algorithm computes is in range, so the out-of-range
    behaviour of [Less] and [Swap] below (Go would panic) is never used. *)
Module GoSort.
Section Interface.
Context {A : Type} (less : A -> A -> bool).

(** [data.Less(i, j)] *)
Definition Less (data : list A) (i j : nat) : bool :=
  match data !! i, data !! j with
  | Some x, Some y => less x y
  | _, _ => false
  end.

(** [data.Swap(i, j)] *)
Definition Swap (data : list A) (i j : nat) : list A :=
  match data !! i, data !! j with
  | Some x, Some y => <[i:=y]> (<[j:=x]> data)
  | _, _ => data
  end.

(** Inner loop of [insertionSort]:
    [for j := i; j > a && data.Less(j, j-1); j-- { data.Swap(j, j-1) }]. *)
Fixpoint insertion_inner (data : list A) (a j : nat) : list A :=
  match j with
  | O => data
  | S j' =>
      if (a <? j)%nat && Less data j j'
      then insertion_inner (Swap data j j') a j'
      else data
  end.

(** Outer loop of [insertionSort], [n] iterations starting at index [i]. *)
Fixpoint insertion_outer (data : list A) (a i n : nat) : list A :=
  match n with
  | O => data
  | S n' => insertion_outer (insertion_inner data a i) a (S i) n'
  end.

(** [insertionSort(data, a, b)]: [for i := a + 1; i < b; i++ { ... }]. *)
Definition insertionSort (data : list A) (a b : nat) : list A :=
  insertion_outer data a (a + 1) (b - (a + 1)).

(** [siftDown(data, lo, hi, first)]; the loop descends one heap level per
    iteration, so [hi] iterations are never exhausted. *)
Fixpoint siftDown_loop (fuel : nat) (data : list A) (root hi first : nat)
  : list A :=
  match fuel with
  | O => data
  | S fuel' =>
      let child := (2 * root + 1)%nat in
      if (hi <=? child)%nat then data
      else
        let child :=
          if ((child + 1 <? hi)%nat
              && Less data (first + child) (first + child + 1))%bool
          then (child + 1)%nat else child in
        if negb (Less data (first + root) (first + child)) then data
        else siftDown_loop fuel' (Swap data (first + root) (first + child))
               child hi first
  end.

Definition siftDown (data : list A) (lo hi first : nat) : list A :=
  siftDown_loop hi data lo hi first.

(** [for i := (hi - 1) / 2; i >= 0; i-- { siftDown(data, i, hi, first) }],
    written as [n = (hi - 1) / 2 + 1] iterations counting down. *)
Fixpoint heapify (data : list A) (n hi first : nat) : list A :=
  match n with
  | O => data
  | S i => heapify (siftDown data i hi first) i hi first
  end.

(** [for i := hi - 1; i >= 0; i-- { data.Swap(first, first+i);
    siftDown(data, lo, i, first) }] with [lo = 0]. *)
Fixpoint heap_pop (data : list A) (n first : nat) : list A :=
  match n with
  | O => data
  | S i => heap_pop (siftDown (Swap data first (first + i)) 0 i first) i first
  end.

Definition heapSort (data : list A) (a b : nat) : list A :=
  let first := a in
  let hi := (b - a)%nat in
  heap_pop (heapify data ((hi - 1) / 2 + 1) hi first) hi first.

(** [medianOfThree(data, m1, m0, m2)] *)
Definition medianOfThree (data : list A) (m1 m0 m2 : nat) : list A :=
  let data := if Less data m1 m0 then Swap data m1 m0 else data in
  if Less data m2 m1 then
    let data := Swap data m2 m1 in
    if Less data m1 m0 then Swap data m1 m0 else data
  else data.

(** [for ; i < c && p(i); i++ {}] *)
Fixpoint scan_up (p : nat -> bool) (i c fuel : nat) : nat :=
  match fuel with
  | O => i
  | S fuel' => if (i <? c)%nat && p i then scan_up p (S i) c fuel' else i
  end.

(** [for ; a < c && p(c-1); c-- {}] *)
Fixpoint scan_down (p : nat -> bool) (a c fuel : nat) : nat :=
  match fuel with
  | O => c
  | S fuel' =>
      if (a <? c)%nat && p (c - 1)%nat then scan_down p a (c - 1) fuel' else c
  end.

(** The partitioning loop of [doPivot]. *)
Fixpoint partition_loop (fuel : nat) (data : list A) (pivot b c : nat)
  : list A * nat * nat :=
  match fuel with
  | O => (data, b, c)
  | S fuel' =>
      let b := scan_up (fun i => negb (Less data pivot i)) b c (c - b) in
      let c := scan_down (fun i => Less data pivot i) b c (c - b) in
      if (c <=? b)%nat then (data, b, c)
      else partition_loop fuel' (Swap data b (c - 1)) pivot (S b) (c - 1)
  end.

(** The loop of [doPivot] that protects against many duplicates. *)
Fixpoint protect_loop (fuel : nat) (data : list A) (pivot a b : nat)
  : list A * nat :=
  match fuel with
  | O => (data, b)
  | S fuel' =>
      let b := scan_down (fun i => negb (Less data i pivot)) a b (b - a) in
      let a := scan_up (fun i => Less data i pivot) a b (b - a) in
      if (b <=? a)%nat then (data, b)
      else protect_loop fuel' (Swap data a (b - 1)) pivot (S a) (b - 1)
  end.

(** The block of [doPivot] that tests three points for equality to the
    pivot: [hi - 1], [b - 1] and [m]; returns the data, [b], [c] and
    [dups]. *)
Definition pivot_dups (data : list A) (pivot m hi b c : nat)
  : list A * nat * nat * nat :=
  let '(data, c, dups) :=
    if negb (Less data pivot (hi - 1))
    then (Swap data c (hi - 1), S c, 1%nat)
    else (data, c, 0%nat) in
  let '(b, dups) :=
    if negb (Less data (b - 1) pivot)
    then ((b - 1)%nat, S dups) else (b, dups) in
  let '(data, b, dups) :=
    if negb (Less data m pivot)
    then (Swap data m (b - 1), (b - 1)%nat, S dups)
    else (data, b, dups) in
  (data, b, c, dups).

(** The pivot selection of [doPivot]: Tukey's ninther for more than 40
    elements, then the median of [lo], [m] and [hi - 1] moved to [lo]. *)
Definition choose_pivot (data : list A) (lo hi : nat) : list A :=
  let m := ((lo + hi) / 2)%nat in
  let data :=
    if (40 <? hi - lo)%nat then
      let s := ((hi - lo) / 8)%nat in
      let data := medianOfThree data lo (lo + s) (lo + 2 * s) in
      let data := medianOfThree data m (m - s) (m + s) in
      medianOfThree data (hi - 1) (hi - 1 - s) (hi - 1 - 2 * s)
    else data in
  medianOfThree data lo m (hi - 1).

(** [doPivot(data, lo, hi)] returns the data and [(midlo, midhi)]. *)
Definition doPivot (data : list A) (lo hi : nat) : list A * nat * nat :=
  let m := ((lo + hi) / 2)%nat in
  let data := choose_pivot data lo hi in
  let pivot := lo in
  let a := scan_up (fun i => Less data i pivot) (lo + 1) (hi - 1)
             (hi - 1 - (lo + 1)) in
  let '(data, b, c) :=
    partition_loop (hi - lo) data pivot a (hi - 1) in
  let protect := (hi - c <? 5)%nat in
  let '(data, b, c, protect) :=
    if negb protect && (hi - c <? (hi - lo) / 4)%nat then
      let '(data, b, c, dups) := pivot_dups data pivot m hi b c in
      (data, b, c, (1 <? dups)%nat)
    else (data, b, c, protect) in
  let '(data, b) :=
    if protect then protect_loop (hi - lo) data pivot a b else (data, b) in
  (Swap data pivot (b - 1), (b - 1)%nat, c).

(** The tail of [quickSort] for [b - a <= 12]: one ShellSort pass with
    gap 6, [for i := a + 6; i < b; i++], then [insertionSort]. *)
Fixpoint shell_pass (data : list A) (i n : nat) : list A :=
  match n with
  | O => data
  | S n' =>
      shell_pass (if Less data i (i - 6) then Swap data i (i - 6) else data)
        (S i) n'
  end.

Definition sort_small (data : list A) (a b : nat) : list A :=
  if (1 <? b - a)%nat
  then insertionSort (shell_pass data (a + 6) (b - (a + 6))) a b
  else data.

(** [quickSort(data, a, b, maxDepth)]: every loop iteration and every
    recursive call decrements [maxDepth], which is the structural argument. *)
Fixpoint quickSort (data : list A) (a b maxDepth : nat) : list A :=
  if (12 <? b - a)%nat then
    match maxDepth with
    | O => heapSort data a b
    | S d =>
        let '(data, mlo, mhi) := doPivot data a b in
        if (mlo - a <? b - mhi)%nat
        then quickSort (quickSort data a mlo d) mhi b d
        else quickSort (quickSort data mhi b d) a mlo d
    end
  else sort_small data a b.

(** [maxDepth(n)]: twice the number of halvings of [n] down to 0. *)
Fixpoint bit_length (fuel n : nat) : nat :=
  match fuel with
  | O => O
  | S fuel' => if (0 <? n)%nat then S (bit_length fuel' (n / 2)) else O
  end.

Definition maxDepth (n : nat) : nat := (bit_length n n * 2)%nat.

(** [sort.Sort(data)] *)
Definition Sort (data : list A) : list A :=
  let n := length data in
  quickSort data 0 n (maxDepth n).

End Interface.
End GoSort.

(** ** Data of multipart.go *)

(** [UploadPart]: the result of one part transfer. *)
Record UploadPart := mkUploadPart {
  PartNumber : Z;
  ETag : string
}.

(** Modelled from the spec: the [Less] method of [uploadParts] (declared with
    the SDK's types, outside multipart.go) orders by ascending ordinal. *)
Definition uploadParts_Less (x y : UploadPart) : bool :=
  PartNumber x <? PartNumber y.

(** The part list of the Complete request: [sort.Sort(uploadParts(parts))]
    followed by [cxml.Part = parts]. *)
Definition finalize (parts : list UploadPart) : list UploadPart :=
  GoSort.Sort uploadParts_Less parts.

(** ** The collaborators of multipart.go

    Everything [UploadFile] and [DownloadFile] reach outside this file (the
    HTTP transport [bucket.do], the local file system, the XML codec, the
    metadata probe and [GetObject]) answers through a [World]; every call is
    recorded, with its arguments and its answer, as an [Event] of the run's
    trace.  An answer may depend on the whole trace so far. *)

(** Go [error] values; [nil] is [None] where an error is optional. *)
Definition error := string.

Inductive result (A : Type) : Type :=
| Ok (a : A)
| Err (e : error).
Arguments Ok {A} a.
Arguments Err {A} e.

(** [Option]: a request option.  [Range start end] is the option built by
    [Range(start, end)]; the others are opaque to this file. *)
Inductive Option :=
| Range (start end_ : Z)
| OtherOption (key value : string).

Record InitiateMultipartUploadResult := mkIMUR {
  Bucket : string;
  Key : string;
  UploadID : string
}.

(** [FileChunk]: one entry of [SplitFileByPartSize]'s plan. *)
Record FileChunk := mkFileChunk {
  Number : Z;
  Offset : Z;
  Size : Z
}.

(** Request bodies handed to [bucket.do]. *)
Inductive ReqBody :=
| NoBody
| LimitedReader (filePath : string) (startPosition N : Z)
| Buffer (bs : list Byte.byte).

Record Response := mkResponse {
  statusCode : Z;
  headers : gmap string string;
  body : list Byte.byte
}.

(** [http.Header.Get]: the empty string when the header is absent. *)
Definition Get (h : gmap string string) (k : string) : string :=
  default "" (h !! k).

(** The header names [HTTPHeaderEtag] and [HTTPHeaderContentLength], declared
    with the SDK's constants; no property below depends on their values. *)
Definition HTTPHeaderEtag : string := "ETag".
Definition HTTPHeaderContentLength : string := "Content-Length".

Inductive Resource :=
| ResFile (filePath : string)
| ResRespBody (method params : string)
| ResReader (objectKey : string) (options : list Option).

Inductive Event :=
| EvSplitFileByPartSize (filePath : string) (partSize : Z)
    (res : result (list FileChunk))
| EvOpen (filePath : string) (res : option error)
| EvDo (method objectKey urlParams subResource : string)
    (options : list Option) (data : ReqBody) (res : result Response)
| EvGetObjectDetailedMeta (objectKey : string)
    (res : result (gmap string string))
| EvOpenFile (filePath : string) (res : option error)
| EvGetObject (objectKey : string) (options : list Option)
    (res : result (list Byte.byte))
| EvCopyBuffer (filePath : string) (written : list Byte.byte)
    (res : option error)
| EvClose (r : Resource).

Definition Trace := list Event.

Record World := mkWorld {
  (** [SplitFileByPartSize(filePath, partSize)], from the SDK's utilities *)
  w_SplitFileByPartSize : Trace -> string -> Z -> result (list FileChunk);
  (** [addContentType(options, objectKey)] *)
  w_addContentType : list Option -> string -> list Option;
  (** [os.Open(filePath)] *)
  w_Open : Trace -> string -> option error;
  (** [bucket.do(method, objectKey, urlParams, subResource, options, data)] *)
  w_do : Trace -> string -> string -> string -> string -> list Option ->
         ReqBody -> result Response;
  (** [xmlUnmarshal(resp.body, &imur)] *)
  w_xmlUnmarshal_imur : list Byte.byte -> result InitiateMultipartUploadResult;
  (** [xmlUnmarshal(resp.body, &out)] of [CompleteMultipartUpload]; the
      decoded value is dropped by [UploadFile], only the error matters *)
  w_xmlUnmarshal_cmur : list Byte.byte -> option error;
  (** [xml.Marshal(cxml)] *)
  w_xml_Marshal : list UploadPart -> result (list Byte.byte);
  (** [checkRespCode(resp.statusCode, allowed)] *)
  w_checkRespCode : Z -> list Z -> option error;
  (** [bucket.GetObjectDetailedMeta(objectKey)] *)
  w_GetObjectDetailedMeta : Trace -> string -> result (gmap string string);
  (** [os.OpenFile(filePath, os.O_WRONLY|os.O_CREATE, 0660)] *)
  w_OpenFile : Trace -> string -> option error;
  (** [bucket.GetObject(objectKey, options...)]: the bytes the returned
      reader delivers *)
  w_GetObject : Trace -> string -> list Option -> result (list Byte.byte);
  (** [io.CopyBuffer(fd, r, buf)] failing: after how many bytes reached the
      file, and with which error; [None] when the whole stream is copied *)
  w_CopyBuffer_fails : Trace -> list Byte.byte -> option (nat * error)
}.

(** Code that talks to the world: a state monad over the trace. *)
Definition IO (A : Type) : Type := Trace -> A * Trace.

#[local] Instance IO_ret : MRet IO := fun A (a : A) t => (a, t).
#[local] Instance IO_bind : MBind IO :=
  fun A B (k : A -> IO B) (c : IO A) t => let '(a, t') := c t in k a t'.

(** One call: ask the world, record the event, return the answer. *)
Definition call {A : Type} (ask : Trace -> A) (ev : A -> Event) : IO A :=
  fun t => let a := ask t in (a, t ++ [ev a]).

Definition emit (ev : Event) : IO unit := fun t => (tt, t ++ [ev]).

Definition StatusNoContent : Z := 204.

(** [strconv.Itoa] *)
Definition Itoa (n : Z) : string := pretty n.

Section Bucket.
Variable w : World.

Definition os_Open (filePath : string) : IO (option error) :=
  call (fun t => w_Open w t filePath) (EvOpen filePath).

Definition bucket_do (method objectKey urlParams subResource : string)
    (options : list Option) (data : ReqBody) : IO (result Response) :=
  call (fun t => w_do w t method objectKey urlParams subResource options data)
    (EvDo method objectKey urlParams subResource options data).

(** [InitiateMultipartUpload(objectKey, options...)] *)
Definition InitiateMultipartUpload (objectKey : string)
    (options : list Option) : IO (result InitiateMultipartUploadResult) :=
  let opts := w_addContentType w options objectKey in
  resp ← bucket_do "POST" objectKey "uploads" "uploads" opts NoBody;
  match resp with
  | Err err => mret (Err err)
  | Ok resp =>
      let r := w_xmlUnmarshal_imur w (body resp) in
      _ ← emit (EvClose (ResRespBody "POST" "uploads"));
      mret r
  end.

(** [UploadPartFromFile(imur, filePath, startPosition, partSize, partNumber)];
    the request body [LimitedReader filePath startPosition partSize] stands
    for the file sought to [startPosition] and limited to [partSize] bytes. *)
Definition UploadPartFromFile (imur : InitiateMultipartUploadResult)
    (filePath : string) (startPosition partSize partNumber : Z)
  : IO (result UploadPart) :=
  fd ← os_Open filePath;
  match fd with
  | Some err => mret (Err err)
  | None =>
      let params :=
        "partNumber=" +:+ Itoa partNumber +:+ "&uploadId=" +:+ UploadID imur in
      resp ← bucket_do "PUT" (Key imur) params params []
               (LimitedReader filePath startPosition partSize);
      r ← match resp with
          | Err err => mret (Err err)
          | Ok resp =>
              let part := {| ETag := Get (headers resp) HTTPHeaderEtag;
                             PartNumber := partNumber |} in
              _ ← emit (EvClose (ResRespBody "PUT" params));
              mret (Ok part)
          end;
      _ ← emit (EvClose (ResFile filePath));
      mret r
  end.

(** [CompleteMultipartUpload(imur, parts)]; only the error is returned, the
    decoded result is not used by [UploadFile]. *)
Definition CompleteMultipartUpload (imur : InitiateMultipartUploadResult)
    (parts : list UploadPart) : IO (option error) :=
  let parts := finalize parts in
  match w_xml_Marshal w parts with
  | Err err => mret (Some err)
  | Ok bs =>
      let params := "uploadId=" +:+ UploadID imur in
      resp ← bucket_do "POST" (Key imur) params params [] (Buffer bs);
      match resp with
      | Err err => mret (Some err)
      | Ok resp =>
          let err := w_xmlUnmarshal_cmur w (body resp) in
          _ ← emit (EvClose (ResRespBody "POST" params));
          mret err
      end
  end.

(** [AbortMultipartUpload(imur)] *)
Definition AbortMultipartUpload (imur : InitiateMultipartUploadResult)
  : IO (option error) :=
  let params := "uploadId=" +:+ UploadID imur in
  resp ← bucket_do "DELETE" (Key imur) params params [] NoBody;
  match resp with
  | Err err => mret (Some err)
  | Ok resp =>
      let err := w_checkRespCode w (statusCode resp) [StatusNoContent] in
      _ ← emit (EvClose (ResRespBody "DELETE" params));
      mret err
  end.
End Bucket.

(** ** Constants and pure helpers used by the two orchestrators *)

(** Modelled from the spec: [MinPartSize], the lower bound on the part size
    (declared with the SDK's constants, outside multipart.go), is 100 KiB. *)
Definition MinPartSize : Z := 100 * 1024.

(** Modelled from the spec: [MaxPartSize], the upper bound on the part and
    chunk size (declared with the SDK's constants), is 5 GiB. *)
Definition MaxPartSize : Z := 5 * 1024 * 1024 * 1024.

(** [int64] arithmetic wraps around. *)
Definition int64 (z : Z) : Z := (z + 2 ^ 63) mod 2 ^ 64 - 2 ^ 63.

Definition ErrSyntax : error := "invalid syntax".
Definition ErrRange : error := "value out of range".

Definition digit_of (c : ascii) : option Z :=
  let n := Z.of_nat (nat_of_ascii c) in
  if (48 <=? n) && (n <=? 57) then Some (n - 48) else None.

(** The digit loop of [strconv.ParseUint(s, 10, 64)]. *)
Fixpoint ParseUint_loop (s : string) (n : Z) : Z * option error :=
  match s with
  | EmptyString => (n, None)
  | String c s' =>
      match digit_of c with
      | None => (0, Some ErrSyntax)
      | Some d =>
          if (2 ^ 64 - 1) / 10 + 1 <=? n then (2 ^ 64 - 1, Some ErrRange)
          else
            let n1 := n * 10 + d in
            if 2 ^ 64 - 1 <? n1 then (2 ^ 64 - 1, Some ErrRange)
            else ParseUint_loop s' n1
      end
  end.

Definition ParseUint (s : string) : Z * option error :=
  match s with
  | EmptyString => (0, Some ErrSyntax)
  | _ => ParseUint_loop s 0
  end.

(** [strconv.ParseInt(s, 10, 0)] where [int] has 64 bits: the value and the
    error.  A syntax error gives 0, a range error the nearest bound. *)
Definition ParseInt (s : string) : Z * option error :=
  match s with
  | EmptyString => (0, Some ErrSyntax)
  | String c s' =>
      let neg := bool_decide (c = "-"%char) in
      let s0 := if bool_decide (c = "+"%char) || neg then s' else s in
      let '(un, err) := ParseUint s0 in
      if bool_decide (err = Some ErrSyntax) then (0, err)
      else if negb neg && (2 ^ 63 <=? un) then (2 ^ 63 - 1, Some ErrRange)
      else if neg && (2 ^ 63 <? un) then (- 2 ^ 63, Some ErrRange)
      else (if neg then - un else un, None)
  end.

(** Modelled from the spec: [GetPartEnd(begin, total, per)] (one of the SDK's
    utilities, outside multipart.go) is the inclusive end
    [min(begin + per - 1, total - 1)] of the chunk that starts at [begin]. *)
Definition GetPartEnd (begin total per : Z) : Z :=
  Z.min (begin + per - 1) (total - 1).

(** How a run of a loop that Go does not bound ends. *)
Inductive outcome :=
| OutOfFuel
| Returned (err : option error).

(** ** [UploadFile] and [DownloadFile] *)
Section Transfer.
Variable w : World.

Definition SplitFileByPartSize (filePath : string) (partSize : Z)
  : IO (result (list FileChunk)) :=
  call (fun t => w_SplitFileByPartSize w t filePath partSize)
    (EvSplitFileByPartSize filePath partSize).

(** The [for _, chunk := range chunks] loop of [UploadFile]: the parts
    gathered, or the error returned from inside the loop. *)
Fixpoint UploadFile_loop (imur : InitiateMultipartUploadResult)
    (filePath : string) (chunks : list FileChunk) (parts : list UploadPart)
  : IO (result (list UploadPart)) :=
  match chunks with
  | [] => mret (Ok parts)
  | chunk :: chunks' =>
      r ← UploadPartFromFile w imur filePath (Offset chunk) (Size chunk)
            (Number chunk);
      match r with
      | Err err =>
          _ ← AbortMultipartUpload w imur;
          mret (Err err)
      | Ok part => UploadFile_loop imur filePath chunks' (parts ++ [part])
      end
  end.

(** [UploadFile(objectKey, filePath, partSize, options...)] *)
Definition UploadFile (objectKey filePath : string) (partSize : Z)
    (options : list Option) : IO (option error) :=
  if (partSize <? MinPartSize) || (MaxPartSize <? partSize) then
    mret (Some "oss: part size invalid range (1024KB, 5GB]")
  else
    chunks ← SplitFileByPartSize filePath partSize;
    match chunks with
    | Err err => mret (Some err)
    | Ok chunks =>
        imur ← InitiateMultipartUpload w objectKey options;
        match imur with
        | Err err => mret (Some err)
        | Ok imur =>
            parts ← UploadFile_loop imur filePath chunks [];
            match parts with
            | Err err => mret (Some err)
            | Ok parts =>
                err ← CompleteMultipartUpload w imur parts;
                match err with
                | Some err =>
                    _ ← AbortMultipartUpload w imur;
                    mret (Some err)
                | None => mret None
                end
            end
        end
    end.

Definition GetObjectDetailedMeta (objectKey : string)
  : IO (result (gmap string string)) :=
  call (fun t => w_GetObjectDetailedMeta w t objectKey)
    (EvGetObjectDetailedMeta objectKey).

Definition os_OpenFile (filePath : string) : IO (option error) :=
  call (fun t => w_OpenFile w t filePath) (EvOpenFile filePath).

Definition GetObject (objectKey : string) (options : list Option)
  : IO (result (list Byte.byte)) :=
  call (fun t => w_GetObject w t objectKey options)
    (EvGetObject objectKey options).

(** [io.CopyBuffer(fd, r, buf)]: the bytes of [r] are appended to the file
    until the stream ends or the copy fails; [buf] is only scratch space. *)
Definition io_CopyBuffer (filePath : string) (r : list Byte.byte)
  : IO (option error) :=
  fun t =>
    match w_CopyBuffer_fails w t r with
    | Some (n, err) =>
        (Some err, t ++ [EvCopyBuffer filePath (take n r) (Some err)])
    | None => (None, t ++ [EvCopyBuffer filePath r None])
    end.

(** The deferred [Close] calls run when the function returns, last
    deferred first. *)
Fixpoint run_deferred (rs : list Resource) : IO unit :=
  match rs with
  | [] => mret tt
  | r :: rs' => _ ← emit (EvClose r); run_deferred rs'
  end.

(** [for i := int64(0); i < objectSize; i += partSize { ... }]; [options]
    is the function's variadic parameter, reassigned by [append] in every
    iteration. *)
Fixpoint DownloadFile_loop (fuel : nat) (objectKey filePath : string)
    (objectSize partSize i : Z) (options : list Option)
    (deferred : list Resource) : IO (outcome * list Resource) :=
  if i <? objectSize then
    match fuel with
    | O => mret (OutOfFuel, deferred)
    | S fuel' =>
        let option := Range i (GetPartEnd i objectSize partSize) in
        let options := options ++ [option] in
        r ← GetObject objectKey options;
        match r with
        | Err err => mret (Returned (Some err), deferred)
        | Ok r =>
            let deferred := ResReader objectKey options :: deferred in
            err ← io_CopyBuffer filePath r;
            match err with
            | Some err => mret (Returned (Some err), deferred)
            | None =>
                DownloadFile_loop fuel' objectKey filePath objectSize
                  partSize (int64 (i + partSize)) options deferred
            end
        end
    end
  else mret (Returned None, deferred).

(** [DownloadFile(objectKey, filePath, partSize, options...)] *)
Definition DownloadFile (fuel : nat) (objectKey filePath : string)
    (partSize : Z) (options : list Option) : IO outcome :=
  if (partSize <? 1) || (MaxPartSize <? partSize) then
    mret (Returned (Some "oss: part size invalid range (1, 5GB]"))
  else
    meta ← GetObjectDetailedMeta objectKey;
    match meta with
    | Err err => mret (Returned (Some err))
    | Ok meta =>
        fd ← os_OpenFile filePath;
        match fd with
        | Some err => mret (Returned (Some err))
        | None =>
            let objectSize := fst (ParseInt (Get meta HTTPHeaderContentLength)) in
            '(out, deferred) ← DownloadFile_loop fuel objectKey filePath
                                 objectSize partSize 0 options
                                 [ResFile filePath];
            match out with
            | OutOfFuel => mret OutOfFuel
            | Returned err => _ ← run_deferred deferred; mret (Returned err)
            end
        end
    end.
End Transfer.

(** ** Reading a trace *)

(** The Abort request of a session: [DELETE key?uploadId=...]. *)
Definition abort_request (imur : InitiateMultipartUploadResult)
    (res : result Response) : Event :=
  let params := "uploadId=" +:+ UploadID imur in
  EvDo "DELETE" (Key imur) params params [] NoBody res.

(** Requests by kind: Abort is the only [DELETE], Complete the only request
    with an in-memory body, a part transfer the only [PUT]. *)
Definition is_abort (ev : Event) : bool :=
  match ev with
  | EvDo method _ _ _ _ _ _ => String.eqb method "DELETE"
  | _ => false
  end.

Definition is_complete (ev : Event) : bool :=
  match ev with
  | EvDo _ _ _ _ _ (Buffer _) _ => true
  | _ => false
  end.

(** The error of a failed part transfer: [os.Open] or the [PUT] failed. *)
Definition part_failure (ev : Event) : option error :=
  match ev with
  | EvOpen _ (Some err) => Some err
  | EvDo method _ _ _ _ (LimitedReader _ _ _) (Err err) =>
      if String.eqb method "PUT" then Some err else None
  | _ => None
  end.

Definition is_close (ev : Event) : bool :=
  match ev with
  | EvClose _ => true
  | _ => false
  end.

(** The option lists of the ranged reads of a trace, in order. *)
Definition ranged_reads (t : Trace) : list (list Option) :=
  omap (fun ev => match ev with
                  | EvGetObject _ options _ => Some options
                  | _ => None
                  end) t.

(** The bytes the copies of a trace appended to the file, in order. *)
Definition sink_bytes (t : Trace) : list Byte.byte :=
  mjoin (omap (fun ev => match ev with
                         | EvCopyBuffer _ written _ => Some written
                         | _ => None
                         end) t).

(** The [Range] options of an option list, in order. *)
Definition ranges_of (options : list Option) : list (Z * Z) :=
  omap (fun o => match o with
                 | Range s e => Some (s, e)
                 | OtherOption _ _ => None
                 end) options.

(** An event that is neither a failed part transfer, nor an Abort, nor a
    Complete request. *)
Definition quiet (ev : Event) : bool :=
  match part_failure ev with
  | Some _ => false
  | None => negb (is_abort ev) && negb (is_complete ev)
  end.

(** What [AbortMultipartUpload] leaves in the trace when [bucket.do]
    answers [res]. *)
Definition abort_events (imur : InitiateMultipartUploadResult)
    (res : result Response) : list Event :=
  abort_request imur res ::
  match res with
  | Ok _ => [EvClose (ResRespBody "DELETE" ("uploadId=" +:+ UploadID imur))]
  | Err _ => []
  end.

(** ** Scenario worlds

    A session of three parts, as in the upload scenarios: the transfer that
    starts at [bad_offset] fails, Complete fails when [complete_fails], and
    Abort always fails.  On the download side the object has the given
    [Content-Length], the local file opens unless [open_error] is set, a
    ranged read delivers the bytes of the last [Range] option of its request,
    and the read that starts at [bad_start] fails. *)
Definition scenario_imur : InitiateMultipartUploadResult :=
  mkIMUR "bucket" "object" "upload-1".

Definition scenario_response : Response :=
  mkResponse 200 {[ HTTPHeaderEtag := "etag"%string ]} [].

Definition scenario_world (bad_offset : Z) (complete_fails : bool)
    (content_length : string) (open_error : option error) (bad_start : Z)
  : World :=
  {| w_SplitFileByPartSize := fun _ _ partSize =>
       Ok [mkFileChunk 1 0 partSize; mkFileChunk 2 partSize partSize;
           mkFileChunk 3 (2 * partSize) (partSize / 2)];
     w_addContentType := fun options _ => options;
     w_Open := fun _ _ => None;
     w_do := fun _ method _ _ _ _ data =>
       match data with
       | LimitedReader _ start _ =>
           if start =? bad_offset then Err "part transfer failed"
           else Ok scenario_response
       | Buffer _ =>
           if complete_fails then Err "complete failed"
           else Ok scenario_response
       | NoBody =>
           if String.eqb method "DELETE" then Err "abort failed"
           else Ok scenario_response
       end;
     w_xmlUnmarshal_imur := fun _ => Ok scenario_imur;
     w_xmlUnmarshal_cmur := fun _ => None;
     w_xml_Marshal := fun _ => Ok [];
     w_checkRespCode := fun code allowed =>
       if bool_decide (code ∈ allowed) then None else Some "bad status"%string;
     w_GetObjectDetailedMeta := fun _ _ =>
       Ok {[ HTTPHeaderContentLength := content_length ]};
     w_OpenFile := fun _ _ => open_error;
     w_GetObject := fun _ _ options =>
       match last (ranges_of options) with
       | Some (s, e) =>
           if s =? bad_start then Err "read failed"
           else Ok (replicate (Z.to_nat (e - s + 1)) Byte.x00)
       | None => Ok []
       end;
     w_CopyBuffer_fails := fun _ _ => None |}.

(** The upload abort scenario: the second of three transfers fails. *)
Definition upload_abort_world : World :=
  scenario_world MinPartSize false "250" None (-1).

Definition upload_abort_run : option error * Trace :=
  Eval vm_compute in
    UploadFile upload_abort_world "object" "file" MinPartSize [] [].

(** Every transfer succeeds and Complete fails. *)
Definition complete_failure_world : World :=
  scenario_world (-1) true "250" None (-1).

(** ** Reading a download trace *)

(** The loop variable [i] at the start of iteration [n] (counted from 0):
    [i] starts at 0 and [i += partSize] wraps as [int64] does. *)
Definition loop_start (partSize : Z) (n : nat) : Z :=
  Nat.iter n (fun i => int64 (i + partSize)) 0.

(** The [Range] option built in iteration [n]. *)
Definition loop_range (objectSize partSize : Z) (n : nat) : Option :=
  Range (loop_start partSize n)
    (GetPartEnd (loop_start partSize n) objectSize partSize).

(** The caller's options followed by the [Range] options of iterations
    [0 .. k]. *)
Definition request_options (options : list Option) (objectSize partSize : Z)
    (k : nat) : list Option :=
  options ++ map (loop_range objectSize partSize) (seq 0 (S k)).

(** A completed iteration: the ranged read and the copy of its stream. *)
Definition chunk_events (objectKey filePath : string)
    (item : list Option * list Byte.byte) : list Event :=
  [EvGetObject objectKey item.1 (Ok item.2); EvCopyBuffer filePath item.2 None].

(** The error of a failed ranged read or of a failed copy. *)
Definition download_failure (ev : Event) : option error :=
  match ev with
  | EvGetObject _ _ (Err err) => Some err
  | EvCopyBuffer _ _ (Some err) => Some err
  | _ => None
  end.

(** The byte ranges of the spec: [[i, min(i + chunk - 1, total - 1)]] for
    [i = 0, chunk, 2 chunk, ... < total]. *)
Definition byte_ranges (totalSize chunk : Z) : list (Z * Z) :=
  map (fun k => let i := Z.of_nat k * chunk in
                (i, Z.min (i + chunk - 1) (totalSize - 1)))
    (seq 0 (Z.to_nat ((totalSize + chunk - 1) / chunk))).

(** The range a request asks for: its last [Range] option. *)
Definition requested_range (options : list Option) : option (Z * Z) :=
  last (ranges_of options).

(** The download scenario: 250 bytes in chunks of 100. *)
Definition download_world : World := scenario_world (-1) false "250" None (-1).

Definition download_run : outcome * Trace :=
  Eval vm_compute in DownloadFile download_world 3 "object" "file" 100 [] [].

(** The second ranged read fails. *)
Definition download_failure_world : World :=
  scenario_world (-1) false "250" None 100.

Definition download_failure_run : outcome * Trace :=
  Eval vm_compute in
    DownloadFile download_failure_world 3 "object" "file" 100 [] [].

(** The metadata probe answers with a [Content-Length] that is no number. *)
Definition bad_length_world : World :=
  scenario_world (-1) false "12a" None (-1).

(** A ranged read or a copy into the file. *)
Definition is_transfer (ev : Event) : bool :=
  match ev with
  | EvGetObject _ _ _ | EvCopyBuffer _ _ _ => true
  | _ => false
  end.

(** A [Content-Length] beyond [int64], and a first ranged read that fails. *)
Definition huge_length_world : World :=
  scenario_world (-1) false "9223372036854775808" None 0.

(** The collaborator honours ranges: every stream a ranged read of the trace
    delivered has the length of the range its request asked for. *)
Definition honours_ranges (t : Trace) : Prop :=
  forall objectKey options data,
    EvGetObject objectKey options (Ok data) ∈ t ->
    exists s e,
      requested_range options = Some (s, e)
      /\ Z.of_nat (length data) = e - s + 1.

(** The [Content-Length] is no number and the local file cannot be opened. *)
Definition unwritable_file_world : World :=
  scenario_world (-1) false "12a" (Some "permission denied"%string) (-1).

(** ** Reading a slice by index *)

(** The key at an index (0 outside the slice). *)
Definition key_at {A : Type} (key : A -> Z) (data : list A) (i : nat) : Z :=
  from_option key 0 (data !! i).

(** The keys of the segment [[a, b)] ascend. *)
Definition seg_sorted {A : Type} (key : A -> Z) (a b : nat) (data : list A)
  : Prop :=
  forall i j : nat,
    (a <= i)%nat -> (i <= j)%nat -> (j < b)%nat ->
    key_at key data i <= key_at key data j.

(** [seg_perm a b data data']: swaps inside [[a, b)] turn [data] into
    [data']. *)
Inductive seg_perm {A : Type} (a b : nat) : list A -> list A -> Prop :=
| seg_perm_refl data : seg_perm a b data data
| seg_perm_swap data data' i j :
    (a <= i < b)%nat -> (a <= j < b)%nat -> (b <= length data)%nat ->
    seg_perm a b (GoSort.Swap data i j) data' ->
    seg_perm a b data data'.

(** Ascending by ordinal, and strictly ascending by ordinal. *)
Definition ascending (parts : list UploadPart) : Prop :=
  StronglySorted (fun x y => PartNumber x <= PartNumber y) parts.

Definition strictly_ascending (parts : list UploadPart) : Prop :=
  StronglySorted (fun x y => PartNumber x < PartNumber y) parts.

(** The invariants of [doPivot], as its comments state them, for the pivot
    key [p] kept at [lo]: keys below [a] are smaller than [p], keys in
    [[a, b)] are at most [p], keys from [c] on are at least [p].  While the
    partitioning loop runs, [[b, c)] is unexamined and [hi - 1] is not
    reached; afterwards the keys in [[b, c)] equal [p]. *)
Definition pivot_scan {A : Type} (key : A -> Z) (lo hi : nat) (p : Z)
    (data : list A) (a b c : nat) : Prop :=
  (lo < a)%nat /\ (a <= b)%nat /\ (b <= c)%nat /\ (c <= hi - 1)%nat
  /\ (lo < hi)%nat /\ (hi <= length data)%nat
  /\ key_at key data lo = p
  /\ (forall i : nat, (lo < i < a)%nat -> key_at key data i < p)
  /\ (forall i : nat, (a <= i < b)%nat -> key_at key data i <= p)
  /\ (forall i : nat, (c <= i < hi)%nat -> p <= key_at key data i).

Definition pivot_parts {A : Type} (key : A -> Z) (lo hi : nat) (p : Z)
    (data : list A) (a b c : nat) : Prop :=
  (lo < a)%nat /\ (a <= b)%nat /\ (b <= c)%nat /\ (c <= hi)%nat
  /\ (hi <= length data)%nat
  /\ key_at key data lo = p
  /\ (forall i : nat, (lo < i < a)%nat -> key_at key data i < p)
  /\ (forall i : nat, (a <= i < b)%nat -> key_at key data i <= p)
  /\ (forall i : nat, (b <= i < c)%nat -> key_at key data i = p)
  /\ (forall i : nat, (c <= i < hi)%nat -> p <= key_at key data i).

(** The heap of [heapSort] lives at indices [first .. first + hi - 1]; node
    [i] is in heap order when its key is at least the keys of its children
    [2i + 1] and [2i + 2]. *)
Definition heap_ok {A : Type} (key : A -> Z) (first hi : nat) (data : list A)
    (i : nat) : Prop :=
  forall c : nat,
    c = (2 * i + 1)%nat \/ c = (2 * i + 2)%nat -> (c < hi)%nat ->
    key_at key data (first + c) <= key_at key data (first + i).

(** Entries that share an ordinal keep their relative order from [parts] to
    [out]: for every ordinal, both hold the same sequence of entries. *)
Definition same_order_among_equal (parts out : list UploadPart) : Prop :=
  forall n : Z,
    filter (fun p => PartNumber p = n) out
    = filter (fun p => PartNumber p = n) parts.

(** Part 2 was transferred twice, parts 3 to 6 once, part 1 last. *)
Definition retried_parts : list UploadPart :=
  [mkUploadPart 2 "a"; mkUploadPart 2 "b"; mkUploadPart 3 "c";
   mkUploadPart 4 "d"; mkUploadPart 5 "e"; mkUploadPart 6 "f";
   mkUploadPart 1 "g"].

(** Thirteen results in ascending order, two of them for part 7. *)
Definition ascending_parts_with_tie : list UploadPart :=
  [mkUploadPart 1 "a"; mkUploadPart 2 "b"; mkUploadPart 3 "c";
   mkUploadPart 4 "d"; mkUploadPart 5 "e"; mkUploadPart 6 "f";
   mkUploadPart 7 "g"; mkUploadPart 7 "h"; mkUploadPart 8 "i";
   mkUploadPart 9 "j"; mkUploadPart 10 "k"; mkUploadPart 11 "l";
   mkUploadPart 12 "m"].

(** ** The other session methods of multipart.go

    [UploadPart], [UploadPartCopy], [ListUploadedParts] and
    [ListMultipartUploads] use more of the SDK than the methods above: option
    builders, the parameter encoder and further XML decoders.  They are
    gathered in [Helpers]; the two list results are opaque types. *)
Record Helpers (ListUploadedPartsResult ListMultipartUploadResult : Type) :=
  mkHelpers {
  (** [bucket.BucketName] *)
  h_BucketName : string;
  (** [ContentLength(size)] *)
  h_ContentLength : Z -> Option;
  (** [CopySource(bucketName, copySrc)] *)
  h_CopySource : string -> string -> Option;
  (** [CopySourceRange(startPosition, partSize)] *)
  h_CopySourceRange : Z -> Z -> Option;
  (** [EncodingType("url")] *)
  h_EncodingType : string -> Option;
  (** [handleParams(options)] *)
  h_handleParams : list Option -> result string;
  (** [xmlUnmarshal(resp.body, &out)] for an [UploadPartCopyResult], of which
      the method reads [out.ETag] only: the decoded [ETag] *)
  h_xmlUnmarshal_copy : list Byte.byte -> result string;
  (** [xmlUnmarshal(resp.body, &out)] for a [ListUploadedPartsResult] *)
  h_xmlUnmarshal_parts : list Byte.byte -> result ListUploadedPartsResult;
  (** [xmlUnmarshal(resp.body, &out)] for a [ListMultipartUploadResult] *)
  h_xmlUnmarshal_uploads : list Byte.byte -> result ListMultipartUploadResult;
  (** [decodeListMultipartUploadResult(&out)]: the decoded value and the
      error *)
  h_decodeListMultipartUploadResult :
    ListMultipartUploadResult -> ListMultipartUploadResult * option error
}.
Arguments h_BucketName {_ _} _.
Arguments h_ContentLength {_ _} _ _.
Arguments h_CopySource {_ _} _ _ _.
Arguments h_CopySourceRange {_ _} _ _ _.
Arguments h_EncodingType {_ _} _ _.
Arguments h_handleParams {_ _} _ _.
Arguments h_xmlUnmarshal_copy {_ _} _ _.
Arguments h_xmlUnmarshal_parts {_ _} _ _.
Arguments h_xmlUnmarshal_uploads {_ _} _ _.
Arguments h_decodeListMultipartUploadResult {_ _} _ _.

(** The request parameters of a part transfer:
    ["partNumber=" + strconv.Itoa(partNumber) + "&uploadId=" + imur.UploadID]. *)
Definition part_params (imur : InitiateMultipartUploadResult) (partNumber : Z)
  : string :=
  "partNumber=" +:+ Itoa partNumber +:+ "&uploadId=" +:+ UploadID imur.

Section Methods.
Context {ListUploadedPartsResult ListMultipartUploadResult : Type}.
Variable h : Helpers ListUploadedPartsResult ListMultipartUploadResult.
Variable w : World.

(** [UploadPart(imur, reader, size, partNumber)] (the method; [UploadPart] is
    also the name of its result type).  The reader is the byte stream it
    delivers, and [&io.LimitedReader{R: reader, N: size}] its first [size]
    bytes. *)
Definition bucket_UploadPart (imur : InitiateMultipartUploadResult)
    (reader : list Byte.byte) (size partNumber : Z) : IO (result UploadPart) :=
  let params :=
    "partNumber=" +:+ Itoa partNumber +:+ "&uploadId=" +:+ UploadID imur in
  let opts := [h_ContentLength h size] in
  resp ← bucket_do w "PUT" (Key imur) params params opts
           (Buffer (take (Z.to_nat size) reader));
  match resp with
  | Err err => mret (Err err)
  | Ok resp =>
      let part := {| ETag := Get (headers resp) HTTPHeaderEtag;
                     PartNumber := partNumber |} in
      _ ← emit (EvClose (ResRespBody "PUT" params));
      mret (Ok part)
  end.

(** [UploadPartCopy(imur, copySrc, startPosition, partSize, partNumber,
    options...)] *)
Definition UploadPartCopy (imur : InitiateMultipartUploadResult)
    (copySrc : string) (startPosition partSize partNumber : Z)
    (options : list Option) : IO (result UploadPart) :=
  let opts := [h_CopySource h (h_BucketName h) copySrc;
               h_CopySourceRange h startPosition partSize] in
  let opts := opts ++ options in
  let params :=
    "partNumber=" +:+ Itoa partNumber +:+ "&uploadId=" +:+ UploadID imur in
  resp ← bucket_do w "PUT" (Key imur) params params opts NoBody;
  match resp with
  | Err err => mret (Err err)
  | Ok resp =>
      let out := h_xmlUnmarshal_copy h (body resp) in
      _ ← emit (EvClose (ResRespBody "PUT" params));
      match out with
      | Err err => mret (Err err)
      | Ok etag => mret (Ok {| ETag := etag; PartNumber := partNumber |})
      end
  end.

(** [ListUploadedParts(imur)] *)
Definition ListUploadedParts (imur : InitiateMultipartUploadResult)
  : IO (result ListUploadedPartsResult) :=
  let params := "uploadId=" +:+ UploadID imur in
  resp ← bucket_do w "GET" (Key imur) params params [] NoBody;
  match resp with
  | Err err => mret (Err err)
  | Ok resp =>
      let out := h_xmlUnmarshal_parts h (body resp) in
      _ ← emit (EvClose (ResRespBody "GET" params));
      mret out
  end.

(** [ListMultipartUploads(options...)] *)
Definition ListMultipartUploads (options : list Option)
  : IO (result ListMultipartUploadResult) :=
  let options := options ++ [h_EncodingType h "url"] in
  match h_handleParams h options with
  | Err err => mret (Err err)
  | Ok params =>
      resp ← bucket_do w "GET" "" ("uploads&" +:+ params) "uploads" [] NoBody;
      match resp with
      | Err err => mret (Err err)
      | Ok resp =>
          let out := h_xmlUnmarshal_uploads h (body resp) in
          _ ← emit (EvClose (ResRespBody "GET" ("uploads&" +:+ params)));
          match out with
          | Err err => mret (Err err)
          | Ok out =>
              let '(out, err) := h_decodeListMultipartUploadResult h out in
              match err with
              | Some err => mret (Err err)
              | None => mret (Ok out)
              end
          end
      end
  end.

(** [CompleteMultipartUpload(imur, parts)] as its caller sees it:
    [sort.Sort(uploadParts(parts))] sorts the caller's slice in place, so the
    method leaves the slice reordered besides returning its error. *)
Definition CompleteMultipartUpload_inplace
    (imur : InitiateMultipartUploadResult) (parts : list UploadPart)
  : IO (list UploadPart * option error) :=
  let parts := finalize parts in
  match w_xml_Marshal w parts with
  | Err err => mret (parts, Some err)
  | Ok bs =>
      let params := "uploadId=" +:+ UploadID imur in
      resp ← bucket_do w "POST" (Key imur) params params [] (Buffer bs);
      match resp with
      | Err err => mret (parts, Some err)
      | Ok resp =>
          let err := w_xmlUnmarshal_cmur w (body resp) in
          _ ← emit (EvClose (ResRespBody "POST" params));
          mret (parts, err)
      end
  end.
End Methods.

(** ** Reading the traces of whole runs *)

(** The trace of one exchange with the service: nothing, a request that
    failed, or an answered request followed by the closing of its body. *)
Definition exchange (evs : list Event) : Prop :=
  evs = []
  \/ (exists method objectKey urlParams subResource options data err,
        evs = [EvDo method objectKey urlParams subResource options data
                 (Err err)])
  \/ (exists method objectKey urlParams subResource options data resp,
        evs = [EvDo method objectKey urlParams subResource options data
                 (Ok resp);
               EvClose (ResRespBody method urlParams)]).

(** The events of a part transfer of [UploadFile] that succeeded for [chunk]
    with answer [resp], and the part it yields. *)
Definition transfer_events (imur : InitiateMultipartUploadResult)
    (filePath : string) (chunk : FileChunk) (resp : Response) : list Event :=
  [EvOpen filePath None;
   EvDo "PUT" (Key imur) (part_params imur (Number chunk))
     (part_params imur (Number chunk)) []
     (LimitedReader filePath (Offset chunk) (Size chunk)) (Ok resp);
   EvClose (ResRespBody "PUT" (part_params imur (Number chunk)));
   EvClose (ResFile filePath)].

Definition part_of (chunk : FileChunk) (resp : Response) : UploadPart :=
  {| PartNumber := Number chunk; ETag := Get (headers resp) HTTPHeaderEtag |}.

(** The streams the ranged reads of a trace delivered, in order. *)
Definition delivered (t : Trace) : list Byte.byte :=
  mjoin (omap (fun ev => match ev with
                         | EvGetObject _ _ (Ok data) => Some data
                         | _ => None
                         end) t).

(** A world for the list methods: the parameters cannot be encoded. *)
Definition failing_helpers : Helpers unit unit :=
  {| h_BucketName := "bucket";
     h_ContentLength := fun n => OtherOption HTTPHeaderContentLength (Itoa n);
     h_CopySource := fun b k => OtherOption "x-oss-copy-source" (b +:+ "/" +:+ k);
     h_CopySourceRange := fun s n =>
       OtherOption "x-oss-copy-source-range" (Itoa s +:+ "-" +:+ Itoa n);
     h_EncodingType := fun v => OtherOption "encoding-type" v;
     h_handleParams := fun _ => Err "cannot encode";
     h_xmlUnmarshal_copy := fun _ => Ok "copy-etag"%string;
     h_xmlUnmarshal_parts := fun _ => Ok tt;
     h_xmlUnmarshal_uploads := fun _ => Ok tt;
     h_decodeListMultipartUploadResult := fun out => (out, None) |}.

(** Every transfer and Complete succeed (and Abort would fail). *)
Definition upload_ok_world : World := scenario_world (-1) false "250" None (-1).

Definition upload_ok_run : option error * Trace :=
  Eval vm_compute in UploadFile upload_ok_world "object" "file" MinPartSize [] [].

(** The session cannot be opened: every request without a body fails. *)
Definition no_session_world : World :=
  {| w_SplitFileByPartSize := w_SplitFileByPartSize upload_ok_world;
     w_addContentType := w_addContentType upload_ok_world;
     w_Open := w_Open upload_ok_world;
     w_do := fun _ _ _ _ _ _ _ => Err "service unavailable";
     w_xmlUnmarshal_imur := w_xmlUnmarshal_imur upload_ok_world;
     w_xmlUnmarshal_cmur := w_xmlUnmarshal_cmur upload_ok_world;
     w_xml_Marshal := w_xml_Marshal upload_ok_world;
     w_checkRespCode := w_checkRespCode upload_ok_world;
     w_GetObjectDetailedMeta := fun _ _ => Err "service unavailable";
     w_OpenFile := w_OpenFile upload_ok_world;
     w_GetObject := w_GetObject upload_ok_world;
     w_CopyBuffer_fails := w_CopyBuffer_fails upload_ok_world |}.

(** The part transfers a trace requested: the parameters and the file range
    of every request whose body is read from a file, in order. *)
Definition part_requests (t : Trace) : list (string * (string * Z * Z)) :=
  omap (fun ev => match ev with
                  | EvDo _ _ urlParams _ _ (LimitedReader f s n) _ =>
                      Some (urlParams, (f, s, n))
                  | _ => None
                  end) t.

(** The part transfer [UploadFile] requests for a chunk of the plan. *)
Definition planned_request (imur : InitiateMultipartUploadResult)
    (filePath : string) (chunk : FileChunk) : string * (string * Z * Z) :=
  (part_params imur (Number chunk), (filePath, Offset chunk, Size chunk)).

(** The Complete requests of a trace with their answers. *)
Definition complete_requests (t : Trace)
  : list (list Byte.byte * result Response) :=
  omap (fun ev => match ev with
                  | EvDo _ _ _ _ _ (Buffer bs) res => Some (bs, res)
                  | _ => None
                  end) t.

(** The answers to the part transfers of a trace, in order. *)
Definition part_answers (t : Trace) : list Response :=
  omap (fun ev => match ev with
                  | EvDo _ _ _ _ _ (LimitedReader _ _ _) (Ok resp) => Some resp
                  | _ => None
                  end) t.

(** The chunks of a plan are numbered in strictly ascending order. *)
Definition plan_ascending (chunks : list FileChunk) : Prop :=
  StronglySorted (fun x y => Number x < Number y) chunks.

(** ** Resources

    What an event acquires: a file that opened, the body of an answered
    request, the reader of an answered ranged read. *)
#[global] Instance Option_eq_dec : EqDecision Option.
Proof. solve_decision. Defined.

#[global] Instance Resource_eq_dec : EqDecision Resource.
Proof. solve_decision. Defined.

Definition acquired (ev : Event) : option Resource :=
  match ev with
  | EvOpen filePath None => Some (ResFile filePath)
  | EvOpenFile filePath None => Some (ResFile filePath)
  | EvDo method _ urlParams _ _ _ (Ok _) => Some (ResRespBody method urlParams)
  | EvGetObject objectKey options (Ok _) => Some (ResReader objectKey options)
  | _ => None
  end.

(** Closing [r] releases the resource acquired last among those equal to
    [r]. *)
Fixpoint release (r : Resource) (st : list Resource) : list Resource :=
  match st with
  | [] => []
  | r' :: st' => if decide (r = r') then st' else r' :: release r st'
  end.

(** The resources still held after a trace, the last acquired first, when
    [st] was held before it. *)
Fixpoint held (st : list Resource) (t : Trace) : list Resource :=
  match t with
  | [] => st
  | EvClose r :: t' => held (release r st) t'
  | ev :: t' =>
      held (match acquired ev with Some r => r :: st | None => st end) t'
  end.

(** A computation that holds, when it is over, what was held before it. *)
Definition balanced {A : Type} (c : IO A) : Prop :=
  forall t, exists evs,
    (c t).2 = t ++ evs /\ forall st, held st evs = st.

(** The error a method returns, if any. *)
Definition failure {A : Type} (r : result A) : option error :=
  match r with
  | Err err => Some err
  | Ok _ => None
  end.

(** A computation that is one exchange with the service: it appends the
    events of at most one request; a request that fails makes it return the
    request's error; and it returns an error when it sends no request. *)
Definition exchanges {A : Type} (c : IO A) (error_of : A -> option error)
  : Prop :=
  forall t, exists evs,
    (c t).2 = t ++ evs
    /\ exchange evs
    /\ (forall method objectKey urlParams subResource options data err,
          evs = [EvDo method objectKey urlParams subResource options data
                   (Err err)] ->
          error_of (c t).1 = Some err)
    /\ (evs = [] -> error_of (c t).1 <> None).

(** A request addresses the session [imur]: it names the session's object,
    its parameters end with the session's upload id, and the same parameters
    are signed as its sub-resource.  Other events address nothing. *)
Definition addresses (imur : InitiateMultipartUploadResult) (ev : Event)
  : Prop :=
  match ev with
  | EvDo _ objectKey urlParams subResource _ _ _ =>
      objectKey = Key imur
      /\ subResource = urlParams
      /\ exists pre, urlParams = pre +:+ "uploadId=" +:+ UploadID imur
  | _ => True
  end.

Definition session_scoped {A : Type} (imur : InitiateMultipartUploadResult)
    (c : IO A) : Prop :=
  forall t, exists evs,
    (c t).2 = t ++ evs /\ Forall (addresses imur) evs.

(** ** The caller's slice

    A variadic parameter [options ...Option] that is called with [opts...]
    is the caller's slice itself: it shares the backing array.  [append]
    writes into that array while the slice has spare capacity and moves to a
    new array when it has none.  [Shared len] is a slice of the first [len]
    elements of the caller's array (whose length is the capacity),
    [Private elems] a slice of an array of the callee's own.  Collaborators
    are taken not to write to a slice passed to them. *)
Inductive Slice :=
| Shared (len : nat)
| Private (elems : list Option).

Definition elements (caller : list Option) (s : Slice) : list Option :=
  match s with
  | Shared len => take len caller
  | Private elems => elems
  end.

(** [append(s, x)]: the caller's array afterwards, and the slice returned. *)
Definition slice_append (caller : list Option) (s : Slice) (x : Option)
  : list Option * Slice :=
  match s with
  | Shared len =>
      if decide (len < length caller)%nat
      then (<[len := x]> caller, Shared (S len))
      else (caller, Private (take len caller ++ [x]))
  | Private elems => (caller, Private (elems ++ [x]))
  end.

Section Slices.
Context {ListUploadedPartsResult ListMultipartUploadResult : Type}.
Variable h : Helpers ListUploadedPartsResult ListMultipartUploadResult.
Variable w : World.

(** [ListMultipartUploads(opts...)], with the caller's array: the result and
    the array afterwards. *)
Definition ListMultipartUploads_shared (caller : list Option) (len : nat)
  : IO (result ListMultipartUploadResult * list Option) :=
  let options := Shared len in
  let '(caller, options) :=
    slice_append caller options (h_EncodingType h "url") in
  match h_handleParams h (elements caller options) with
  | Err err => mret (Err err, caller)
  | Ok params =>
      resp ← bucket_do w "GET" "" ("uploads&" +:+ params) "uploads" [] NoBody;
      match resp with
      | Err err => mret (Err err, caller)
      | Ok resp =>
          let out := h_xmlUnmarshal_uploads h (body resp) in
          _ ← emit (EvClose (ResRespBody "GET" ("uploads&" +:+ params)));
          match out with
          | Err err => mret (Err err, caller)
          | Ok out =>
              let '(out, err) := h_decodeListMultipartUploadResult h out in
              match err with
              | Some err => mret (Err err, caller)
              | None => mret (Ok out, caller)
              end
          end
      end
  end.

(** The loop of [DownloadFile(objectKey, filePath, partSize, opts...)], with
    the caller's array. *)
Fixpoint DownloadFile_loop_shared (fuel : nat) (objectKey filePath : string)
    (objectSize partSize i : Z) (caller : list Option) (options : Slice)
    (deferred : list Resource)
  : IO (outcome * list Resource * list Option) :=
  if i <? objectSize then
    match fuel with
    | O => mret (OutOfFuel, deferred, caller)
    | S fuel' =>
        let option := Range i (GetPartEnd i objectSize partSize) in
        let '(caller, options) := slice_append caller options option in
        r ← GetObject w objectKey (elements caller options);
        match r with
        | Err err => mret (Returned (Some err), deferred, caller)
        | Ok r =>
            let deferred :=
              ResReader objectKey (elements caller options) :: deferred in
            err ← io_CopyBuffer w filePath r;
            match err with
            | Some err => mret (Returned (Some err), deferred, caller)
            | None =>
                DownloadFile_loop_shared fuel' objectKey filePath objectSize
                  partSize (int64 (i + partSize)) caller options deferred
            end
        end
    end
  else mret (Returned None, deferred, caller).

Definition DownloadFile_shared (fuel : nat) (objectKey filePath : string)
    (partSize : Z) (caller : list Option) (len : nat)
  : IO (outcome * list Option) :=
  let options := Shared len in
  if (partSize <? 1) || (MaxPartSize <? partSize) then
    mret (Returned (Some "oss: part size invalid range (1, 5GB]"), caller)
  else
    meta ← GetObjectDetailedMeta w objectKey;
    match meta with
    | Err err => mret (Returned (Some err), caller)
    | Ok meta =>
        fd ← os_OpenFile w filePath;
        match fd with
        | Some err => mret (Returned (Some err), caller)
        | None =>
            let objectSize := fst (ParseInt (Get meta HTTPHeaderContentLength)) in
            '(out, deferred, caller) ← DownloadFile_loop_shared fuel objectKey
                                         filePath objectSize partSize 0 caller
                                         options [ResFile filePath];
            match out with
            | OutOfFuel => mret (OutOfFuel, caller)
            | Returned err =>
                _ ← run_deferred deferred; mret (Returned err, caller)
            end
        end
    end.
End Slices.

(** The options the ranged reads of a trace added: the last option of each
    request, in order. *)
Definition added (t : Trace) : list Option := omap last (ranged_reads t).

(** The caller's array after [xs] were appended, one by one, to its slice of
    length [len]: they fill the spare capacity, in order. *)
Definition written_back (caller : list Option) (len : nat) (xs : list Option)
  : list Option :=
  take (length caller)
    (take len caller ++ xs ++ drop (len + length xs) caller).

(** A caller whose slice shows one option of an array of three. *)
Definition spare_capacity : list Option :=
  [OtherOption "If-Match" "etag"; OtherOption "x" "1"; OtherOption "y" "2"].

(** A slice of the caller's array is within its capacity. *)
Definition slice_ok (caller : list Option) (s : Slice) : Prop :=
  match s with
  | Shared len => (len <= length caller)%nat
  | Private _ => True
  end.

(** The caller's array after [xs] were appended to the slice [s]. *)
Definition after_appends (caller : list Option) (s : Slice)
    (xs : list Option) : list Option :=
  match s with
  | Shared len => written_back caller len xs
  | Private _ => caller
  end.

(** * Properties *)

Ltac io_unfold :=
  unfold mbind, mret, IO_bind, IO_ret, call, emit in *; simpl in *.

(** ** Traces of the session methods *)

Lemma AbortMultipartUpload_run w imur t :
  exists res,
    snd (AbortMultipartUpload w imur t) = t ++ abort_events imur res.
Proof.
  unfold AbortMultipartUpload, bucket_do, abort_events, abort_request.
  io_unfold.
  destruct (w_do w t "DELETE" (Key imur) _ _ [] NoBody) as [resp|err] eqn:E;
    [exists (Ok resp) | exists (Err err)]; simpl.
  - by rewrite <- app_assoc.
  - done.
Qed.

Lemma abort_events_shape imur res :
  length (filter (fun ev => is_abort ev = true) (abort_events imur res)) = 1%nat
  /\ Forall (fun ev => is_complete ev = false) (abort_events imur res)
  /\ Forall (fun ev => part_failure ev = None) (abort_events imur res).
Proof.
  destruct res; simpl; repeat split; repeat constructor.
Qed.

Lemma InitiateMultipartUpload_run w objectKey options t :
  exists evs,
    snd (InitiateMultipartUpload w objectKey options t) = t ++ evs
    /\ Forall (fun ev => quiet ev = true) evs.
Proof.
  unfold InitiateMultipartUpload, bucket_do. io_unfold.
  destruct (w_do w t "POST" objectKey "uploads" "uploads" _ NoBody)
    as [resp|err]; simpl; eexists.
  - split; [by rewrite <- app_assoc|]. by repeat constructor.
  - split; [done|]. by repeat constructor.
Qed.

Lemma UploadPartFromFile_run w imur filePath startPosition partSize partNumber t :
  exists evs,
    snd (UploadPartFromFile w imur filePath startPosition partSize partNumber t)
    = t ++ evs
    /\ match fst (UploadPartFromFile w imur filePath startPosition partSize
                    partNumber t) with
       | Ok part =>
           Forall (fun ev => quiet ev = true) evs
           /\ PartNumber part = partNumber
       | Err err =>
           exists before ev closes,
             evs = before ++ ev :: closes
             /\ Forall (fun ev => quiet ev = true) before
             /\ part_failure ev = Some err
             /\ Forall (fun ev => is_close ev = true) closes
       end.
Proof.
  unfold UploadPartFromFile, os_Open, bucket_do. io_unfold.
  destruct (w_Open w t filePath) as [err|] eqn:EO; simpl.
  - exists [EvOpen filePath (Some err)]. split; [done|].
    exists [], (EvOpen filePath (Some err)), []. by repeat split.
  - match goal with
    | |- context [w_do w ?t' ?m ?k ?p ?s ?o ?d] =>
        destruct (w_do w t' m k p s o d) as [resp|err] eqn:ED
    end; simpl.
    + eexists. split; [by rewrite <- !app_assoc|]. simpl.
      split; [|done]. repeat constructor.
    + eexists. split; [by rewrite <- !app_assoc|]. simpl.
      eexists [EvOpen filePath None], _, [_]. split; [reflexivity|].
      repeat split; repeat constructor.
Qed.

Lemma CompleteMultipartUpload_run w imur parts t :
  exists evs,
    snd (CompleteMultipartUpload w imur parts t) = t ++ evs
    /\ Forall (fun ev => part_failure ev = None /\ is_abort ev = false) evs.
Proof.
  unfold CompleteMultipartUpload, bucket_do. io_unfold.
  destruct (w_xml_Marshal w (finalize parts)) as [bs|err]; simpl.
  - match goal with
    | |- context [w_do w ?t' ?m ?k ?p ?s ?o ?d] =>
        destruct (w_do w t' m k p s o d) as [resp|err]
    end; simpl; eexists.
    + split; [by rewrite <- app_assoc|]. by repeat constructor.
    + split; [done|]. by repeat constructor.
  - exists []. split; [by rewrite app_nil_r|constructor].
Qed.

(** The upload loop either gathers every part quietly, or stops at the first
    failed transfer, runs Abort and returns the transfer's error. *)
Lemma UploadFile_loop_run w imur filePath chunks : forall parts t,
  exists evs,
    snd (UploadFile_loop w imur filePath chunks parts t) = t ++ evs
    /\ match fst (UploadFile_loop w imur filePath chunks parts t) with
       | Ok _ => Forall (fun ev => quiet ev = true) evs
       | Err err =>
           exists before ev closes res,
             evs = before ++ ev :: closes ++ abort_events imur res
             /\ Forall (fun ev => quiet ev = true) before
             /\ part_failure ev = Some err
             /\ Forall (fun ev => is_close ev = true) closes
       end.
Proof.
  induction chunks as [|chunk chunks IH]; intros parts t; simpl.
  - exists []. split; [by rewrite app_nil_r|constructor].
  - unfold mbind, IO_bind.
    destruct (UploadPartFromFile_run w imur filePath (Offset chunk)
                (Size chunk) (Number chunk) t) as (evs1 & Ht & Hr).
    destruct (UploadPartFromFile w imur filePath (Offset chunk) (Size chunk)
                (Number chunk) t) as [[part|err] t1] eqn:E;
      simpl in Ht, Hr; subst t1.
    + destruct Hr as [Hq _].
      destruct (IH (parts ++ [part]) (t ++ evs1)) as (evs2 & Ht2 & Hr2).
      exists (evs1 ++ evs2). split; [by rewrite Ht2, app_assoc|].
      destruct (fst (UploadFile_loop w imur filePath chunks (parts ++ [part])
                       (t ++ evs1))) as [ps|err].
      * by apply Forall_app.
      * destruct Hr2 as (before & ev & closes & res & -> & Hb & Hf & Hc).
        exists (evs1 ++ before), ev, closes, res.
        rewrite <- app_assoc. repeat split; try done. by apply Forall_app.
    + destruct Hr as (before & ev & closes & -> & Hb & Hf & Hc).
      destruct (AbortMultipartUpload_run w imur (t ++ before ++ ev :: closes))
        as (res & Ha).
      destruct (AbortMultipartUpload w imur (t ++ before ++ ev :: closes))
        as [ab t2]; simpl in *; subst t2.
      exists ((before ++ ev :: closes) ++ abort_events imur res).
      split; [by rewrite <- !app_assoc|].
      exists before, ev, closes, res. rewrite <- app_assoc. done.
Qed.

Lemma quiet_spec ev :
  quiet ev = true ->
  part_failure ev = None /\ is_abort ev = false /\ is_complete ev = false.
Proof.
  unfold quiet. destruct (part_failure ev); [done|].
  intros [H1 H2]%andb_prop. by destruct (is_abort ev), (is_complete ev).
Qed.

Lemma is_close_spec ev :
  is_close ev = true ->
  part_failure ev = None /\ is_abort ev = false /\ is_complete ev = false.
Proof. by destruct ev. Qed.

Lemma filter_is_abort_none (evs : list Event) :
  Forall (fun ev => is_abort ev = false) evs ->
  filter (fun ev => is_abort ev = true) evs = [].
Proof.
  induction 1 as [|ev evs Hev _ IH]; [done|].
  rewrite filter_cons_False; [done|]. by rewrite Hev.
Qed.

(** A trace that stops at a failed transfer followed by Abort holds exactly
    one Abort request, no Complete request and one failed transfer. *)
Lemma failed_run_shape imur before ev closes res err :
  Forall (fun ev => quiet ev = true) before ->
  part_failure ev = Some err ->
  Forall (fun ev => is_close ev = true) closes ->
  let evs := before ++ ev :: closes ++ abort_events imur res in
  length (filter (fun ev => is_abort ev = true) evs) = 1%nat
  /\ Forall (fun ev => is_complete ev = false) evs
  /\ (forall ev' err', ev' ∈ evs -> part_failure ev' = Some err' -> err' = err).
Proof.
  intros Hb Hf Hc evs. subst evs.
  assert (Hev : is_abort ev = false /\ is_complete ev = false).
  { destruct ev as [| ? [?|] |? ? ? ? ? [] []| | | | |]; try done.
    simpl in *. destruct (method =? "PUT")%string eqn:E; [|done].
    apply String.eqb_eq in E. by subst. }
  destruct Hev as [Hea Hec].
  destruct (abort_events_shape imur res) as (Ha1 & Ha2 & Ha3).
  repeat split.
  - rewrite filter_app, filter_cons, filter_app, !length_app.
    assert (filter (fun ev => is_abort ev = true) before = []) as ->.
    { apply filter_is_abort_none. eapply Forall_impl; [exact Hb|].
      intros x Hx. by apply quiet_spec in Hx as (_ & -> & _). }
    assert (filter (fun ev => is_abort ev = true) closes = []) as ->.
    { apply filter_is_abort_none. eapply Forall_impl; [exact Hc|].
      intros x Hx. by apply is_close_spec in Hx as (_ & -> & _). }
    destruct (decide (is_abort ev = true)) as [Habs|_]; [congruence|].
    simpl. exact Ha1.
  - apply Forall_app. split.
    + eapply Forall_impl; [exact Hb|]. intros x Hx. by apply quiet_spec in Hx as (_ & _ & ?).
    + constructor; [done|]. apply Forall_app. split; [|done].
      eapply Forall_impl; [exact Hc|].
      intros x Hx. by apply is_close_spec in Hx as (_ & _ & ?).
  - intros ev' err' Hin Hf'.
    rewrite elem_of_app, elem_of_cons, elem_of_app in Hin.
    destruct Hin as [Hin|[->|[Hin|Hin]]].
    + eapply Forall_forall in Hb; [|exact Hin].
      apply quiet_spec in Hb as (Hn & _). congruence.
    + congruence.
    + eapply Forall_forall in Hc; [|exact Hin].
      apply is_close_spec in Hc as (Hn & _). congruence.
    + eapply Forall_forall in Ha3; [|exact Hin]. congruence.
Qed.

(** ** [UploadFile] *)

(** A run only appends to the trace. *)
Lemma UploadFile_trace_extends w objectKey filePath partSize options t0 :
  exists evs,
    (UploadFile w objectKey filePath partSize options t0).2 = t0 ++ evs.
Proof.
  unfold UploadFile.
  destruct ((partSize <? MinPartSize) || (MaxPartSize <? partSize)).
  { exists []. by rewrite app_nil_r. }
  unfold SplitFileByPartSize. io_unfold.
  destruct (w_SplitFileByPartSize w t0 filePath partSize) as [chunks|e0].
  2:{ by eexists. }
  match goal with
  | |- context [InitiateMultipartUpload w objectKey options ?t] =>
      destruct (InitiateMultipartUpload_run w objectKey options t)
        as (evsI & HtI & _);
      destruct (InitiateMultipartUpload w objectKey options t)
        as [[imur|e1] t1]; simpl in HtI; subst t1
  end.
  2:{ eexists. by rewrite <- app_assoc. }
  match goal with
  | |- context [UploadFile_loop w imur filePath chunks [] ?t] =>
      destruct (UploadFile_loop_run w imur filePath chunks [] t)
        as (evsL & HtL & _);
      destruct (UploadFile_loop w imur filePath chunks [] t)
        as [[parts|e2] t2]; simpl in HtL; subst t2
  end.
  2:{ eexists. by rewrite <- !app_assoc. }
  match goal with
  | |- context [CompleteMultipartUpload w imur parts ?t] =>
      destruct (CompleteMultipartUpload_run w imur parts t)
        as (evsC & HtC & _);
      destruct (CompleteMultipartUpload w imur parts t)
        as [[e3|] t3]; simpl in HtC; subst t3
  end.
  2:{ eexists. by rewrite <- !app_assoc. }
  match goal with
  | |- context [AbortMultipartUpload w imur ?t] =>
      destruct (AbortMultipartUpload_run w imur t) as (res & Ha);
      destruct (AbortMultipartUpload w imur t) as [ab t4];
      simpl in Ha; subst t4
  end.
  eexists. by rewrite <- !app_assoc.
Qed.

(** C1. When some part transfer of an [UploadFile] run fails, the run returns
    that transfer's error, whatever the Abort request answers; its trace holds
    exactly one Abort request and no Complete request; and the trace ends with
    the failed transfer, the closing of what the transfer opened, and the
    Abort request on the handle that [InitiateMultipartUpload] returned. *)
Theorem UploadFile_part_failure_aborts
    w objectKey filePath partSize options t0 r evs ev err :
  UploadFile w objectKey filePath partSize options t0 = (r, t0 ++ evs) ->
  ev ∈ evs ->
  part_failure ev = Some err ->
  r = Some err
  /\ length (filter (fun ev => is_abort ev = true) evs) = 1%nat
  /\ Forall (fun ev => is_complete ev = false) evs
  /\ exists chunks imur t1 before closes res,
       w_SplitFileByPartSize w t0 filePath partSize = Ok chunks
       /\ InitiateMultipartUpload w objectKey options
            (t0 ++ [EvSplitFileByPartSize filePath partSize (Ok chunks)])
          = (Ok imur, t1)
       /\ t0 ++ evs = t1 ++ before ++ ev :: closes ++ abort_events imur res
       /\ Forall (fun ev => quiet ev = true) before
       /\ Forall (fun ev => is_close ev = true) closes.
Proof.
  intros Hrun Hin Hfail. unfold UploadFile in Hrun.
  destruct ((partSize <? MinPartSize) || (MaxPartSize <? partSize)).
  { io_unfold. injection Hrun as _ Ht.
    rewrite <- (app_nil_r t0) in Ht at 1. apply app_inv_head in Ht.
    subst evs. by apply elem_of_nil in Hin. }
  unfold SplitFileByPartSize in Hrun. io_unfold.
  destruct (w_SplitFileByPartSize w t0 filePath partSize) as [chunks|e0] eqn:ES.
  2:{ injection Hrun as _ Ht. apply app_inv_head in Ht. subst evs.
      apply list_elem_of_singleton in Hin. by subst ev. }
  set (ts := t0 ++ [EvSplitFileByPartSize filePath partSize (Ok chunks)]) in *.
  destruct (InitiateMultipartUpload_run w objectKey options ts)
    as (evsI & HtI & HqI).
  destruct (InitiateMultipartUpload w objectKey options ts)
    as [[imur|e1] t1] eqn:EI; simpl in HtI; subst t1.
  2:{ injection Hrun as _ Ht. subst ts. rewrite <- app_assoc in Ht.
      apply app_inv_head in Ht. subst evs.
      rewrite elem_of_app, list_elem_of_singleton in Hin.
      destruct Hin as [->|Hin]; [done|].
      eapply Forall_forall in HqI; [|exact Hin].
      apply quiet_spec in HqI as (? & _). congruence. }
  destruct (UploadFile_loop_run w imur filePath chunks [] (ts ++ evsI))
    as (evsL & HtL & HrL).
  destruct (UploadFile_loop w imur filePath chunks [] (ts ++ evsI))
    as [[parts|e2] t2] eqn:EL; simpl in HtL, HrL; subst t2.
  - (* every transfer succeeded: no event of the run is a failed transfer *)
    exfalso.
    destruct (CompleteMultipartUpload_run w imur parts ((ts ++ evsI) ++ evsL))
      as (evsC & HtC & HqC).
    destruct (CompleteMultipartUpload w imur parts ((ts ++ evsI) ++ evsL))
      as [cerr t3]; simpl in HtC; subst t3.
    assert (Hnone : Forall (fun ev => part_failure ev = None)
                      ([EvSplitFileByPartSize filePath partSize (Ok chunks)]
                       ++ evsI ++ evsL ++ evsC)).
    { apply Forall_app; split; [by repeat constructor|].
      apply Forall_app; split.
      { eapply Forall_impl; [exact HqI|]. intros x Hx.
        by apply quiet_spec in Hx as (? & _). }
      apply Forall_app; split.
      { eapply Forall_impl; [exact HrL|]. intros x Hx.
        by apply quiet_spec in Hx as (? & _). }
      eapply Forall_impl; [exact HqC|]. by intros x [? _]. }
    destruct cerr as [e3|].
    + destruct (AbortMultipartUpload_run w imur
                  (((ts ++ evsI) ++ evsL) ++ evsC)) as (res & Ha).
      destruct (AbortMultipartUpload w imur (((ts ++ evsI) ++ evsL) ++ evsC))
        as [ab t4]; simpl in Ha; subst t4.
      injection Hrun as _ Ht. subst ts. rewrite <- !app_assoc in Ht.
      apply app_inv_head in Ht. subst evs.
      destruct (abort_events_shape imur res) as (_ & _ & Ha3).
      assert (Hin' : ev ∈ [EvSplitFileByPartSize filePath partSize (Ok chunks)]
                           ++ evsI ++ evsL ++ evsC
                     \/ ev ∈ abort_events imur res).
      { apply elem_of_app. by rewrite <- !app_assoc. }
      destruct Hin' as [Hin'|Hin'].
      * eapply Forall_forall in Hnone; [|exact Hin']. congruence.
      * eapply Forall_forall in Ha3; [|exact Hin']. congruence.
    + injection Hrun as _ Ht. subst ts. rewrite <- !app_assoc in Ht.
      apply app_inv_head in Ht. subst evs.
      eapply Forall_forall in Hnone; [|exact Hin]. congruence.
  - (* a transfer failed inside the loop *)
    destruct HrL as (before & ev1 & closes & res & -> & Hb & Hf & Hc).
    injection Hrun as Hr Ht. subst ts.
    assert (Hpre : Forall (fun ev => quiet ev = true)
                     ([EvSplitFileByPartSize filePath partSize (Ok chunks)]
                      ++ evsI)).
    { apply Forall_app; split; [by repeat constructor|done]. }
    remember ([EvSplitFileByPartSize filePath partSize (Ok chunks)] ++ evsI)
      as pre eqn:Epre.
    assert (Hevs : evs = pre ++ before ++ ev1 :: closes ++ abort_events imur res).
    { rewrite <- !app_assoc in Ht. apply app_inv_head in Ht.
      rewrite <- Ht, Epre. by rewrite <- !app_assoc. }
    clear Ht. subst evs.
    destruct (failed_run_shape imur before ev1 closes res e2 Hb Hf Hc)
      as (Hcount & Hnc & Hone).
    assert (Hev : ev = ev1 /\ err = e2).
    { apply elem_of_app in Hin. destruct Hin as [Hin'|Hin'].
      - eapply Forall_forall in Hpre; [|exact Hin'].
        apply quiet_spec in Hpre as (? & _). congruence.
      - pose proof (Hone ev err Hin' Hfail) as ->. split; [|done].
        rewrite elem_of_app, elem_of_cons, elem_of_app in Hin'.
        destruct (abort_events_shape imur res) as (_ & _ & Ha3).
        destruct Hin' as [Hin'|[->|[Hin'|Hin']]]; [|done| |].
        + eapply Forall_forall in Hb; [|exact Hin'].
          apply quiet_spec in Hb as (? & _). congruence.
        + eapply Forall_forall in Hc; [|exact Hin'].
          apply is_close_spec in Hc as (? & _). congruence.
        + eapply Forall_forall in Ha3; [|exact Hin']. congruence. }
    destruct Hev as [-> ->]. split; [done|]. split; [|split].
    + rewrite filter_app, length_app, filter_is_abort_none; [exact Hcount|].
      eapply Forall_impl; [exact Hpre|]. intros x Hx.
      by apply quiet_spec in Hx as (_ & ? & _).
    + apply Forall_app; split; [|done].
      eapply Forall_impl; [exact Hpre|]. intros x Hx.
      by apply quiet_spec in Hx as (_ & _ & ?).
    + exists chunks, imur,
        ((t0 ++ [EvSplitFileByPartSize filePath partSize (Ok chunks)]) ++ evsI),
        before, closes, res.
      split; [done|]. split; [exact EI|].
      split; [by rewrite Epre, <- !app_assoc|done].
Qed.

(** C2. When every part transfer succeeded and [CompleteMultipartUpload]
    fails, [UploadFile] issues the Abort request on the session handle right
    after it and returns the finalization error, whatever the Abort request
    answers. *)
Theorem UploadFile_complete_failure_aborts
    w objectKey filePath partSize options t0 chunks imur t1 parts t2 err t3 :
  MinPartSize <= partSize <= MaxPartSize ->
  w_SplitFileByPartSize w t0 filePath partSize = Ok chunks ->
  InitiateMultipartUpload w objectKey options
    (t0 ++ [EvSplitFileByPartSize filePath partSize (Ok chunks)])
  = (Ok imur, t1) ->
  UploadFile_loop w imur filePath chunks [] t1 = (Ok parts, t2) ->
  CompleteMultipartUpload w imur parts t2 = (Some err, t3) ->
  exists res,
    UploadFile w objectKey filePath partSize options t0
    = (Some err, t3 ++ abort_events imur res)
    /\ res = w_do w t3 "DELETE" (Key imur) ("uploadId=" +:+ UploadID imur)
               ("uploadId=" +:+ UploadID imur) [] NoBody.
Proof.
  intros [Hlo Hhi] HS HI HL HC. unfold UploadFile.
  replace ((partSize <? MinPartSize) || (MaxPartSize <? partSize)) with false
    by (symmetry; apply orb_false_intro; lia).
  unfold SplitFileByPartSize. io_unfold. rewrite HS, HI, HL, HC.
  eexists. split; [|reflexivity].
  unfold AbortMultipartUpload, bucket_do, abort_events, abort_request.
  io_unfold.
  destruct (w_do w t3 "DELETE" (Key imur) _ _ [] NoBody); simpl.
  - by rewrite <- app_assoc.
  - done.
Qed.

(** C5. A part size below [MinPartSize] or above [MaxPartSize] makes
    [UploadFile] return its configuration error with the trace untouched: no
    plan, no session, no transfer, no Complete and no Abort. *)
Theorem UploadFile_invalid_partSize w objectKey filePath partSize options t0 :
  partSize < MinPartSize \/ MaxPartSize < partSize ->
  UploadFile w objectKey filePath partSize options t0
  = (Some "oss: part size invalid range (1024KB, 5GB]"%string, t0).
Proof.
  intros H. unfold UploadFile.
  replace ((partSize <? MinPartSize) || (MaxPartSize <? partSize)) with true;
    [done|].
  symmetry. apply orb_true_iff. lia.
Qed.

(** The upload abort scenario: the transfer of part 2 fails and so does the
    Abort request; the caller gets the transfer's error. *)
Lemma UploadFile_part_failure_aborts_witness :
  upload_abort_run.1 = Some "part transfer failed"%string
  /\ length (filter (fun ev => is_abort ev = true) upload_abort_run.2) = 1%nat
  /\ Forall (fun ev => is_complete ev = false) upload_abort_run.2.
Proof.
  pose proof (UploadFile_part_failure_aborts upload_abort_world
                "object" "file" MinPartSize [] []
                upload_abort_run.1 upload_abort_run.2
                (EvDo "PUT" "object" "partNumber=2&uploadId=upload-1"
                   "partNumber=2&uploadId=upload-1" []
                   (LimitedReader "file" 102400 102400)
                   (Err "part transfer failed"))
                "part transfer failed") as H.
  destruct H as (H1 & H2 & H3 & _).
  - vm_compute. reflexivity.
  - vm_compute. do 8 apply list_elem_of_further. apply list_elem_of_here.
  - reflexivity.
  - exact (conj H1 (conj H2 H3)).
Defined.

Lemma UploadFile_complete_failure_aborts_witness :
  exists t,
    UploadFile complete_failure_world "object" "file" MinPartSize [] []
    = (Some "complete failed"%string,
       t ++ abort_events scenario_imur (Err "abort failed")).
Proof.
  pose (w := complete_failure_world).
  pose (ts := [EvSplitFileByPartSize "file" MinPartSize
                 (w_SplitFileByPartSize w [] "file" MinPartSize)]).
  pose (t1 := (InitiateMultipartUpload w "object" [] ts).2).
  pose (chunks := [mkFileChunk 1 0 MinPartSize;
                   mkFileChunk 2 MinPartSize MinPartSize;
                   mkFileChunk 3 (2 * MinPartSize) (MinPartSize / 2)]).
  pose (r2 := UploadFile_loop w scenario_imur "file" chunks [] t1).
  pose (parts := match r2.1 with Ok ps => ps | Err _ => [] end).
  pose (t3 := (CompleteMultipartUpload w scenario_imur parts r2.2).2).
  destruct (UploadFile_complete_failure_aborts w "object" "file" MinPartSize
              [] [] chunks scenario_imur t1 parts r2.2 "complete failed" t3)
    as (res & Hrun & Hres).
  - vm_compute. split; discriminate.
  - reflexivity.
  - vm_compute. reflexivity.
  - vm_compute. reflexivity.
  - vm_compute. reflexivity.
  - exists t3. subst w. rewrite Hrun, Hres. reflexivity.
Defined.

Lemma UploadFile_invalid_partSize_witness :
  UploadFile upload_abort_world "object" "file" (MinPartSize - 1) [] []
  = (Some "oss: part size invalid range (1024KB, 5GB]"%string, []).
Proof.
  apply (UploadFile_invalid_partSize upload_abort_world "object" "file"
           (MinPartSize - 1) [] []).
  left. unfold MinPartSize. lia.
Defined.

(** ** [DownloadFile] *)

Lemma request_options_snoc options objectSize partSize n :
  (options ++ map (loop_range objectSize partSize) (seq 0 n))
  ++ [loop_range objectSize partSize n]
  = request_options options objectSize partSize n.
Proof.
  unfold request_options.
  replace (S n) with (n + 1)%nat by lia.
  by rewrite seq_app, map_app, <- app_assoc.
Qed.

(** How the tail of a trace looks when the loop stops in iteration [k] with
    error [err]: the ranged read failed, or it delivered a stream whose copy
    failed after some bytes. *)
Definition failed_iteration (objectKey filePath : string)
    (options : list Option) (err : error) (tail : list Event) : Prop :=
  tail = [EvGetObject objectKey options (Err err)]
  \/ exists data m,
       tail = [EvGetObject objectKey options (Ok data);
               EvCopyBuffer filePath (take m data) (Some err)].

(** The loop, started at iteration [n], completes iterations
    [n .. n + length items - 1], each with the request options accumulated so
    far, and then leaves the loop, fails in the next iteration, or has no
    fuel left. *)
Lemma DownloadFile_loop_run w objectKey filePath objectSize partSize options :
  forall fuel n deferred t,
  exists items tail,
    (DownloadFile_loop w fuel objectKey filePath objectSize partSize
       (loop_start partSize n)
       (options ++ map (loop_range objectSize partSize) (seq 0 n))
       deferred t).2
    = t ++ mjoin (map (chunk_events objectKey filePath) items) ++ tail
    /\ map fst items
       = map (request_options options objectSize partSize)
           (seq n (length items))
    /\ Forall (fun k => loop_start partSize k < objectSize)
         (seq n (length items))
    /\ match (DownloadFile_loop w fuel objectKey filePath objectSize partSize
                (loop_start partSize n)
                (options ++ map (loop_range objectSize partSize) (seq 0 n))
                deferred t).1.1 with
       | Returned None =>
           tail = []
           /\ objectSize <= loop_start partSize (n + length items)
       | Returned (Some err) =>
           loop_start partSize (n + length items) < objectSize
           /\ failed_iteration objectKey filePath
                (request_options options objectSize partSize
                   (n + length items)) err tail
       | OutOfFuel =>
           tail = [] /\ length items = fuel
           /\ loop_start partSize (n + length items) < objectSize
       end.
Proof.
  induction fuel as [|fuel IH]; intros n deferred t.
  - exists [], []. simpl. rewrite Nat.add_0_r.
    destruct (Z.ltb_spec (loop_start partSize n) objectSize); simpl;
      rewrite app_nil_r; repeat split; try done; constructor.
  - simpl DownloadFile_loop.
    destruct (Z.ltb_spec (loop_start partSize n) objectSize) as [Hlt|Hge].
    2:{ exists [], []. simpl. rewrite Nat.add_0_r, app_nil_r.
        repeat split; try done; constructor. }
    rewrite request_options_snoc.
    set (opts := request_options options objectSize partSize n).
    unfold GetObject, io_CopyBuffer. io_unfold.
    destruct (w_GetObject w t objectKey opts) as [data|err] eqn:EG; simpl.
    2:{ exists [], [EvGetObject objectKey opts (Err err)]. simpl.
        split; [done|]. split; [done|]. split; [constructor|].
        rewrite Nat.add_0_r. split; [done|]. by left. }
    destruct (w_CopyBuffer_fails w (t ++ [EvGetObject objectKey opts (Ok data)])
                data) as [[m err]|] eqn:EC; simpl.
    { exists [], [EvGetObject objectKey opts (Ok data);
                  EvCopyBuffer filePath (take m data) (Some err)]. simpl.
      rewrite <- app_assoc.
      split; [done|]. split; [done|]. split; [constructor|].
      rewrite Nat.add_0_r. split; [done|]. right. by exists data, m. }
    change (int64 (loop_start partSize n + partSize))
      with (loop_start partSize (S n)).
    destruct (IH (S n) (ResReader objectKey opts :: deferred)
                ((t ++ [EvGetObject objectKey opts (Ok data)])
                 ++ [EvCopyBuffer filePath data None]))
      as (items & tail & Ht & Hopts & Hlts & Hout).
    change (options ++ map (loop_range objectSize partSize) (seq 0 (S n)))
      with opts in Ht, Hout.
    exists ((opts, data) :: items), tail.
    split; [|split; [|split]].
    + rewrite Ht. simpl. by rewrite <- !app_assoc.
    + simpl. by rewrite Hopts.
    + simpl. by constructor.
    + simpl length. replace (n + S (length items))%nat
        with (S n + length items)%nat by lia.
      destruct (DownloadFile_loop w fuel objectKey filePath objectSize partSize
                  (loop_start partSize (S n)) _ _ _).1.1 as [|[err|]];
        try done.
      destruct Hout as (? & ? & ?). repeat split; try done. lia.
Qed.

Lemma run_deferred_run rs : forall t,
  run_deferred rs t = (tt, t ++ map EvClose rs).
Proof.
  induction rs as [|r rs IH]; intros t; simpl.
  - by rewrite app_nil_r.
  - io_unfold. rewrite IH. by rewrite <- app_assoc.
Qed.

(** The events of a [DownloadFile] run whose part size is valid, whose
    metadata probe answered [meta] and whose file opened: the probe and the
    open, the completed iterations, the failed iteration if there is one, and
    the deferred closes. *)
Lemma DownloadFile_run w fuel objectKey filePath partSize options t0 meta :
  1 <= partSize <= MaxPartSize ->
  w_GetObjectDetailedMeta w t0 objectKey = Ok meta ->
  w_OpenFile w (t0 ++ [EvGetObjectDetailedMeta objectKey (Ok meta)]) filePath
  = None ->
  let objectSize := (ParseInt (Get meta HTTPHeaderContentLength)).1 in
  let run := DownloadFile w fuel objectKey filePath partSize options t0 in
  exists items tail closes,
    run.2 = t0 ++ [EvGetObjectDetailedMeta objectKey (Ok meta);
                   EvOpenFile filePath None]
               ++ mjoin (map (chunk_events objectKey filePath) items)
               ++ tail ++ closes
    /\ Forall (fun ev => is_close ev = true) closes
    /\ map fst items
       = map (request_options options objectSize partSize)
           (seq 0 (length items))
    /\ Forall (fun k => loop_start partSize k < objectSize)
         (seq 0 (length items))
    /\ match run.1 with
       | Returned None =>
           tail = [] /\ objectSize <= loop_start partSize (length items)
       | Returned (Some err) =>
           loop_start partSize (length items) < objectSize
           /\ failed_iteration objectKey filePath
                (request_options options objectSize partSize (length items))
                err tail
       | OutOfFuel =>
           tail = [] /\ length items = fuel
           /\ loop_start partSize (length items) < objectSize
       end.
Proof.
  intros [Hlo Hhi] Hmeta Hopen objectSize run. subst run.
  unfold DownloadFile.
  replace ((partSize <? 1) || (MaxPartSize <? partSize)) with false
    by (symmetry; apply orb_false_intro; lia).
  unfold GetObjectDetailedMeta, os_OpenFile. io_unfold.
  rewrite Hmeta, Hopen. fold objectSize.
  set (t1 := (t0 ++ [EvGetObjectDetailedMeta objectKey (Ok meta)])
             ++ [EvOpenFile filePath None]).
  destruct (DownloadFile_loop_run w objectKey filePath objectSize partSize
              options fuel 0 [ResFile filePath] t1)
    as (items & tail & Ht & Hopts & Hlts & Hout).
  simpl in Ht, Hout. rewrite app_nil_r in Ht, Hout.
  destruct (DownloadFile_loop w fuel objectKey filePath objectSize partSize 0
              options [ResFile filePath] t1) as [[out deferred] t2].
  simpl in Ht, Hout. subst t2.
  assert (Et1 : forall l,
             t1 ++ l = t0 ++ [EvGetObjectDetailedMeta objectKey (Ok meta);
                              EvOpenFile filePath None] ++ l).
  { intros l. unfold t1. by rewrite <- !app_assoc. }
  destruct out as [|err].
  - exists items, tail, []. simpl. rewrite Et1, !app_nil_r.
    destruct Hout as (-> & ? & ?). rewrite app_nil_r. by repeat split.
  - rewrite run_deferred_run. exists items, tail, (map EvClose deferred).
    simpl. rewrite <- app_assoc, Et1, <- !app_assoc.
    repeat split; try done.
    apply Forall_forall. intros ev (r & -> & _)%list_elem_of_fmap. done.
Qed.

(** A run only appends to the trace. *)
Lemma DownloadFile_trace_extends w fuel objectKey filePath partSize options t0 :
  exists evs,
    (DownloadFile w fuel objectKey filePath partSize options t0).2 = t0 ++ evs.
Proof.
  destruct (decide (1 <= partSize <= MaxPartSize)) as [Hvalid|Hinvalid].
  - destruct (w_GetObjectDetailedMeta w t0 objectKey) as [meta|e] eqn:Hmeta.
    + destruct (w_OpenFile w
                  (t0 ++ [EvGetObjectDetailedMeta objectKey (Ok meta)])
                  filePath) as [e|] eqn:Hopen.
      * unfold DownloadFile.
        replace ((partSize <? 1) || (MaxPartSize <? partSize)) with false
          by (symmetry; apply orb_false_intro; lia).
        unfold GetObjectDetailedMeta, os_OpenFile. io_unfold.
        rewrite Hmeta, Hopen. eexists. by rewrite <- app_assoc.
      * destruct (DownloadFile_run w fuel objectKey filePath partSize options
                    t0 meta Hvalid Hmeta Hopen)
          as (items & tail & closes & Ht & _).
        by eexists.
    + unfold DownloadFile.
      replace ((partSize <? 1) || (MaxPartSize <? partSize)) with false
        by (symmetry; apply orb_false_intro; lia).
      unfold GetObjectDetailedMeta. io_unfold. rewrite Hmeta. by eexists.
  - unfold DownloadFile.
    replace ((partSize <? 1) || (MaxPartSize <? partSize)) with true.
    + exists []. by rewrite app_nil_r.
    + symmetry. apply orb_true_iff. lia.
Qed.

(** C6. A chunk size below 1 or above [MaxPartSize] makes [DownloadFile]
    return its configuration error with the trace untouched: no metadata
    probe, no file opened, no ranged read. *)
Theorem DownloadFile_invalid_partSize
    w fuel objectKey filePath partSize options t0 :
  partSize < 1 \/ MaxPartSize < partSize ->
  DownloadFile w fuel objectKey filePath partSize options t0
  = (Returned (Some "oss: part size invalid range (1, 5GB]"%string), t0).
Proof.
  intros H. unfold DownloadFile.
  replace ((partSize <? 1) || (MaxPartSize <? partSize)) with true; [done|].
  symmetry. apply orb_true_iff. lia.
Qed.

Lemma DownloadFile_invalid_partSize_witness :
  DownloadFile download_world 3 "object" "file" 0 [] []
  = (Returned (Some "oss: part size invalid range (1, 5GB]"%string), []).
Proof.
  apply (DownloadFile_invalid_partSize download_world 3 "object" "file" 0 [] []).
  left. lia.
Defined.

(** A run that issues a ranged read or a copy had a valid part size, an
    answered metadata probe and an opened file. *)
Lemma DownloadFile_reaches_loop
    w fuel objectKey filePath partSize options t0 evs ev :
  (DownloadFile w fuel objectKey filePath partSize options t0).2 = t0 ++ evs ->
  ev ∈ evs -> is_transfer ev = true ->
  1 <= partSize <= MaxPartSize
  /\ exists meta,
       w_GetObjectDetailedMeta w t0 objectKey = Ok meta
       /\ w_OpenFile w (t0 ++ [EvGetObjectDetailedMeta objectKey (Ok meta)])
            filePath = None.
Proof.
  unfold DownloadFile. intros Hrun Hin Htr.
  destruct ((partSize <? 1) || (MaxPartSize <? partSize)) eqn:Eb.
  { exfalso. io_unfold. rewrite <- (app_nil_r t0) in Hrun at 1.
    apply app_inv_head in Hrun. subst evs. by apply elem_of_nil in Hin. }
  apply orb_false_elim in Eb as [?%Z.ltb_ge ?%Z.ltb_ge]. split; [lia|].
  unfold GetObjectDetailedMeta, os_OpenFile in Hrun. io_unfold.
  destruct (w_GetObjectDetailedMeta w t0 objectKey) as [meta|e] eqn:Em.
  2:{ exfalso. simpl in Hrun. apply app_inv_head in Hrun. subst evs.
      apply list_elem_of_singleton in Hin. by subst ev. }
  exists meta. split; [done|].
  destruct (w_OpenFile w _ filePath) as [e|] eqn:Eo; [|done].
  exfalso. simpl in Hrun. rewrite <- app_assoc in Hrun.
  apply app_inv_head in Hrun. subst evs. simpl in Hin.
  rewrite !elem_of_cons in Hin.
  destruct Hin as [->|[->|Hin]]; [done|done|by apply elem_of_nil in Hin].
Qed.

Lemma ranged_reads_app t1 t2 :
  ranged_reads (t1 ++ t2) = ranged_reads t1 ++ ranged_reads t2.
Proof. apply omap_app. Qed.

Lemma sink_bytes_app t1 t2 :
  sink_bytes (t1 ++ t2) = sink_bytes t1 ++ sink_bytes t2.
Proof. unfold sink_bytes. by rewrite omap_app, join_app. Qed.

Lemma ranged_reads_chunks objectKey filePath items :
  ranged_reads (mjoin (map (chunk_events objectKey filePath) items))
  = map fst items.
Proof. induction items as [|[opts data] items IH]; simpl; [done|by f_equal]. Qed.

Lemma sink_bytes_chunks objectKey filePath items :
  sink_bytes (mjoin (map (chunk_events objectKey filePath) items))
  = mjoin (map snd items).
Proof.
  induction items as [|[opts data] items IH]; [done|].
  change (sink_bytes (chunk_events objectKey filePath (opts, data)
                      ++ mjoin (map (chunk_events objectKey filePath) items))
          = data ++ mjoin (map snd items)).
  rewrite sink_bytes_app, IH. unfold sink_bytes at 1. simpl.
  by rewrite app_nil_r.
Qed.

Lemma closes_silent closes :
  Forall (fun ev => is_close ev = true) closes ->
  ranged_reads closes = [] /\ sink_bytes closes = []
  /\ Forall (fun ev => download_failure ev = None) closes.
Proof.
  induction 1 as [|ev closes Hev _ (IH1 & IH2 & IH3)]; [done|].
  destruct ev; try done. unfold ranged_reads, sink_bytes in *. simpl.
  by repeat split; [..|constructor].
Qed.

Lemma failed_iteration_reads objectKey filePath opts err tail :
  failed_iteration objectKey filePath opts err tail ->
  ranged_reads tail = [opts]
  /\ exists ev, last tail = Some ev /\ download_failure ev = Some err.
Proof.
  intros [->|(data & m & ->)]; (split; [done|]); eexists; by split.
Qed.

Lemma ranges_of_loop_ranges objectSize partSize (l : list nat) :
  ranges_of (map (loop_range objectSize partSize) l)
  = map (fun n => (loop_start partSize n,
                   GetPartEnd (loop_start partSize n) objectSize partSize)) l.
Proof. induction l as [|n l IH]; [done|]. simpl. by f_equal. Qed.

Lemma ranges_of_app o1 o2 : ranges_of (o1 ++ o2) = ranges_of o1 ++ ranges_of o2.
Proof. apply omap_app. Qed.

(** C10. Every ranged read of a [DownloadFile] run carries the caller's
    options followed by the [Range] options of all iterations so far: the
    request of iteration [k] (counted from 0) has [k + 1] [Range] options
    after the caller's, the last one its own. *)
Theorem DownloadFile_ranges_accumulate
    w fuel objectKey filePath partSize options t0 evs k opts :
  (DownloadFile w fuel objectKey filePath partSize options t0).2 = t0 ++ evs ->
  ranged_reads evs !! k = Some opts ->
  exists meta,
    w_GetObjectDetailedMeta w t0 objectKey = Ok meta
    /\ let objectSize := (ParseInt (Get meta HTTPHeaderContentLength)).1 in
       opts = options
              ++ map (loop_range objectSize partSize) (seq 0 (S k))
       /\ length (ranges_of opts)
          = (length (ranges_of options) + S k)%nat
       /\ requested_range opts = Some (loop_start partSize k,
            GetPartEnd (loop_start partSize k) objectSize partSize).
Proof.
  intros Hrun Hk.
  assert (Hex : exists ev, ev ∈ evs /\ is_transfer ev = true).
  { apply list_elem_of_lookup_2 in Hk.
    apply list_elem_of_omap in Hk as (ev & Hin & Hev).
    exists ev. split; [done|]. by destruct ev. }
  destruct Hex as (ev & Hin & Htr).
  destruct (DownloadFile_reaches_loop _ _ _ _ _ _ _ _ _ Hrun Hin Htr)
    as (Hvalid & meta & Hmeta & Hopen).
  exists meta. split; [done|]. intros objectSize.
  destruct (DownloadFile_run w fuel objectKey filePath partSize options t0 meta
              Hvalid Hmeta Hopen)
    as (items & tail & closes & Ht & Hcl & Hopts & _ & Hout).
  fold objectSize in Ht, Hopts, Hout.
  rewrite Hrun in Ht. apply app_inv_head in Ht. subst evs.
  assert (Hreads : exists m,
             ranged_reads
               ([EvGetObjectDetailedMeta objectKey (Ok meta);
                 EvOpenFile filePath None]
                ++ mjoin (map (chunk_events objectKey filePath) items)
                ++ tail ++ closes)
             = map (request_options options objectSize partSize) (seq 0 m)).
  { rewrite !ranged_reads_app, ranged_reads_chunks, Hopts.
    destruct (closes_silent closes Hcl) as (-> & _). rewrite app_nil_r.
    change (ranged_reads [_; _]) with (@nil (list Option)). simpl app.
    destruct (DownloadFile w fuel objectKey filePath partSize options t0).1
      as [|[err|]].
    - destruct Hout as (-> & _). exists (length items). by rewrite app_nil_r.
    - destruct Hout as (_ & Hf).
      apply failed_iteration_reads in Hf as (-> & _).
      exists (length items + 1)%nat. by rewrite seq_app, map_app.
    - destruct Hout as (-> & _). exists (length items). by rewrite app_nil_r. }
  destruct Hreads as (m & Hreads). rewrite Hreads in Hk.
  rewrite list_lookup_fmap in Hk.
  destruct (seq 0 m !! k) as [k'|] eqn:Ek; [|done].
  apply lookup_seq in Ek as [-> _]. simpl in Hk. injection Hk as <-.
  unfold request_options. split; [done|].
  split.
  - rewrite ranges_of_app, length_app, ranges_of_loop_ranges.
    by rewrite length_map, length_seq.
  - unfold requested_range. rewrite ranges_of_app, ranges_of_loop_ranges.
    replace (S k) with (k + 1)%nat by lia.
    rewrite seq_app, map_app, app_assoc. simpl. by rewrite last_snoc.
Qed.

Lemma DownloadFile_ranges_accumulate_witness :
  ranged_reads download_run.2 !! 2%nat
  = Some [Range 0 99; Range 100 199; Range 200 249]
  /\ length (ranges_of [Range 0 99; Range 100 199; Range 200 249]) = 3%nat.
Proof.
  split; [reflexivity|].
  destruct (DownloadFile_ranges_accumulate download_world 3 "object" "file"
              100 [] [] download_run.2 2
              [Range 0 99; Range 100 199; Range 200 249])
    as (meta & _ & _ & Hlen & _).
  - vm_compute. reflexivity.
  - reflexivity.
  - exact Hlen.
Defined.

Lemma chunk_events_no_failure objectKey filePath items :
  Forall (fun ev => download_failure ev = None)
    (mjoin (map (chunk_events objectKey filePath) items)).
Proof.
  induction items as [|item items IH]; [constructor|].
  simpl. by repeat constructor.
Qed.

(** C8. When a ranged read of a [DownloadFile] run, or the copy of its
    stream, fails, the run returns that error; the failed event is the last
    one before the deferred closes, so no further range is requested and
    nothing touches the file again; and the file holds the complete streams
    of the iterations before it, followed only by what the failed copy had
    written. *)
Theorem DownloadFile_failure_stops
    w fuel objectKey filePath partSize options t0 out evs ev err :
  DownloadFile w fuel objectKey filePath partSize options t0
  = (out, t0 ++ evs) ->
  ev ∈ evs ->
  download_failure ev = Some err ->
  out = Returned (Some err)
  /\ exists meta items tail closes partial,
       evs = [EvGetObjectDetailedMeta objectKey (Ok meta);
              EvOpenFile filePath None]
             ++ mjoin (map (chunk_events objectKey filePath) items)
             ++ tail ++ closes
       /\ last tail = Some ev
       /\ Forall (fun ev => is_close ev = true) closes
       /\ length (ranged_reads evs) = S (length items)
       /\ sink_bytes evs = mjoin (map snd items) ++ partial
       /\ (tail = [ev] /\ partial = []
           \/ exists opts data m,
                tail = [EvGetObject objectKey opts (Ok data); ev]
                /\ partial = take m data).
Proof.
  intros Hrun Hin Hfail.
  assert (Htr : is_transfer ev = true) by (by destruct ev as [| | | | |? ? []| |]).
  pose proof (f_equal snd Hrun) as Hrun2. simpl in Hrun2.
  destruct (DownloadFile_reaches_loop _ _ _ _ _ _ _ _ _ Hrun2 Hin Htr)
    as (Hvalid & meta & Hmeta & Hopen).
  destruct (DownloadFile_run w fuel objectKey filePath partSize options t0 meta
              Hvalid Hmeta Hopen)
    as (items & tail & closes & Ht & Hcl & Hopts & _ & Hout).
  rewrite Hrun in Ht, Hout. simpl in Ht, Hout.
  apply app_inv_head in Ht. subst evs.
  destruct (closes_silent closes Hcl) as (Hcr & Hcs & Hcf).
  pose proof (chunk_events_no_failure objectKey filePath items) as Hitems.
  assert (Hin' : ev ∈ tail).
  { simpl in Hin. rewrite !elem_of_cons, !elem_of_app in Hin.
    destruct Hin as [->|[->|[Hin|[Hin|Hin]]]]; [done|done|..].
    - eapply Forall_forall in Hitems; [|exact Hin]. congruence.
    - done.
    - eapply Forall_forall in Hcf; [|exact Hin]. congruence. }
  destruct out as [|[e'|]].
  - destruct Hout as (-> & _). by apply elem_of_nil in Hin'.
  - destruct Hout as (_ & Hf).
    assert (Hshape : err = e'
              /\ last tail = Some ev
              /\ exists partial,
                   sink_bytes tail = partial
                   /\ ranged_reads tail
                      = [request_options options
                           (ParseInt (Get meta HTTPHeaderContentLength)).1
                           partSize (length items)]
                   /\ (tail = [ev] /\ partial = []
                       \/ exists opts data m,
                            tail = [EvGetObject objectKey opts (Ok data); ev]
                            /\ partial = take m data)).
    { destruct Hf as [->|(data & m & ->)].
      - apply list_elem_of_singleton in Hin'. subst ev.
        injection Hfail as <-. split; [done|]. split; [done|].
        exists []. repeat split. by left.
      - rewrite !elem_of_cons in Hin'.
        destruct Hin' as [->|[->|Hin']];
          [done| |by apply elem_of_nil in Hin'].
        injection Hfail as <-. split; [done|]. split; [done|].
        exists (take m data). split; [|split; [done|]].
        + unfold sink_bytes. simpl. by rewrite app_nil_r.
        + right. by eexists _, data, m. }
    destruct Hshape as (-> & Hlast & partial & Hsink & Hreads & Hcases).
    split; [done|].
    exists meta, items, tail, closes, partial.
    split; [done|]. split; [done|]. split; [done|]. split; [|split; [|done]].
    + change (ranged_reads (_ :: _ :: ?l)) with (ranged_reads l).
      rewrite !ranged_reads_app, ranged_reads_chunks, Hcr, Hreads.
      rewrite length_app, length_map. simpl. lia.
    + change (sink_bytes (_ :: _ :: ?l)) with (sink_bytes l).
      rewrite !sink_bytes_app, sink_bytes_chunks, Hcs, Hsink.
      by rewrite app_nil_r.
  - destruct Hout as (-> & _). by apply elem_of_nil in Hin'.
Qed.

(** The failure scenario: the second ranged read fails; the run returns the
    read error, two reads were issued, and the file holds the 100 bytes of
    the first range. *)
Lemma DownloadFile_failure_stops_witness :
  download_failure_run.1 = Returned (Some "read failed"%string)
  /\ length (ranged_reads download_failure_run.2) = 2%nat
  /\ length (sink_bytes download_failure_run.2) = 100%nat.
Proof.
  destruct (DownloadFile_failure_stops download_failure_world 3 "object"
              "file" 100 [] [] download_failure_run.1 download_failure_run.2
              (EvGetObject "object" [Range 0 99; Range 100 199]
                 (Err "read failed")) "read failed")
    as (Hout & _).
  - vm_compute. reflexivity.
  - vm_compute. do 4 apply list_elem_of_further. apply list_elem_of_here.
  - reflexivity.
  - split; [exact Hout|]. split; vm_compute; reflexivity.
Defined.

(** [ParseInt] returns 0 with a syntax error, and a bound of [int64] with a
    range error. *)
Lemma ParseInt_error s err :
  (ParseInt s).2 = Some err ->
  err = ErrSyntax /\ (ParseInt s).1 = 0
  \/ err = ErrRange
     /\ ((ParseInt s).1 = 2 ^ 63 - 1 \/ (ParseInt s).1 = - 2 ^ 63).
Proof.
  unfold ParseInt. destruct s as [|c s]; simpl.
  { intros [= <-]. by left. }
  destruct (ParseUint _) as [un uerr].
  destruct (bool_decide (uerr = Some ErrSyntax)) eqn:E1.
  { apply bool_decide_eq_true in E1 as ->. simpl. intros [= <-]. by left. }
  destruct (negb _ && (2 ^ 63 <=? un)) eqn:E2.
  { simpl. intros [= <-]. right. split; [done|by left]. }
  destruct (bool_decide (c = "-"%char) && (2 ^ 63 <? un)) eqn:E3.
  { simpl. intros [= <-]. right. split; [done|by right]. }
  simpl. discriminate.
Qed.

(** C9 (amended). When the metadata probe answers, the file opens and the
    [Content-Length] value is no decimal integer ([ParseInt] reports a
    syntax error), the error is ignored and the object size is 0: for any
    fuel the loop runs no iteration and [DownloadFile] returns [nil]; the run
    consists of the probe, the open and the deferred close of the file, with
    no ranged read and nothing written. *)
Theorem DownloadFile_unparsable_length
    w fuel objectKey filePath partSize options t0 meta :
  1 <= partSize <= MaxPartSize ->
  w_GetObjectDetailedMeta w t0 objectKey = Ok meta ->
  w_OpenFile w (t0 ++ [EvGetObjectDetailedMeta objectKey (Ok meta)]) filePath
  = None ->
  (ParseInt (Get meta HTTPHeaderContentLength)).2 = Some ErrSyntax ->
  (ParseInt (Get meta HTTPHeaderContentLength)).1 = 0
  /\ DownloadFile w fuel objectKey filePath partSize options t0
     = (Returned None,
        t0 ++ [EvGetObjectDetailedMeta objectKey (Ok meta);
               EvOpenFile filePath None; EvClose (ResFile filePath)])
  /\ ranged_reads [EvGetObjectDetailedMeta objectKey (Ok meta);
                   EvOpenFile filePath None; EvClose (ResFile filePath)] = []
  /\ sink_bytes [EvGetObjectDetailedMeta objectKey (Ok meta);
                 EvOpenFile filePath None; EvClose (ResFile filePath)] = [].
Proof.
  intros [Hlo Hhi] Hmeta Hopen Herr.
  assert (Hsize : (ParseInt (Get meta HTTPHeaderContentLength)).1 = 0).
  { destruct (ParseInt_error _ _ Herr) as [[_ H]|[H _]]; [done|discriminate]. }
  split; [done|]. split; [|done].
  unfold DownloadFile.
  replace ((partSize <? 1) || (MaxPartSize <? partSize)) with false
    by (symmetry; apply orb_false_intro; lia).
  unfold GetObjectDetailedMeta, os_OpenFile. io_unfold.
  rewrite Hmeta, Hopen, Hsize.
  destruct fuel; simpl; by rewrite <- !app_assoc.
Qed.

Lemma DownloadFile_unparsable_length_witness :
  DownloadFile bad_length_world 0 "object" "file" 100 [] []
  = (Returned None,
     [EvGetObjectDetailedMeta "object"
        (Ok {[ HTTPHeaderContentLength := "12a"%string ]});
      EvOpenFile "file" None; EvClose (ResFile "file")]).
Proof.
  destruct (DownloadFile_unparsable_length bad_length_world 0 "object" "file"
              100 [] [] {[ HTTPHeaderContentLength := "12a"%string ]})
    as (_ & Hrun & _).
  - vm_compute. split; discriminate.
  - reflexivity.
  - reflexivity.
  - vm_compute. reflexivity.
  - exact Hrun.
Defined.

(** C9 as stated fails in two ways.  For a value that [ParseInt] rejects as
    out of range the error is ignored just the same, but the size is then the
    largest [int64]: the loop runs and the first ranged read is issued (and
    when that read fails the run returns its error).  And whatever the value,
    the run returns an error when the local file cannot be opened. *)
Lemma DownloadFile_unparsable_length_counterexample :
  ((ParseInt "9223372036854775808").2 = Some ErrRange
   /\ (ParseInt "9223372036854775808").1 = 2 ^ 63 - 1
   /\ DownloadFile huge_length_world 1 "object" "file" 100 [] []
      = (Returned (Some "read failed"%string),
         [EvGetObjectDetailedMeta "object"
            (Ok {[ HTTPHeaderContentLength := "9223372036854775808"%string ]});
          EvOpenFile "file" None;
          EvGetObject "object" [Range 0 99] (Err "read failed");
          EvClose (ResFile "file")]))
  /\ ((ParseInt "12a").2 = Some ErrSyntax
      /\ DownloadFile unwritable_file_world 1 "object" "file" 100 [] []
         = (Returned (Some "permission denied"%string),
            [EvGetObjectDetailedMeta "object"
               (Ok {[ HTTPHeaderContentLength := "12a"%string ]});
             EvOpenFile "file" (Some "permission denied"%string)])).
Proof. repeat split; vm_compute; reflexivity. Qed.

Lemma requested_range_request_options options objectSize partSize k :
  requested_range (request_options options objectSize partSize k)
  = Some (loop_start partSize k,
          GetPartEnd (loop_start partSize k) objectSize partSize).
Proof.
  unfold requested_range, request_options.
  rewrite ranges_of_app, ranges_of_loop_ranges.
  replace (S k) with (k + 1)%nat by lia.
  rewrite seq_app, map_app, app_assoc. simpl. by rewrite last_snoc.
Qed.

Lemma int64_small z : - 2 ^ 63 <= z < 2 ^ 63 -> int64 z = z.
Proof. intros H. unfold int64. rewrite Z.mod_small; lia. Qed.

(** While [i + partSize] stays within [int64], iteration [k] starts at
    [k * partSize]. *)
Lemma loop_start_linear objectSize partSize n :
  0 < partSize -> objectSize + partSize <= 2 ^ 63 ->
  (forall j, (j < n)%nat -> loop_start partSize j < objectSize) ->
  forall k, (k <= n)%nat -> loop_start partSize k = Z.of_nat k * partSize.
Proof.
  intros Hpos Hbound Hlt k. induction k as [|k IH]; intros Hk; [done|].
  change (loop_start partSize (S k)) with (int64 (loop_start partSize k + partSize)).
  specialize (Hlt k ltac:(lia)). rewrite IH in * by lia.
  rewrite int64_small; lia.
Qed.

(** The bytes of completed iterations [m .. m + length items - 1] when every
    stream has the length of its chunk. *)
Lemma chunks_total objectSize partSize (items : list (list Option * list Byte.byte)) :
  forall m : nat,
  (forall (i : nat) item, items !! i = Some item ->
     Z.of_nat (m + i) * partSize < objectSize
     /\ Z.of_nat (length item.2)
        = Z.min (Z.of_nat (m + i) * partSize + partSize - 1) (objectSize - 1)
          - Z.of_nat (m + i) * partSize + 1) ->
  Z.of_nat (length (mjoin (map snd items)))
  = Z.min (Z.of_nat (m + length items) * partSize) objectSize
    - Z.min (Z.of_nat m * partSize) objectSize.
Proof.
  induction items as [|item items IH]; intros m H.
  - simpl. rewrite Nat.add_0_r. lia.
  - change (mjoin (map snd (item :: items)))
      with (item.2 ++ mjoin (map snd items)).
    rewrite length_app, Nat2Z.inj_add.
    destruct (H 0%nat item eq_refl) as [H0 H0'].
    rewrite Nat.add_0_r in H0, H0'. rewrite H0'.
    rewrite (IH (S m)).
    + simpl length. replace (S m + length items)%nat
        with (m + S (length items))%nat by lia.
      replace (Z.of_nat (S m) * partSize)
        with (Z.of_nat m * partSize + partSize) by lia.
      lia.
    + intros i it Hi. replace (S m + i)%nat with (m + S i)%nat by lia.
      by apply (H (S i)).
Qed.

(** C7. Take a [DownloadFile] run with a valid chunk size [C] whose metadata
    probe reports the size [S > 0], with [S + C] within [int64].  With fuel
    for [ceil(S / C)] iterations the run returns.  When it returns [nil], the
    ranges its ranged reads ask for are exactly [byte_ranges S C], each read
    is followed by the copy of its stream before the next read is issued, in
    ascending order, and, the collaborator honouring ranges, the bytes written
    to the file number [S]. *)
Theorem DownloadFile_byte_ranges
    w fuel objectKey filePath partSize options t0 meta out evs :
  1 <= partSize <= MaxPartSize ->
  w_GetObjectDetailedMeta w t0 objectKey = Ok meta ->
  let objectSize := (ParseInt (Get meta HTTPHeaderContentLength)).1 in
  0 < objectSize ->
  objectSize + partSize <= 2 ^ 63 ->
  DownloadFile w fuel objectKey filePath partSize options t0
  = (out, t0 ++ evs) ->
  ((Z.to_nat ((objectSize + partSize - 1) / partSize) <= fuel)%nat ->
   out <> OutOfFuel)
  /\ (out = Returned None ->
      map requested_range (ranged_reads evs)
      = map Some (byte_ranges objectSize partSize)
      /\ (exists items closes,
            evs = [EvGetObjectDetailedMeta objectKey (Ok meta);
                   EvOpenFile filePath None]
                  ++ mjoin (map (chunk_events objectKey filePath) items)
                  ++ closes
            /\ Forall (fun ev => is_close ev = true) closes
            /\ map fst items
               = map (request_options options objectSize partSize)
                   (seq 0 (length (byte_ranges objectSize partSize))))
      /\ (honours_ranges evs ->
          Z.of_nat (length (sink_bytes evs)) = objectSize)).
Proof.
  intros Hvalid Hmeta objectSize Hpos Hbound Hrun.
  destruct (w_OpenFile w (t0 ++ [EvGetObjectDetailedMeta objectKey (Ok meta)])
              filePath) as [e|] eqn:Hopen.
  { (* the file does not open: the run returns that error *)
    unfold DownloadFile in Hrun.
    replace ((partSize <? 1) || (MaxPartSize <? partSize)) with false in Hrun
      by (symmetry; apply orb_false_intro; lia).
    unfold GetObjectDetailedMeta, os_OpenFile in Hrun. io_unfold.
    rewrite Hmeta, Hopen in Hrun. injection Hrun as <- _. by split. }
  destruct (DownloadFile_run w fuel objectKey filePath partSize options t0 meta
              Hvalid Hmeta Hopen)
    as (items & tail & closes & Ht & Hcl & Hopts & Hlts & Hout).
  fold objectSize in Hopts, Hlts, Hout.
  rewrite Hrun in Ht, Hout. simpl in Ht, Hout.
  apply app_inv_head in Ht.
  set (n := length items) in *.
  assert (Hlt : forall j, (j < n)%nat -> loop_start partSize j < objectSize).
  { intros j Hj. rewrite Forall_forall in Hlts. apply Hlts.
    apply elem_of_seq. lia. }
  pose proof (loop_start_linear objectSize partSize n ltac:(lia) Hbound Hlt)
    as Hlin.
  split.
  - (* enough fuel *)
    intros Hfuel ->. destruct Hout as (_ & Hn & Hlast).
    rewrite Hlin in Hlast by lia.
    assert (Z.of_nat n < (objectSize + partSize - 1) / partSize); [|lia].
    assert (Z.of_nat n + 1 <= (objectSize + partSize - 1) / partSize); [|lia].
    apply Z.div_le_lower_bound; lia.
  - intros ->. destruct Hout as (-> & Hlast).
    rewrite Hlin in Hlast by lia. rewrite app_nil_l in Ht.
    assert (Hn1 : (1 <= n)%nat).
    { destruct n; [|lia]. simpl in Hlast. lia. }
    assert (Hprev : (Z.of_nat n - 1) * partSize < objectSize).
    { specialize (Hlt (n - 1)%nat ltac:(lia)).
      rewrite Hlin in Hlt by lia. rewrite Nat2Z.inj_sub in Hlt by lia. lia. }
    assert (Hn : (objectSize + partSize - 1) / partSize = Z.of_nat n).
    { symmetry.
      apply Z.div_unique with (r := objectSize + partSize - 1
                                    - partSize * Z.of_nat n); lia. }
    assert (Hlen : length (byte_ranges objectSize partSize) = n).
    { unfold byte_ranges. by rewrite length_map, length_seq, Hn, Nat2Z.id. }
    assert (Hreads : ranged_reads evs
                     = map (request_options options objectSize partSize)
                         (seq 0 n)).
    { subst evs.
      change (ranged_reads (_ :: _ :: ?l)) with (ranged_reads l).
      rewrite ranged_reads_app, ranged_reads_chunks.
      destruct (closes_silent closes Hcl) as (-> & _).
      by rewrite app_nil_r. }
    split; [|split].
    + rewrite Hreads. unfold byte_ranges. rewrite Hn, Nat2Z.id.
      rewrite <- !list_fmap_compose. apply list_fmap_ext.
      intros i k Hk%lookup_seq. destruct Hk as [-> Hk]. simpl.
      rewrite requested_range_request_options.
      rewrite Hlin by lia. done.
    + exists items, closes. rewrite Hlen. done.
    + intros Hhon. subst evs.
      change (sink_bytes (_ :: _ :: ?l)) with (sink_bytes l).
      rewrite sink_bytes_app, sink_bytes_chunks.
      destruct (closes_silent closes Hcl) as (_ & -> & _).
      rewrite app_nil_r.
      rewrite (chunks_total objectSize partSize items 0).
      * fold n. simpl. lia.
      * intros i [opts data] Hi. simpl.
        assert (Hi' : (i < n)%nat) by (by apply lookup_lt_Some in Hi).
        specialize (Hlt i Hi'). rewrite Hlin in Hlt by lia.
        split; [done|].
        assert (Hopt : opts = request_options options objectSize partSize i).
        { pose proof (f_equal (fun l => l !! i) Hopts) as Hl. simpl in Hl.
          rewrite !list_lookup_fmap, Hi, lookup_seq_lt in Hl by done.
          by injection Hl. }
        destruct (Hhon objectKey opts data) as (s & e & Hr & Hd).
        { do 2 apply list_elem_of_further. apply elem_of_app. left.
          apply list_elem_of_lookup_2 in Hi. clear -Hi.
          induction items as [|it items IH]; [by apply elem_of_nil in Hi|].
          apply elem_of_cons in Hi as [<-|Hi].
          - apply list_elem_of_here.
          - simpl. do 2 apply list_elem_of_further. by apply IH. }
        rewrite Hopt, requested_range_request_options in Hr.
        injection Hr as <- <-. rewrite Hd, Hlin by lia.
        unfold GetPartEnd. done.
Qed.

(** The download scenario: an object of 250 bytes in chunks of 100 is read
    as [0,99], [100,199], [200,249], and 250 bytes reach the file. *)
Lemma DownloadFile_byte_ranges_witness :
  download_run.1 = Returned None
  /\ map requested_range (ranged_reads download_run.2)
     = [Some (0, 99); Some (100, 199); Some (200, 249)]
  /\ Z.of_nat (length (sink_bytes download_run.2)) = 250.
Proof.
  destruct (DownloadFile_byte_ranges download_world 3 "object" "file" 100 [] []
              {[ HTTPHeaderContentLength := "250"%string ]}
              download_run.1 download_run.2)
    as (_ & Hok).
  - vm_compute. split; discriminate.
  - reflexivity.
  - vm_compute. reflexivity.
  - vm_compute. discriminate.
  - vm_compute. reflexivity.
  - destruct (Hok eq_refl) as (Hranges & _ & Hbytes).
    split; [reflexivity|]. split; [exact Hranges|].
    apply Hbytes. intros k o d Hin. unfold download_run in Hin. simpl in Hin.
    repeat (apply elem_of_cons in Hin as [Hin|Hin];
            [first [discriminate Hin
                   |injection Hin as -> -> ->;
                    eexists _, _; split; [reflexivity|vm_compute; reflexivity]]
            |]).
    by apply elem_of_nil in Hin.
Defined.


(** ** Go's [sort.Sort] sorts

    The proofs are indexed: [K data i] is the key at index [i], a segment
    [[a, b)] is sorted when its keys ascend, and [seg_perm a b] relates a
    slice to what swaps inside [[a, b)] make of it. *)
Section SortCorrect.
Context {A : Type} (key : A -> Z).
Local Open Scope nat_scope.

Abbreviation less := (fun x y : A => (key x <? key y)%Z).
Abbreviation Less := (GoSort.Less less).
Abbreviation Swap := (@GoSort.Swap A).

Abbreviation K := (key_at key).

Lemma Less_K data i j :
  i < length data -> j < length data ->
  Less data i j = (K data i <? K data j)%Z.
Proof.
  intros Hi Hj. unfold GoSort.Less, key_at.
  destruct (lookup_lt_is_Some_2 data i Hi) as [x ->].
  by destruct (lookup_lt_is_Some_2 data j Hj) as [y ->].
Qed.

Lemma Swap_length data i j : length (Swap data i j) = length data.
Proof.
  unfold GoSort.Swap. destruct (data !! i), (data !! j); try done.
  by rewrite !length_insert.
Qed.

Lemma Swap_lookup data i j k :
  i < length data -> j < length data ->
  Swap data i j !! k
  = if decide (k = i) then data !! j
    else if decide (k = j) then data !! i else data !! k.
Proof.
  intros Hi Hj. unfold GoSort.Swap.
  destruct (lookup_lt_is_Some_2 data i Hi) as [x Hx].
  destruct (lookup_lt_is_Some_2 data j Hj) as [y Hy].
  rewrite Hx, Hy.
  destruct (decide (k = i)) as [->|Hki].
  - by rewrite list_lookup_insert_eq by (by rewrite length_insert).
  - rewrite list_lookup_insert_ne by done.
    destruct (decide (k = j)) as [->|Hkj].
    + by rewrite list_lookup_insert_eq.
    + by rewrite list_lookup_insert_ne.
Qed.

Lemma K_Swap data i j k :
  i < length data -> j < length data ->
  K (Swap data i j) k
  = if decide (k = i) then K data j
    else if decide (k = j) then K data i else K data k.
Proof.
  intros Hi Hj. unfold key_at. rewrite Swap_lookup by done.
  by repeat case_decide.
Qed.

Lemma insert_cons_Permutation (l : list A) j x y :
  l !! j = Some y -> y :: <[j:=x]> l ≡ₚ x :: l.
Proof.
  revert j. induction l as [|z l IH]; intros [|j] Hj; try done.
  - simpl in Hj. injection Hj as ->. simpl. apply perm_swap.
  - simpl in *. rewrite (perm_swap z y), (perm_swap z x).
    by rewrite IH.
Qed.

Lemma insert_insert_Permutation (l : list A) i j x y :
  i < j -> l !! i = Some x -> l !! j = Some y ->
  <[i:=y]> (<[j:=x]> l) ≡ₚ l.
Proof.
  revert i j. induction l as [|z l IH]; intros [|i] [|j] Hij Hi Hj;
    try done; try lia; simpl in *.
  - injection Hi as ->. by apply insert_cons_Permutation.
  - f_equiv. apply IH; [lia|done..].
Qed.

Lemma K_Swap_l data i j :
  i < length data -> j < length data -> K (Swap data i j) i = K data j.
Proof. intros. rewrite K_Swap by done. by rewrite decide_True. Qed.

Lemma K_Swap_r data i j :
  i < length data -> j < length data -> K (Swap data i j) j = K data i.
Proof.
  intros. rewrite K_Swap by done.
  destruct (decide (j = i)) as [->|]; [done|]. by rewrite decide_True.
Qed.

Lemma K_Swap_ne data i j k :
  i < length data -> j < length data -> k <> i -> k <> j ->
  K (Swap data i j) k = K data k.
Proof. intros. rewrite K_Swap by done. by rewrite !decide_False. Qed.

Lemma Swap_Permutation data i j : Swap data i j ≡ₚ data.
Proof.
  unfold GoSort.Swap.
  destruct (data !! i) as [x|] eqn:Hx; [|done].
  destruct (data !! j) as [y|] eqn:Hy; [|done].
  destruct (Nat.lt_trichotomy i j) as [Hij|[->|Hij]].
  - by apply insert_insert_Permutation.
  - rewrite list_insert_insert_eq. rewrite Hx in Hy. injection Hy as ->.
    by rewrite list_insert_id.
  - rewrite list_insert_insert_ne by lia.
    by apply insert_insert_Permutation.
Qed.

Lemma seg_perm_length a b (data data' : list A) :
  seg_perm a b data data' -> length data' = length data.
Proof. induction 1 as [|???????? IH]; [done|]. by rewrite IH, Swap_length. Qed.

Lemma seg_perm_outside a b (data data' : list A) k :
  seg_perm a b data data' -> ~ (a <= k < b) -> data' !! k = data !! k.
Proof.
  induction 1 as [|data data' i j Hi Hj Hb _ IH]; [done|]. intros Hk.
  rewrite IH, Swap_lookup by (done || lia). by repeat case_decide; try lia.
Qed.

Lemma seg_perm_K_outside a b (data data' : list A) k :
  seg_perm a b data data' -> ~ (a <= k < b) -> K data' k = K data k.
Proof. intros H Hk. unfold key_at. by rewrite (seg_perm_outside a b data). Qed.

Lemma seg_perm_Permutation a b (data data' : list A) :
  seg_perm a b data data' -> data' ≡ₚ data.
Proof.
  induction 1 as [|???????? IH]; [done|]. by rewrite IH, Swap_Permutation.
Qed.

Lemma seg_perm_trans a b (d1 d2 d3 : list A) :
  seg_perm a b d1 d2 -> seg_perm a b d2 d3 -> seg_perm a b d1 d3.
Proof.
  induction 1 as [|d1 d2 i j Hi Hj Hb _ IH]; [done|]. intros H23.
  eapply seg_perm_swap with (i := i) (j := j); [done..|by apply IH].
Qed.

Lemma seg_perm_mono a b a' b' (data data' : list A) :
  a' <= a -> b <= b' -> b' <= length data ->
  seg_perm a b data data' -> seg_perm a' b' data data'.
Proof.
  intros Ha Hb Hlen. induction 1 as [|data data' i j Hi Hj Hb' _ IH].
  - constructor.
  - eapply seg_perm_swap with (i := i) (j := j); [lia..|].
    apply IH. by rewrite Swap_length.
Qed.

Lemma seg_perm_one a b (data : list A) i j :
  a <= i < b -> a <= j < b -> b <= length data ->
  seg_perm a b data (Swap data i j).
Proof.
  intros. eapply seg_perm_swap with (i := i) (j := j); [done..|constructor].
Qed.

(** A bound on every key of the segment survives swaps inside it. *)
Lemma seg_perm_bound (P : Z -> Prop) a b (data data' : list A) :
  seg_perm a b data data' ->
  (forall i, a <= i < b -> P (K data i)) ->
  forall i, a <= i < b -> P (K data' i).
Proof.
  induction 1 as [|data data' i j Hi Hj Hb _ IH]; [done|]. intros HP.
  apply IH. intros k Hk. rewrite K_Swap by lia.
  repeat case_decide; apply HP; lia.
Qed.

(** *** [insertionSort] *)

(** The inner loop sinks the element at [j] into the sorted keys below it:
    the segment [[a, i]] is sorted but for index [j], whose key is at most
    the keys above it. *)
Lemma insertion_inner_sorted (data : list A) a i : forall j,
  a <= j -> j <= i -> i < length data ->
  (forall p q, a <= p -> p <= q -> q <= i -> p <> j -> q <> j ->
     (K data p <= K data q)%Z) ->
  (forall q, j < q -> q <= i -> (K data j <= K data q)%Z) ->
  seg_sorted key a (S i) (GoSort.insertion_inner less data a j)
  /\ seg_perm a (S i) data (GoSort.insertion_inner less data a j).
Proof.
  intros j. revert data. induction j as [|j IH]; intros data Ha Hj Hi Hs Hup.
  - simpl. split; [|constructor].
    intros p q Hp Hpq Hq.
    destruct (decide (p = 0)) as [->|Hp0].
    + destruct (decide (q = 0)) as [->|Hq0]; [lia|]. apply Hup; lia.
    + apply Hs; lia.
  - simpl. destruct (Nat.ltb_spec a (S j)) as [Haj|Haj]; simpl.
    + rewrite Less_K by lia.
      destruct (Z.ltb_spec (K data (S j)) (K data j)) as [Hlt|Hge].
      * (* swap and continue at j *)
        destruct (IH (Swap data (S j) j)) as [Hsorted Hperm].
        { lia. } { lia. } { by rewrite Swap_length. }
        { intros p q Hp Hpq Hq Hpj Hqj. rewrite !K_Swap by lia.
          repeat case_decide; subst; try lia; apply Hs; lia. }
        { intros q Hq Hqi. rewrite !K_Swap by lia.
          repeat case_decide; subst; try lia; apply Hup; lia. }
        split; [done|].
        eapply seg_perm_swap with (i := S j) (j := j); [lia..|done].
      * split; [|constructor].
        intros p q Hp Hpq Hq.
        destruct (decide (p = S j)) as [->|Hpj];
          destruct (decide (q = S j)) as [->|Hqj]; try lia.
        -- apply Hup; lia.
        -- destruct (decide (p = j)) as [->|Hpj']; [lia|].
           transitivity (K data j); [apply Hs; lia|lia].
        -- apply Hs; lia.
    + split; [|constructor]. assert (a = S j) as -> by lia.
      intros p q Hp Hpq Hq.
      destruct (decide (p = S j)) as [->|Hpj].
      * destruct (decide (q = S j)) as [->|Hqj]; [lia|]. apply Hup; lia.
      * apply Hs; lia.
Qed.

Lemma insertion_outer_sorted n : forall (data : list A) a i,
  a <= i -> i + n <= length data -> a < i \/ n = 0 ->
  seg_sorted key a i data ->
  seg_sorted key a (i + n) (GoSort.insertion_outer less data a i n)
  /\ seg_perm a (i + n) data (GoSort.insertion_outer less data a i n).
Proof.
  induction n as [|n IH]; intros data a i Hai Hlen Hpos Hs; simpl.
  - rewrite Nat.add_0_r. split; [done|constructor].
  - destruct (insertion_inner_sorted data a i i) as [Hs1 Hp1]; [lia..| |lia|].
    { intros p q Hp Hpq Hq Hpi Hqi. apply Hs; lia. }
    destruct (IH (GoSort.insertion_inner less data a i) a (S i))
      as [Hs2 Hp2]; [lia| |lia|done|].
    { rewrite (seg_perm_length _ _ _ _ Hp1). lia. }
    replace (i + S n) with (S i + n) by lia. split; [done|].
    eapply seg_perm_trans; [|exact Hp2].
    eapply seg_perm_mono; [| | |exact Hp1]; lia.
Qed.

Lemma insertionSort_sorted (data : list A) a b :
  a <= b -> b <= length data ->
  seg_sorted key a b (GoSort.insertionSort less data a b)
  /\ seg_perm a b data (GoSort.insertionSort less data a b).
Proof.
  intros Hab Hb. unfold GoSort.insertionSort.
  destruct (decide (b <= a + 1)) as [Hsmall|Hbig].
  - replace (b - (a + 1)) with 0 by lia. simpl. split; [|constructor].
    intros p q Hp Hpq Hq. assert (p = q) as -> by lia. lia.
  - destruct (insertion_outer_sorted (b - (a + 1)) data a (a + 1))
      as [Hs Hp]; [lia..| |].
    { intros p q Hp Hpq Hq. assert (p = q) as -> by lia. lia. }
    by replace (a + 1 + (b - (a + 1))) with b in * by lia.
Qed.

(** *** The tail of [quickSort] for short segments *)

Lemma shell_pass_perm n : forall (data : list A) a b i,
  a + 6 <= i -> i + n <= b -> b <= length data ->
  seg_perm a b data (GoSort.shell_pass less data i n).
Proof.
  induction n as [|n IH]; intros data a b i Hi Hn Hb; simpl; [constructor|].
  destruct (Less data i (i - 6)).
  - eapply seg_perm_swap with (i := i) (j := i - 6); [lia..|].
    apply IH; [lia..|]. by rewrite Swap_length.
  - apply IH; lia.
Qed.

Lemma sort_small_sorted (data : list A) a b :
  a <= b -> b <= length data ->
  seg_sorted key a b (GoSort.sort_small less data a b)
  /\ seg_perm a b data (GoSort.sort_small less data a b).
Proof.
  intros Hab Hb. unfold GoSort.sort_small.
  destruct (Nat.ltb_spec 1 (b - a)) as [Hbig|Hsmall].
  - assert (Hp : seg_perm a b data
                   (GoSort.shell_pass less data (a + 6) (b - (a + 6)))).
    { destruct (decide (a + 6 <= b)).
      - apply shell_pass_perm; lia.
      - replace (b - (a + 6)) with 0 by lia. constructor. }
    destruct (insertionSort_sorted
                (GoSort.shell_pass less data (a + 6) (b - (a + 6))) a b)
      as [Hs Hp2]; [lia| |].
    { by rewrite (seg_perm_length _ _ _ _ Hp). }
    split; [done|]. by eapply seg_perm_trans.
  - split; [|constructor].
    intros p q Hp Hpq Hq. assert (p = q) as -> by lia. lia.
Qed.

(** *** The scanning loops of [doPivot] *)

Lemma scan_up_spec (p : nat -> bool) c fuel : forall i,
  c - i <= fuel ->
  (i <= c -> i <= GoSort.scan_up p i c fuel <= c)
  /\ (forall k, i <= k < GoSort.scan_up p i c fuel -> p k = true)
  /\ (GoSort.scan_up p i c fuel < c ->
      p (GoSort.scan_up p i c fuel) = false)
  /\ (c <= i -> GoSort.scan_up p i c fuel = i).
Proof.
  induction fuel as [|fuel IH]; intros i Hf; simpl.
  - repeat split; intros; lia.
  - destruct (Nat.ltb_spec i c) as [Hic|Hic]; simpl.
    + destruct (p i) eqn:Hp.
      * destruct (IH (S i)) as (H1 & H2 & H3 & H4); [lia|].
        split; [lia|]. split; [|split; [done|lia]].
        intros k Hk. destruct (decide (k = i)) as [->|]; [done|].
        apply H2. lia.
      * repeat split; intros; first [lia|done].
    + repeat split; intros; lia.
Qed.

Lemma scan_down_spec (p : nat -> bool) a fuel : forall c,
  c - a <= fuel ->
  (a <= c -> a <= GoSort.scan_down p a c fuel <= c)
  /\ (forall k, GoSort.scan_down p a c fuel <= k < c -> p k = true)
  /\ (a < GoSort.scan_down p a c fuel ->
      p (GoSort.scan_down p a c fuel - 1) = false)
  /\ (c <= a -> GoSort.scan_down p a c fuel = c).
Proof.
  induction fuel as [|fuel IH]; intros c Hf; simpl.
  - repeat split; intros; lia.
  - destruct (Nat.ltb_spec a c) as [Hac|Hac]; simpl.
    + destruct (p (c - 1)) eqn:Hp.
      * destruct (IH (c - 1)) as (H1 & H2 & H3 & H4); [lia|].
        split; [lia|]. split; [|split; [done|lia]].
        intros k Hk. destruct (decide (k = c - 1)) as [->|]; [done|].
        apply H2. lia.
      * repeat split; intros; first [lia|done].
    + repeat split; intros; lia.
Qed.

(** *** [medianOfThree] *)

Lemma medianOfThree_spec (data : list A) a b m1 m0 m2 :
  a <= m1 < b -> a <= m0 < b -> a <= m2 < b -> b <= length data ->
  m1 <> m0 -> m1 <> m2 -> m0 <> m2 ->
  let data' := GoSort.medianOfThree less data m1 m0 m2 in
  seg_perm a b data data'
  /\ (K data' m0 <= K data' m1 <= K data' m2)%Z.
Proof.
  intros H1 H0 H2 Hb Hn10 Hn12 Hn02. unfold GoSort.medianOfThree.
  assert (Hstep : forall (d : list A) i j,
             a <= i < b -> a <= j < b -> length d = length data ->
             let d' := if Less d i j then Swap d i j else d in
             seg_perm a b d d' /\ length d' = length data
             /\ (K d' j <= K d' i)%Z
             /\ (forall k, k <> i -> k <> j -> K d' k = K d k)
             /\ (K d' i = K d i /\ K d' j = K d j
                 \/ K d' i = K d j /\ K d' j = K d i)).
  { intros d i j Hi Hj Hl. rewrite Less_K by lia.
    destruct (Z.ltb_spec (K d i) (K d j)) as [Hlt|Hge]; simpl.
    - pose proof (K_Swap_l d i j ltac:(lia) ltac:(lia)) as Hi'.
      pose proof (K_Swap_r d i j ltac:(lia) ltac:(lia)) as Hj'.
      split; [apply seg_perm_one; lia|]. split; [by rewrite Swap_length|].
      split; [lia|]. split; [|by right].
      intros k Hki Hkj. apply K_Swap_ne; lia.
    - split; [constructor|]. split; [done|]. split; [lia|].
      split; [done|by left]. }
  destruct (Hstep data m1 m0) as (Hp1 & Hl1 & Ho1 & Hk1 & Hc1); [lia..|done|].
  set (d1 := if Less data m1 m0 then Swap data m1 m0 else data) in *.
  rewrite Less_K by lia.
  destruct (Z.ltb_spec (K d1 m2) (K d1 m1)) as [Hlt|Hge].
  - pose proof (Swap_length d1 m2 m1) as Hl2.
    destruct (Hstep (Swap d1 m2 m1) m1 m0)
      as (Hp3 & Hl3 & Ho3 & Hk3 & Hc3); [lia..| |].
    { by rewrite Hl2. }
    set (d3 := if Less (Swap d1 m2 m1) m1 m0
               then Swap (Swap d1 m2 m1) m1 m0 else Swap d1 m2 m1) in *.
    split.
    + eapply seg_perm_trans; [exact Hp1|].
      eapply seg_perm_swap with (i := m2) (j := m1); [lia..|done].
    + rewrite (Hk3 m2) by done.
      rewrite (K_Swap_l d1 m2 m1) in * by lia.
      rewrite (K_Swap_r d1 m2 m1) in * by lia.
      rewrite (K_Swap_ne d1 m2 m1 m0) in * by lia. lia.
  - split; [done|lia].
Qed.

(** *** [doPivot] *)

Lemma partition_loop_spec lo hi p a fuel : forall (data : list A) b c,
  pivot_scan key lo hi p data a b c ->
  c - b < fuel ->
  exists data' b',
    GoSort.partition_loop less fuel data lo b c = (data', b', b')
    /\ pivot_scan key lo hi p data' a b' b'
    /\ seg_perm (S lo) (hi - 1) data data'.
Proof.
  induction fuel as [|fuel IH]; intros data b c Hinv Hfuel; [lia|].
  destruct Hinv as (Hloa & Hab & Hbc & Hc & Hlohi & Hlen & Hp & Hlt & Hle & Hge).
  simpl.
  destruct (scan_up_spec (fun i => negb (Less data lo i)) c (c - b) b)
    as (Hb1 & Hb1all & Hb1stop & _); [lia|].
  remember (GoSort.scan_up (fun i => negb (Less data lo i)) b c (c - b))
    as b1 eqn:Eb1. clear Eb1.
  specialize (Hb1 Hbc).
  destruct (scan_down_spec (fun i => Less data lo i) b1 (c - b1) c)
    as (Hc1 & Hc1all & Hc1stop & _); [lia|].
  remember (GoSort.scan_down (fun i => Less data lo i) b1 c (c - b1))
    as c1 eqn:Ec1. clear Ec1.
  specialize (Hc1 ltac:(lia)).
  assert (Hle1 : forall i, a <= i < b1 -> (K data i <= p)%Z).
  { intros i Hi. destruct (decide (i < b)); [apply Hle; lia|].
    specialize (Hb1all i ltac:(lia)). simpl in Hb1all.
    rewrite Less_K in Hb1all by lia. rewrite Hp in Hb1all.
    apply negb_true_iff, Z.ltb_ge in Hb1all. done. }
  assert (Hge1 : forall i, c1 <= i < hi -> (p <= K data i)%Z).
  { intros i Hi. destruct (decide (c <= i)); [apply Hge; lia|].
    specialize (Hc1all i ltac:(lia)). simpl in Hc1all.
    rewrite Less_K in Hc1all by lia. rewrite Hp in Hc1all.
    apply Z.ltb_lt in Hc1all. lia. }
  destruct (Nat.leb_spec c1 b1) as [Hdone|Hmore].
  - assert (c1 = b1) as -> by lia.
    exists data, b1. split; [done|]. split; [|constructor].
    repeat split; try done; try lia.
  - assert (Hkb : (p < K data b1)%Z).
    { specialize (Hb1stop ltac:(lia)). simpl in Hb1stop.
      rewrite Less_K in Hb1stop by lia. rewrite Hp in Hb1stop.
      apply negb_false_iff, Z.ltb_lt in Hb1stop. done. }
    assert (Hkc : (K data (c1 - 1) <= p)%Z).
    { specialize (Hc1stop ltac:(lia)). simpl in Hc1stop.
      rewrite Less_K in Hc1stop by lia. rewrite Hp in Hc1stop.
      by apply Z.ltb_ge in Hc1stop. }
    assert (Hne : b1 <> c1 - 1) by (intros E; rewrite E in Hkb; lia).
    destruct (IH (Swap data b1 (c1 - 1)) (S b1) (c1 - 1))
      as (data' & b' & Hrun & Hinv' & Hperm); [|lia|].
    { unfold pivot_scan. rewrite Swap_length.
      split; [lia|]. split; [lia|]. split; [lia|]. split; [lia|].
      split; [lia|]. split; [lia|].
      split; [by rewrite K_Swap_ne by lia|].
      split; [|split].
      - intros i Hi. rewrite K_Swap_ne by lia. apply Hlt; lia.
      - intros i Hi. destruct (decide (i = b1)) as [->|].
        + rewrite K_Swap_l by lia. done.
        + rewrite K_Swap_ne by lia. apply Hle1; lia.
      - intros i Hi. destruct (decide (i = c1 - 1)) as [->|].
        + rewrite K_Swap_r by lia. lia.
        + rewrite K_Swap_ne by lia. apply Hge1; lia. }
    exists data', b'. split; [done|]. split; [done|].
    eapply seg_perm_swap with (i := b1) (j := c1 - 1); [lia..|done].
Qed.

Lemma protect_loop_spec lo hi p c fuel : forall (data : list A) a b,
  pivot_parts key lo hi p data a b c ->
  b - a < fuel ->
  exists data' b',
    GoSort.protect_loop less fuel data lo a b = (data', b')
    /\ pivot_parts key lo hi p data' b' b' c
    /\ seg_perm (S lo) hi data data'.
Proof.
  induction fuel as [|fuel IH]; intros data a b Hinv Hfuel; [lia|].
  destruct Hinv as (Hloa & Hab & Hbc & Hc & Hlen & Hp & Hlt & Hle & Heq & Hge).
  simpl.
  destruct (scan_down_spec (fun i => negb (Less data i lo)) a (b - a) b)
    as (Hb1 & Hb1all & Hb1stop & _); [lia|].
  remember (GoSort.scan_down (fun i => negb (Less data i lo)) a b (b - a))
    as b1 eqn:Eb1. clear Eb1.
  specialize (Hb1 Hab).
  destruct (scan_up_spec (fun i => Less data i lo) b1 (b1 - a) a)
    as (Ha1 & Ha1all & Ha1stop & _); [lia|].
  remember (GoSort.scan_up (fun i => Less data i lo) a b1 (b1 - a))
    as a1 eqn:Ea1. clear Ea1.
  specialize (Ha1 ltac:(lia)).
  assert (Heq1 : forall i, b1 <= i < c -> K data i = p).
  { intros i Hi. destruct (decide (b <= i)); [apply Heq; lia|].
    specialize (Hb1all i ltac:(lia)). simpl in Hb1all.
    rewrite Less_K in Hb1all by lia. rewrite Hp in Hb1all.
    apply negb_true_iff, Z.ltb_ge in Hb1all.
    specialize (Hle i ltac:(lia)). lia. }
  assert (Hlt1 : forall i, lo < i < a1 -> (K data i < p)%Z).
  { intros i Hi. destruct (decide (i < a)); [apply Hlt; lia|].
    specialize (Ha1all i ltac:(lia)). simpl in Ha1all.
    rewrite Less_K in Ha1all by lia. rewrite Hp in Ha1all.
    by apply Z.ltb_lt in Ha1all. }
  destruct (Nat.leb_spec b1 a1) as [Hdone|Hmore].
  - assert (a1 = b1) as -> by lia.
    exists data, b1. split; [done|]. split; [|constructor].
    repeat split; try done; try lia.
  - assert (Hka : K data a1 = p).
    { specialize (Ha1stop ltac:(lia)). simpl in Ha1stop.
      rewrite Less_K in Ha1stop by lia. rewrite Hp in Ha1stop.
      apply Z.ltb_ge in Ha1stop. specialize (Hle a1 ltac:(lia)). lia. }
    assert (Hkb : (K data (b1 - 1) < p)%Z).
    { specialize (Hb1stop ltac:(lia)). simpl in Hb1stop.
      rewrite Less_K in Hb1stop by lia. rewrite Hp in Hb1stop.
      by apply negb_false_iff, Z.ltb_lt in Hb1stop. }
    assert (Hne : a1 <> b1 - 1) by (intros E; rewrite E in Hka; lia).
    destruct (IH (Swap data a1 (b1 - 1)) (S a1) (b1 - 1))
      as (data' & b' & Hrun & Hinv' & Hperm); [|lia|].
    { unfold pivot_parts. rewrite Swap_length.
      split; [lia|]. split; [lia|]. split; [lia|]. split; [lia|].
      split; [lia|].
      split; [by rewrite K_Swap_ne by lia|].
      split; [|split; [|split]].
      - intros i Hi. destruct (decide (i = a1)) as [->|].
        + rewrite K_Swap_l by lia. done.
        + rewrite K_Swap_ne by lia. apply Hlt1; lia.
      - intros i Hi. rewrite K_Swap_ne by lia. apply Hle; lia.
      - intros i Hi. destruct (decide (i = b1 - 1)) as [->|].
        + rewrite K_Swap_r by lia. done.
        + rewrite K_Swap_ne by lia. apply Heq1; lia.
      - intros i Hi. rewrite K_Swap_ne by lia. apply Hge; lia. }
    exists data', b'. split; [done|]. split; [done|].
    eapply seg_perm_swap with (i := a1) (j := b1 - 1); [lia..|done].
Qed.

(** The three equality tests keep the invariant; they run only when fewer
    than a quarter of the keys lie above the pivot, which puts [m] below
    [b]. *)
Lemma pivot_dups_spec lo hi p (data : list A) a b :
  pivot_parts key lo hi p data a b b ->
  b <= hi - 1 -> 5 <= hi - b -> hi - b < (hi - lo) / 4 ->
  exists data' b' c' dups,
    GoSort.pivot_dups less data lo ((lo + hi) / 2) hi b b
    = (data', b', c', dups)
    /\ pivot_parts key lo hi p data' a b' c'
    /\ seg_perm (S lo) hi data data'.
Proof.
  intros (Hloa & Hab & _ & _ & Hlen & Hp & Hlt & Hle & _ & Hge) Hb1 Hc5 Hq.
  assert (Hm : lo < (lo + hi) / 2 /\ (lo + hi) / 2 + 2 <= b).
  { pose proof (Nat.div_mod_eq (lo + hi) 2) as E1.
    pose proof (Nat.mod_upper_bound (lo + hi) 2 ltac:(lia)) as E2.
    pose proof (Nat.div_mod_eq (hi - lo) 4) as E3.
    pose proof (Nat.mod_upper_bound (hi - lo) 4 ltac:(lia)) as E4. lia. }
  set (m := (lo + hi) / 2) in *. clearbody m.
  unfold GoSort.pivot_dups.
  (* first test: [hi - 1] *)
  assert (H1 : exists data1 c1 d1,
             (if negb (Less data lo (hi - 1))
              then (Swap data b (hi - 1), S b, 1)
              else (data, b, 0)) = (data1, c1, d1)
             /\ pivot_parts key lo hi p data1 a b c1
             /\ seg_perm (S lo) hi data data1).
  { rewrite Less_K by lia. rewrite Hp.
    destruct (Z.ltb_spec p (K data (hi - 1))) as [Hgt|Hnot]; simpl.
    - exists data, b, 0. split; [done|]. split; [|constructor].
      repeat split; try done; try lia.
    - exists (Swap data b (hi - 1)), (S b), 1. split; [done|].
      split; [|apply seg_perm_one; lia].
      assert (Hkh : K data (hi - 1) = p).
      { specialize (Hge (hi - 1) ltac:(lia)). lia. }
      unfold pivot_parts. rewrite Swap_length.
      split; [lia|]. split; [lia|]. split; [lia|]. split; [lia|].
      split; [lia|]. split; [by rewrite K_Swap_ne by lia|].
      split; [|split; [|split]].
      + intros i Hi. rewrite K_Swap_ne by lia. apply Hlt; lia.
      + intros i Hi. rewrite K_Swap_ne by lia. apply Hle; lia.
      + intros i Hi. assert (i = b) as -> by lia.
        by rewrite K_Swap_l by lia.
      + intros i Hi. destruct (decide (i = hi - 1)) as [->|].
        * rewrite K_Swap_r by lia. apply Hge; lia.
        * rewrite K_Swap_ne by lia. apply Hge; lia. }
  destruct H1 as (data1 & c1 & d1 & -> & Hinv1 & Hperm1).
  destruct Hinv1 as (_ & _ & Hbc1 & Hc1 & Hlen1 & Hp1 & Hlt1 & Hle1 & Heq1 & Hge1).
  (* second test: [b - 1] *)
  assert (H2 : exists b2 d2,
             (if negb (Less data1 (b - 1) lo) then (b - 1, S d1) else (b, d1))
             = (b2, d2)
             /\ pivot_parts key lo hi p data1 a b2 c1 /\ b - 1 <= b2 <= b).
  { rewrite Less_K by lia. rewrite Hp1.
    destruct (Z.ltb_spec (K data1 (b - 1)) p) as [Hlt'|Hnot]; simpl.
    - exists b, d1. split; [done|]. split; [|lia]. by repeat split.
    - exists (b - 1), (S d1). split; [done|]. split; [|lia].
      assert (Hba : a <= b - 1).
      { destruct (decide (a <= b - 1)); [done|].
        specialize (Hlt1 (b - 1) ltac:(lia)). lia. }
      repeat split; try done; try lia.
      + intros i Hi. apply Hle1. lia.
      + intros i Hi. destruct (decide (i = b - 1)) as [->|].
        * specialize (Hle1 (b - 1) ltac:(lia)). lia.
        * apply Heq1. lia. }
  destruct H2 as (b2 & d2 & -> & Hinv2 & Hb2).
  destruct Hinv2 as (_ & Hab2 & Hbc2 & _ & _ & _ & _ & Hle2 & Heq2 & _).
  (* third test: [m] *)
  rewrite Less_K by lia. rewrite Hp1.
  destruct (Z.ltb_spec (K data1 m) p) as [Hlt'|Hnot]; simpl.
  - exists data1, b2, c1, d2. split; [done|]. split; [|done].
    by repeat split.
  - assert (Hma : a <= m).
    { destruct (decide (a <= m)); [done|].
      specialize (Hlt1 m ltac:(lia)). lia. }
    assert (Hkm : K data1 m = p).
    { specialize (Hle2 m ltac:(lia)). lia. }
    exists (Swap data1 m (b2 - 1)), (b2 - 1), c1, (S d2). split; [done|].
    split.
    + unfold pivot_parts. rewrite Swap_length.
      split; [lia|]. split; [lia|]. split; [lia|]. split; [lia|].
      split; [lia|]. split; [by rewrite K_Swap_ne by lia|].
      split; [|split; [|split]].
      * intros i Hi. rewrite K_Swap_ne by lia. apply Hlt1; lia.
      * intros i Hi. destruct (decide (i = m)) as [->|].
        -- rewrite K_Swap_l by lia. apply Hle2. lia.
        -- rewrite K_Swap_ne by lia. apply Hle2. lia.
      * intros i Hi. destruct (decide (i = b2 - 1)) as [->|].
        -- by rewrite K_Swap_r by lia.
        -- rewrite K_Swap_ne by lia. apply Heq2. lia.
      * intros i Hi. rewrite K_Swap_ne by lia. apply Hge1; lia.
    + eapply seg_perm_trans; [exact Hperm1|]. apply seg_perm_one; lia.
Qed.

Lemma choose_pivot_spec (data : list A) lo hi :
  12 < hi - lo -> hi <= length data ->
  seg_perm lo hi data (GoSort.choose_pivot less data lo hi)
  /\ (K (GoSort.choose_pivot less data lo hi) lo
      <= K (GoSort.choose_pivot less data lo hi) (hi - 1))%Z.
Proof.
  intros Hn Hlen. unfold GoSort.choose_pivot.
  pose proof (Nat.div_mod_eq (lo + hi) 2) as E1.
  pose proof (Nat.mod_upper_bound (lo + hi) 2 ltac:(lia)) as E2.
  pose proof (Nat.div_mod_eq (hi - lo) 8) as E3.
  pose proof (Nat.mod_upper_bound (hi - lo) 8 ltac:(lia)) as E4.
  set (m := (lo + hi) / 2) in *. set (s := (hi - lo) / 8) in *.
  clearbody m s.
  assert (Hpre : exists data0,
             (if 40 <? hi - lo
              then GoSort.medianOfThree less
                     (GoSort.medianOfThree less
                        (GoSort.medianOfThree less data lo (lo + s)
                           (lo + 2 * s)) m (m - s) (m + s))
                     (hi - 1) (hi - 1 - s) (hi - 1 - 2 * s)
              else data) = data0
             /\ seg_perm lo hi data data0).
  { destruct (Nat.ltb_spec 40 (hi - lo)) as [Hbig|Hsmall].
    - eexists. split; [reflexivity|].
      destruct (medianOfThree_spec data lo hi lo (lo + s) (lo + 2 * s))
        as [Hp1 _]; [lia..|].
      pose proof (seg_perm_length _ _ _ _ Hp1) as Hl1.
      destruct (medianOfThree_spec
                  (GoSort.medianOfThree less data lo (lo + s) (lo + 2 * s))
                  lo hi m (m - s) (m + s)) as [Hp2 _]; [lia..|].
      pose proof (seg_perm_length _ _ _ _ Hp2) as Hl2.
      destruct (medianOfThree_spec
                  (GoSort.medianOfThree less
                     (GoSort.medianOfThree less data lo (lo + s)
                        (lo + 2 * s)) m (m - s) (m + s))
                  lo hi (hi - 1) (hi - 1 - s) (hi - 1 - 2 * s))
        as [Hp3 _]; [lia..|].
      eapply seg_perm_trans; [exact Hp1|].
      eapply seg_perm_trans; [exact Hp2|exact Hp3].
    - exists data. split; [done|constructor]. }
  destruct Hpre as (data0 & -> & Hp0).
  pose proof (seg_perm_length _ _ _ _ Hp0) as Hl0.
  destruct (medianOfThree_spec data0 lo hi lo m (hi - 1)) as [Hp Hk]; [lia..|].
  split; [by eapply seg_perm_trans|lia].
Qed.

(** [doPivot] splits the segment around a pivot key: smaller or equal keys,
    then a non-empty run of keys equal to the pivot, then larger or equal
    keys. *)
Lemma doPivot_spec (data : list A) lo hi :
  12 < hi - lo -> hi <= length data ->
  exists data' mlo mhi p,
    GoSort.doPivot less data lo hi = (data', mlo, mhi)
    /\ lo <= mlo /\ mlo < mhi /\ mhi <= hi
    /\ seg_perm lo hi data data'
    /\ (forall i, lo <= i < mlo -> (K data' i <= p)%Z)
    /\ (forall i, mlo <= i < mhi -> K data' i = p)
    /\ (forall i, mhi <= i < hi -> (p <= K data' i)%Z).
Proof.
  intros Hn Hlen. unfold GoSort.doPivot.
  destruct (choose_pivot_spec data lo hi Hn Hlen) as [Hp1 Hk1].
  pose proof (seg_perm_length _ _ _ _ Hp1) as Hl1.
  remember (GoSort.choose_pivot less data lo hi) as data1 eqn:E1. clear E1.
  set (p := K data1 lo).
  (* the first scan *)
  destruct (scan_up_spec (fun i => Less data1 i lo) (hi - 1)
              (hi - 1 - (lo + 1)) (lo + 1))
    as (Ha & Haall & _ & _); [lia|].
  remember (GoSort.scan_up (fun i => Less data1 i lo) (lo + 1) (hi - 1)
              (hi - 1 - (lo + 1))) as a eqn:Ea. clear Ea.
  specialize (Ha ltac:(lia)).
  (* the partitioning loop *)
  destruct (partition_loop_spec lo hi p a (hi - lo) data1 a (hi - 1))
    as (data2 & b & -> & Hinv2 & Hp2); [|lia|].
  { unfold pivot_scan. repeat split; try lia; try done.
    - intros i Hi. specialize (Haall i ltac:(lia)). simpl in Haall.
      rewrite Less_K in Haall by lia. by apply Z.ltb_lt in Haall.
    - intros i Hi. assert (i = hi - 1) as -> by lia. done. }
  destruct Hinv2 as (Hloa & Hab & _ & Hb & _ & Hl2 & Hp & Hlt & Hle & Hge).
  assert (Hparts : pivot_parts key lo hi p data2 a b b).
  { repeat split; try done; try lia. }
  (* the equality tests and the protection loop *)
  assert (Hstage : exists data3 a3 b3 c3,
             (let '(data, b0, c, protect) :=
                if negb (hi - b <? 5) && (hi - b <? (hi - lo) / 4)
                then
                  let '(data, b0, c, dups) :=
                    GoSort.pivot_dups less data2 lo ((lo + hi) / 2) hi b b in
                  (data, b0, c, 1 <? dups)
                else (data2, b, b, hi - b <? 5) in
              let '(data0, b1) :=
                if protect then GoSort.protect_loop less (hi - lo) data lo a b0
                else (data, b0) in
              (Swap data0 lo (b1 - 1), b1 - 1, c))
             = (Swap data3 lo (b3 - 1), b3 - 1, c3)
             /\ pivot_parts key lo hi p data3 a3 b3 c3
             /\ seg_perm (S lo) hi data2 data3).
  { assert (Hprot : forall d (b0 c0 : nat) (protect : bool),
               pivot_parts key lo hi p d a b0 c0 ->
               seg_perm (S lo) hi data2 d ->
               exists data3 a3 b3,
                 (let '(data0, b1) :=
                    if protect
                    then GoSort.protect_loop less (hi - lo) d lo a b0
                    else (d, b0) in
                  (Swap data0 lo (b1 - 1), b1 - 1, c0))
                 = (Swap data3 lo (b3 - 1), b3 - 1, c0)
                 /\ pivot_parts key lo hi p data3 a3 b3 c0
                 /\ seg_perm (S lo) hi data2 data3).
    { intros d b0 c0 [|] Hd Hpd.
      - destruct (protect_loop_spec lo hi p c0 (hi - lo) d a b0 Hd)
          as (d' & b' & -> & Hd' & Hpd').
        { destruct Hd as (? & ? & ? & ? & _). lia. }
        exists d', b', b'. split; [done|]. split; [done|].
        by eapply seg_perm_trans.
      - by exists d, a, b0. }
    destruct (negb (hi - b <? 5) && (hi - b <? (hi - lo) / 4)) eqn:Hcond.
    - apply andb_prop in Hcond as [H5 Hq].
      apply negb_true_iff, Nat.ltb_ge in H5. apply Nat.ltb_lt in Hq.
      destruct (pivot_dups_spec lo hi p data2 a b Hparts)
        as (d & b' & c' & dups & -> & Hd & Hpd); [lia..|].
      destruct (Hprot d b' c' (1 <? dups) Hd Hpd)
        as (data3 & a3 & b3 & Heq & Hd3 & Hp3).
      by exists data3, a3, b3, c'.
    - destruct (Hprot data2 b b (hi - b <? 5) Hparts ltac:(constructor))
        as (data3 & a3 & b3 & Heq & Hd3 & Hp3).
      by exists data3, a3, b3, b. }
  destruct Hstage as (data3 & a3 & b3 & c3 & -> & Hd3 & Hp3).
  destruct Hd3 as (Hloa3 & Hab3 & Hbc3 & Hc3 & Hl3 & Hpk3 & Hlt3 & Hle3
                   & Heq3 & Hge3).
  exists (Swap data3 lo (b3 - 1)), (b3 - 1), c3, p.
  split; [done|]. split; [lia|]. split; [lia|]. split; [lia|].
  split; [|split; [|split]].
  - eapply seg_perm_trans; [exact Hp1|].
    eapply seg_perm_trans.
    { eapply seg_perm_mono; [| | |exact Hp2]; lia. }
    eapply seg_perm_trans.
    { eapply seg_perm_mono; [| | |exact Hp3]; lia. }
    apply seg_perm_one; lia.
  - intros i Hi. destruct (decide (i = lo)) as [->|].
    + rewrite K_Swap_l by lia.
      destruct (decide (b3 - 1 = lo)) as [->|]; [lia|].
      destruct (decide (b3 - 1 < a3)).
      * specialize (Hlt3 (b3 - 1) ltac:(lia)). lia.
      * apply Hle3. lia.
    + rewrite K_Swap_ne by lia.
      destruct (decide (i < a3)).
      * specialize (Hlt3 i ltac:(lia)). lia.
      * apply Hle3. lia.
  - intros i Hi. destruct (decide (i = b3 - 1)) as [->|].
    + by rewrite K_Swap_r by lia.
    + rewrite K_Swap_ne by lia. apply Heq3. lia.
  - intros i Hi. rewrite K_Swap_ne by lia. apply Hge3. lia.
Qed.

(** *** [heapSort] *)

Lemma siftDown_loop_S fuel (data : list A) root hi first :
  GoSort.siftDown_loop less (S fuel) data root hi first
  = if hi <=? 2 * root + 1 then data
    else
      let child :=
        if (2 * root + 1 + 1 <? hi)
           && Less data (first + (2 * root + 1)) (first + (2 * root + 1) + 1)
        then 2 * root + 1 + 1 else 2 * root + 1 in
      if negb (Less data (first + root) (first + child)) then data
      else GoSort.siftDown_loop less fuel
             (Swap data (first + root) (first + child)) child hi first.
Proof. reflexivity. Qed.

(** [siftDown] restores heap order from [lo] on when only [root] may be out
    of order and the parent of [root], if it is in the range, dominates the
    children of [root]. *)
Lemma siftDown_loop_spec first hi lo fuel : forall (data : list A) root,
  lo <= root -> first + hi <= length data -> hi - root <= fuel ->
  (forall i, lo <= i < hi -> i <> root -> heap_ok key first hi data i) ->
  (forall i, lo <= i < hi -> root = 2 * i + 1 \/ root = 2 * i + 2 ->
     forall c, c = 2 * root + 1 \/ c = 2 * root + 2 -> c < hi ->
       (K data (first + c) <= K data (first + i))%Z) ->
  (forall i, lo <= i < hi ->
     heap_ok key first hi (GoSort.siftDown_loop less fuel data root hi first) i)
  /\ seg_perm (first + lo) (first + hi) data
       (GoSort.siftDown_loop less fuel data root hi first).
Proof.
  induction fuel as [|fuel IH]; intros data root Hlo Hlen Hfuel H1 H2.
  { simpl. split; [|constructor]. intros i Hi. apply H1; lia. }
  rewrite siftDown_loop_S. cbv zeta.
  destruct (Nat.leb_spec hi (2 * root + 1)) as [Hleaf|Hchild].
  { split; [|constructor]. intros i Hi.
    destruct (decide (i = root)) as [->|]; [|by apply H1].
    intros c Hc Hch. lia. }
  (* the larger child *)
  assert (Hbig : exists child,
             (if (2 * root + 1 + 1 <? hi)
                 && Less data (first + (2 * root + 1))
                      (first + (2 * root + 1) + 1)
              then 2 * root + 1 + 1 else 2 * root + 1) = child
             /\ (child = 2 * root + 1 \/ child = 2 * root + 2)
             /\ child < hi
             /\ forall c, c = 2 * root + 1 \/ c = 2 * root + 2 -> c < hi ->
                  (K data (first + c) <= K data (first + child))%Z).
  { destruct (Nat.ltb_spec (2 * root + 1 + 1) hi) as [Htwo|Hone];
      cbn [andb].
    - rewrite Less_K by lia.
      destruct (Z.ltb_spec (K data (first + (2 * root + 1)))
                  (K data (first + (2 * root + 1) + 1))) as [Hl|Hr].
      + eexists. split; [reflexivity|]. split; [lia|]. split; [lia|].
        intros c [->| ->] Hc.
        * replace (first + (2 * root + 1 + 1))
            with (first + (2 * root + 1) + 1) by lia. lia.
        * replace (2 * root + 2) with (2 * root + 1 + 1) by lia. lia.
      + eexists. split; [reflexivity|]. split; [lia|]. split; [lia|].
        intros c [->| ->] Hc; [lia|].
        replace (first + (2 * root + 2))
          with (first + (2 * root + 1) + 1) by lia. lia.
    - eexists. split; [reflexivity|]. split; [lia|]. split; [lia|].
      intros c [->| ->] Hc; lia. }
  destruct Hbig as (child & -> & Hchild_is & Hchild_lt & Hchild_max).
  rewrite Less_K by lia.
  destruct (Z.ltb_spec (K data (first + root)) (K data (first + child)))
    as [Hswap|Hstop]; cbn [negb].
  2:{ split; [|constructor]. intros i Hi.
      destruct (decide (i = root)) as [->|]; [|by apply H1].
      intros c Hc Hch. specialize (Hchild_max c Hc Hch). lia. }
  destruct (IH (Swap data (first + root) (first + child)) child)
    as [Hheap Hperm].
  { lia. } { by rewrite Swap_length. } { lia. }
  { (* every node but [child] is in heap order after the swap *)
    intros i Hi Hne c Hc Hch.
    destruct (decide (i = root)) as [->|Hir].
    - rewrite K_Swap_l by lia.
      destruct (decide (c = child)) as [->|Hcc].
      + rewrite K_Swap_r by lia. lia.
      + rewrite K_Swap_ne by lia. by apply Hchild_max.
    - rewrite (K_Swap_ne _ _ _ (first + i)) by lia.
      destruct (decide (c = root)) as [->|Hcr].
      + rewrite K_Swap_l by lia. apply (H2 i); [lia|lia|lia|done].
      + destruct (decide (c = child)) as [->|Hcc]; [lia|].
        rewrite K_Swap_ne by lia. apply (H1 i); [lia|done|done|done]. }
  { (* the parent of [child] is [root], which now holds the larger key *)
    intros i Hi Hpar c Hc Hch.
    assert (i = root) as -> by lia.
    rewrite K_Swap_l by lia. rewrite K_Swap_ne by lia.
    apply (H1 child); [lia|lia|done|done]. }
  split; [done|].
  eapply seg_perm_swap with (i := first + root) (j := first + child);
    [lia..|done].
Qed.

Lemma heapify_spec first hi n : forall data : list A,
  first + hi <= length data ->
  (forall i, n <= i < hi -> heap_ok key first hi data i) ->
  (forall i, i < hi ->
     heap_ok key first hi (GoSort.heapify less data n hi first) i)
  /\ seg_perm first (first + hi) data (GoSort.heapify less data n hi first).
Proof.
  induction n as [|n IH]; intros data Hlen Hheap.
  { simpl. split; [|constructor]. intros i Hi. apply Hheap. lia. }
  simpl. unfold GoSort.siftDown.
  destruct (siftDown_loop_spec first hi n hi data n) as [Hh Hp];
    [lia..| | |].
  { intros i Hi Hne. apply Hheap. lia. }
  { intros i Hi Hpar. lia. }
  destruct (IH (GoSort.siftDown_loop less hi data n hi first)) as [Hh2 Hp2].
  { by rewrite (seg_perm_length _ _ _ _ Hp). }
  { done. }
  split; [done|].
  eapply seg_perm_trans; [|exact Hp2].
  eapply seg_perm_mono; [| | |exact Hp]; lia.
Qed.

(** The root of a heap holds its largest key. *)
Lemma heap_root_max first n (data : list A) :
  (forall i, i < n -> heap_ok key first n data i) ->
  forall j, j < n -> (K data (first + j) <= K data (first + 0))%Z.
Proof.
  intros Hheap j. induction j as [j IH] using lt_wf_ind. intros Hj.
  destruct (decide (j = 0)) as [->|Hj0]; [lia|].
  pose proof (Nat.div_mod_eq (j - 1) 2) as E1.
  pose proof (Nat.mod_upper_bound (j - 1) 2 ltac:(lia)) as E2.
  set (q := (j - 1) / 2) in *. clearbody q.
  transitivity (K data (first + q)).
  - apply (Hheap q); lia.
  - apply IH; lia.
Qed.

Lemma heap_pop_spec first hi n : forall data : list A,
  n <= hi -> first + hi <= length data ->
  (forall i, i < n -> heap_ok key first n data i) ->
  seg_sorted key (first + n) (first + hi) data ->
  (forall j k, j < n -> n <= k < hi ->
     (K data (first + j) <= K data (first + k))%Z) ->
  seg_sorted key first (first + hi) (GoSort.heap_pop less data n first)
  /\ seg_perm first (first + hi) data (GoSort.heap_pop less data n first).
Proof.
  induction n as [|n IH]; intros data Hn Hlen Hheap Hsorted Hlow.
  { simpl. split; [|constructor]. by rewrite Nat.add_0_r in Hsorted. }
  simpl. unfold GoSort.siftDown.
  pose proof (heap_root_max first (S n) data Hheap) as Hmax.
  rewrite Nat.add_0_r in Hmax.
  set (d1 := Swap data first (first + n)).
  assert (Hl1 : length d1 = length data) by apply Swap_length.
  assert (Hk1 : forall k, k <> first -> k <> first + n -> K d1 k = K data k).
  { intros k ? ?. apply K_Swap_ne; lia. }
  assert (Hk1f : K d1 first = K data (first + n)).
  { apply K_Swap_l; lia. }
  assert (Hk1n : K d1 (first + n) = K data first).
  { apply K_Swap_r; lia. }
  destruct (siftDown_loop_spec first n 0 n d1 0) as [Hh2 Hp2]; [lia..| | |].
  { intros i Hi Hne c Hc Hch.
    rewrite !Hk1 by lia. apply (Hheap i); [lia|done|lia]. }
  { intros i Hi Hpar. lia. }
  rewrite Nat.add_0_r in Hp2.
  set (d2 := GoSort.siftDown_loop less n d1 0 n first) in *.
  assert (Hl2 : length d2 = length data).
  { by rewrite (seg_perm_length _ _ _ _ Hp2). }
  assert (Hk2 : forall k, first + n <= k -> K d2 k = K d1 k).
  { intros k Hk. apply (seg_perm_K_outside first (first + n)); [done|lia]. }
  destruct (IH d2) as [Hs3 Hp3]; [lia|lia|..].
  { intros i Hi. apply Hh2. lia. }
  { intros p q Hp Hpq Hq. rewrite !Hk2 by lia.
    destruct (decide (p = first + n)) as [->|Hpn].
    - destruct (decide (q = first + n)) as [->|Hqn]; [lia|].
      rewrite Hk1n, Hk1 by lia.
      specialize (Hlow 0 (q - first) ltac:(lia) ltac:(lia)).
      rewrite Nat.add_0_r in Hlow.
      by replace (first + (q - first)) with q in Hlow by lia.
    - rewrite !Hk1 by lia. apply Hsorted; lia. }
  { intros j k Hj Hk. rewrite (Hk2 (first + k)) by lia.
    apply (seg_perm_bound (fun z => (z <= K d1 (first + k))%Z)
             first (first + n) d1 d2 Hp2); [|lia].
    intros i Hi.
    destruct (decide (k = n)) as [->|Hkn].
    - rewrite Hk1n. destruct (decide (i = first)) as [->|].
      + rewrite Hk1f. apply Hmax. lia.
      + rewrite Hk1 by lia.
        specialize (Hmax (i - first) ltac:(lia)).
        by replace (first + (i - first)) with i in Hmax by lia.
    - rewrite (Hk1 (first + k)) by lia.
      destruct (decide (i = first)) as [->|].
      + rewrite Hk1f. apply Hlow; lia.
      + rewrite Hk1 by lia.
        specialize (Hlow (i - first) k ltac:(lia) ltac:(lia)).
        by replace (first + (i - first)) with i in Hlow by lia. }
  split; [done|].
  apply (seg_perm_trans _ _ _ d1); [apply seg_perm_one; lia|].
  eapply seg_perm_trans; [|exact Hp3].
  eapply seg_perm_mono; [| | |exact Hp2]; lia.
Qed.

Lemma heapSort_sorted (data : list A) a b :
  a <= b -> b <= length data ->
  seg_sorted key a b (GoSort.heapSort less data a b)
  /\ seg_perm a b data (GoSort.heapSort less data a b).
Proof.
  intros Hab Hb. unfold GoSort.heapSort.
  pose proof (Nat.div_mod_eq (b - a - 1) 2) as E1.
  pose proof (Nat.mod_upper_bound (b - a - 1) 2 ltac:(lia)) as E2.
  set (n := (b - a - 1) / 2) in *. clearbody n.
  destruct (heapify_spec a (b - a) (n + 1) data) as [Hh Hp]; [lia| |].
  { intros i Hi c Hc Hch. lia. }
  destruct (heap_pop_spec a (b - a) (b - a)
              (GoSort.heapify less data (n + 1) (b - a) a)) as [Hs Hp2].
  { lia. } { rewrite (seg_perm_length _ _ _ _ Hp). lia. } { done. }
  { intros p q Hp' Hpq Hq. lia. }
  { intros j k Hj Hk. lia. }
  replace (a + (b - a)) with b in * by lia.
  split; [done|]. by eapply seg_perm_trans.
Qed.

(** *** [quickSort] and [Sort] *)

Lemma seg_sorted_join (data : list A) a mlo mhi b p :
  seg_sorted key a mlo data -> seg_sorted key mhi b data ->
  (forall i, a <= i < mlo -> (K data i <= p)%Z) ->
  (forall i, mlo <= i < mhi -> K data i = p) ->
  (forall i, mhi <= i < b -> (p <= K data i)%Z) ->
  seg_sorted key a b data.
Proof.
  intros Hl Hr Hle Heq Hge i j Hi Hij Hj.
  destruct (decide (j < mlo)); [apply Hl; lia|].
  destruct (decide (mhi <= i)); [apply Hr; lia|].
  assert (Hki : (K data i <= p)%Z).
  { destruct (decide (i < mlo)); [apply Hle; lia|]. rewrite Heq; lia. }
  assert (Hkj : (p <= K data j)%Z).
  { destruct (decide (mhi <= j)); [apply Hge; lia|]. rewrite Heq; lia. }
  lia.
Qed.

Lemma seg_sorted_outside a b a' b' (data data' : list A) :
  seg_perm a' b' data data' -> b <= a' \/ b' <= a ->
  seg_sorted key a b data -> seg_sorted key a b data'.
Proof.
  intros Hp Hout Hs i j Hi Hij Hj.
  rewrite !(seg_perm_K_outside a' b' data data') by (done || lia).
  by apply Hs.
Qed.

Lemma quickSort_sorted maxDepth : forall (data : list A) a b,
  a <= b -> b <= length data ->
  seg_sorted key a b (GoSort.quickSort less data a b maxDepth)
  /\ seg_perm a b data (GoSort.quickSort less data a b maxDepth).
Proof.
  induction maxDepth as [|d IH]; intros data a b Hab Hb; simpl.
  - destruct (12 <? b - a).
    + by apply heapSort_sorted.
    + by apply sort_small_sorted.
  - destruct (Nat.ltb_spec 12 (b - a)) as [Hbig|Hsmall];
      [|by apply sort_small_sorted].
    destruct (doPivot_spec data a b Hbig Hb)
      as (data1 & mlo & mhi & p & -> & Hlo & Hmid & Hhi & Hp1 & Hle & Heq & Hge).
    pose proof (seg_perm_length _ _ _ _ Hp1) as Hl1.
    destruct (mlo - a <? b - mhi).
    + destruct (IH data1 a mlo) as [Hs2 Hp2]; [lia..|].
      pose proof (seg_perm_length _ _ _ _ Hp2) as Hl2.
      remember (GoSort.quickSort less data1 a mlo d) as data2 eqn:E2.
      clear E2.
      destruct (IH data2 mhi b) as [Hs3 Hp3]; [lia..|].
      remember (GoSort.quickSort less data2 mhi b d) as data3 eqn:E3.
      clear E3. split.
      * apply (seg_sorted_join data3 a mlo mhi b p).
        -- apply (seg_sorted_outside a mlo mhi b data2); [done|lia|done].
        -- done.
        -- intros i Hi.
           rewrite (seg_perm_K_outside mhi b data2 data3) by (done || lia).
           by apply (seg_perm_bound (fun z => (z <= p)%Z) a mlo data1 data2).
        -- intros i Hi.
           rewrite (seg_perm_K_outside mhi b data2 data3) by (done || lia).
           rewrite (seg_perm_K_outside a mlo data1 data2) by (done || lia).
           by apply Heq.
        -- apply (seg_perm_bound (fun z => (p <= z)%Z) mhi b data2 data3);
             [done|].
           intros i Hi.
           rewrite (seg_perm_K_outside a mlo data1 data2) by (done || lia).
           by apply Hge.
      * eapply seg_perm_trans; [exact Hp1|].
        eapply seg_perm_trans.
        { eapply seg_perm_mono; [| | |exact Hp2]; lia. }
        eapply seg_perm_mono; [| | |exact Hp3]; lia.
    + destruct (IH data1 mhi b) as [Hs2 Hp2]; [lia..|].
      pose proof (seg_perm_length _ _ _ _ Hp2) as Hl2.
      remember (GoSort.quickSort less data1 mhi b d) as data2 eqn:E2.
      clear E2.
      destruct (IH data2 a mlo) as [Hs3 Hp3]; [lia..|].
      remember (GoSort.quickSort less data2 a mlo d) as data3 eqn:E3.
      clear E3. split.
      * apply (seg_sorted_join data3 a mlo mhi b p).
        -- done.
        -- apply (seg_sorted_outside mhi b a mlo data2); [done|lia|done].
        -- apply (seg_perm_bound (fun z => (z <= p)%Z) a mlo data2 data3);
             [done|].
           intros i Hi.
           rewrite (seg_perm_K_outside mhi b data1 data2) by (done || lia).
           by apply Hle.
        -- intros i Hi.
           rewrite (seg_perm_K_outside a mlo data2 data3) by (done || lia).
           rewrite (seg_perm_K_outside mhi b data1 data2) by (done || lia).
           by apply Heq.
        -- intros i Hi.
           rewrite (seg_perm_K_outside a mlo data2 data3) by (done || lia).
           by apply (seg_perm_bound (fun z => (p <= z)%Z) mhi b data1 data2).
      * eapply seg_perm_trans; [exact Hp1|].
        eapply seg_perm_trans.
        { eapply seg_perm_mono; [| | |exact Hp2]; lia. }
        eapply seg_perm_mono; [| | |exact Hp3]; lia.
Qed.

Lemma seg_sorted_StronglySorted (l : list A) :
  seg_sorted key 0 (length l) l ->
  StronglySorted (fun x y => (key x <= key y)%Z) l.
Proof.
  induction l as [|x l IH]; intros Hs; [constructor|].
  constructor.
  - apply IH. intros i j Hi Hij Hj.
    apply (Hs (S i) (S j)); simpl; lia.
  - apply Forall_forall. intros y Hy.
    apply list_elem_of_lookup in Hy as [i Hi].
    pose proof (lookup_lt_Some _ _ _ Hi) as Hlt.
    specialize (Hs 0 (S i) ltac:(lia) ltac:(lia) ltac:(simpl; lia)).
    unfold key_at in Hs. simpl in Hs. by rewrite Hi in Hs.
Qed.

(** [sort.Sort] returns an ascending permutation of its input. *)
Lemma Sort_sorted (l : list A) :
  StronglySorted (fun x y => (key x <= key y)%Z) (GoSort.Sort less l)
  /\ GoSort.Sort less l ≡ₚ l.
Proof.
  unfold GoSort.Sort.
  destruct (quickSort_sorted (GoSort.maxDepth (length l)) l 0 (length l))
    as [Hs Hp]; [lia..|].
  split; [|by eapply seg_perm_Permutation].
  apply seg_sorted_StronglySorted.
  by rewrite (seg_perm_length _ _ _ _ Hp).
Qed.

End SortCorrect.

(** ** The ordering applied by [CompleteMultipartUpload] *)

(** The Complete request carries the marshalled [finalize parts]. *)
Lemma CompleteMultipartUpload_request w imur parts t bs :
  w_xml_Marshal w (finalize parts) = Ok bs ->
  exists res closes,
    (CompleteMultipartUpload w imur parts t).2
    = t ++ EvDo "POST" (Key imur) ("uploadId=" +:+ UploadID imur)
             ("uploadId=" +:+ UploadID imur) [] (Buffer bs) res :: closes.
Proof.
  intros Hm. unfold CompleteMultipartUpload, bucket_do. io_unfold.
  rewrite Hm.
  match goal with
  | |- context [w_do w ?t' ?m ?k ?p ?s ?o ?d] =>
      destruct (w_do w t' m k p s o d) as [resp|err]
  end; simpl; eexists _, _.
  - by rewrite <- app_assoc.
  - done.
Qed.

Lemma finalize_sorted parts :
  ascending (finalize parts) /\ finalize parts ≡ₚ parts.
Proof. apply (Sort_sorted PartNumber parts). Qed.

(** C3 (amended). The ordering applied before the Complete request is
    ascending by ordinal and drops or merges nothing: the output is a
    permutation of the input, of the same length, and for every ordinal it
    holds the entries the input holds for it.  (Their relative order is not
    kept in general.) *)
Theorem finalize_ascending_permutation (parts : list UploadPart) :
  ascending (finalize parts)
  /\ finalize parts ≡ₚ parts
  /\ length (finalize parts) = length parts
  /\ forall n : Z,
       filter (fun p => PartNumber p = n) (finalize parts)
       ≡ₚ filter (fun p => PartNumber p = n) parts.
Proof.
  destruct (finalize_sorted parts) as [Hs Hp].
  split; [done|]. split; [done|]. split; [by rewrite Hp|].
  intros n. by rewrite Hp.
Qed.

(** C3 as stated fails: [sort.Sort] is not stable.  With part 2 transferred
    twice and part 1 last, the pass with gap 6 that [quickSort] runs on a
    short slice moves the first result for part 2 behind the second one. *)
Lemma finalize_stable_counterexample :
  finalize retried_parts
  = [mkUploadPart 1 "g"; mkUploadPart 2 "b"; mkUploadPart 2 "a";
     mkUploadPart 3 "c"; mkUploadPart 4 "d"; mkUploadPart 5 "e";
     mkUploadPart 6 "f"]
  /\ ~ same_order_among_equal retried_parts (finalize retried_parts).
Proof.
  split; [vm_compute; reflexivity|].
  intros H. specialize (H 2). vm_compute in H. discriminate H.
Qed.

Lemma strictly_ascending_NoDup parts :
  strictly_ascending parts -> NoDup (PartNumber <$> parts).
Proof.
  induction 1 as [|x l _ IH Hx]; [constructor|].
  rewrite fmap_cons. constructor; [|done].
  intros (y & Hy & Hin)%list_elem_of_fmap.
  rewrite Forall_forall in Hx. specialize (Hx y Hin). lia.
Qed.

Lemma ascending_NoDup_strict parts :
  ascending parts -> NoDup (PartNumber <$> parts) -> strictly_ascending parts.
Proof.
  induction 1 as [|x l _ IH Hx]; intros Hnd; [constructor|].
  rewrite fmap_cons in Hnd. apply NoDup_cons in Hnd as [Hnot Hnd].
  constructor; [by apply IH|].
  rewrite Forall_forall in Hx |- *. intros y Hy.
  specialize (Hx y Hy).
  assert (PartNumber x <> PartNumber y); [|lia].
  intros E. apply Hnot. rewrite E. apply list_elem_of_fmap. by exists y.
Qed.

Lemma strictly_ascending_unique l1 l2 :
  strictly_ascending l1 -> strictly_ascending l2 -> l1 ≡ₚ l2 -> l1 = l2.
Proof.
  apply StronglySorted_unique_strong. intros x1 x2 _ _ H1 H2. lia.
Qed.

(** Whatever procedure returns an ascending permutation of its input is
    canonical on results with pairwise distinct ordinals; this does not
    depend on how [sort.Sort] is implemented. *)
Section AnySort.
Variable sorter : list UploadPart -> list UploadPart.
Hypothesis sorter_sorted :
  forall parts, ascending (sorter parts) /\ sorter parts ≡ₚ parts.

Lemma sorter_canonical (parts parts' : list UploadPart) :
  NoDup (PartNumber <$> parts) ->
  parts' ≡ₚ parts ->
  strictly_ascending (sorter parts')
  /\ sorter parts' = sorter parts
  /\ sorter (sorter parts') = sorter parts'
  /\ (strictly_ascending parts -> sorter parts' = parts).
Proof.
  intros Hnd Hperm.
  destruct (sorter_sorted parts) as [Hs Hp].
  destruct (sorter_sorted parts') as [Hs' Hp'].
  destruct (sorter_sorted (sorter parts')) as [Hs'' Hp''].
  assert (Hstrict : forall l, l ≡ₚ parts -> ascending l -> strictly_ascending l).
  { intros l Hl Ha. apply ascending_NoDup_strict; [done|]. by rewrite Hl. }
  assert (H1 : strictly_ascending (sorter parts')).
  { apply Hstrict; [by rewrite Hp'|done]. }
  split; [done|]. split; [|split].
  - apply strictly_ascending_unique; [done| |by rewrite Hp', Hp].
    by apply Hstrict.
  - apply strictly_ascending_unique; [|done|done].
    apply Hstrict; [by rewrite Hp'', Hp'|done].
  - intros Hsorted. apply strictly_ascending_unique; [done..|].
    by rewrite Hp'.
Qed.
End AnySort.

(** C4 (amended). For results with pairwise distinct ordinals the ordering
    is canonical: every permutation of them is mapped to the same strictly
    ascending sequence, applying the ordering twice is applying it once, and
    a sequence that is already strictly ascending is returned unchanged. *)
Theorem finalize_canonical (parts parts' : list UploadPart) :
  NoDup (PartNumber <$> parts) ->
  parts' ≡ₚ parts ->
  strictly_ascending (finalize parts')
  /\ finalize parts' = finalize parts
  /\ finalize (finalize parts') = finalize parts'
  /\ (strictly_ascending parts -> finalize parts' = parts).
Proof. apply (sorter_canonical finalize finalize_sorted). Qed.

Lemma finalize_canonical_witness :
  finalize [mkUploadPart 3 "c"; mkUploadPart 1 "a"; mkUploadPart 2 "b"]
  = [mkUploadPart 1 "a"; mkUploadPart 2 "b"; mkUploadPart 3 "c"]
  /\ finalize [mkUploadPart 1 "a"; mkUploadPart 2 "b"; mkUploadPart 3 "c"]
     = [mkUploadPart 1 "a"; mkUploadPart 2 "b"; mkUploadPart 3 "c"].
Proof.
  assert (Hnd : NoDup (PartNumber <$>
                  [mkUploadPart 1 "a"; mkUploadPart 2 "b"; mkUploadPart 3 "c"])).
  { vm_compute. repeat constructor; rewrite ?elem_of_cons, ?elem_of_nil;
      intros H; repeat destruct H as [H|H]; try discriminate H; done. }
  assert (Hs : strictly_ascending
                 [mkUploadPart 1 "a"; mkUploadPart 2 "b"; mkUploadPart 3 "c"]).
  { repeat constructor; simpl; lia. }
  split.
  - apply (finalize_canonical
             [mkUploadPart 1 "a"; mkUploadPart 2 "b"; mkUploadPart 3 "c"]
             [mkUploadPart 3 "c"; mkUploadPart 1 "a"; mkUploadPart 2 "b"]);
      [exact Hnd| |exact Hs].
    change ([mkUploadPart 3 "c"] ++ [mkUploadPart 1 "a"; mkUploadPart 2 "b"]
            ≡ₚ [mkUploadPart 1 "a"; mkUploadPart 2 "b"] ++ [mkUploadPart 3 "c"]).
    apply Permutation_app_comm.
  - apply (finalize_canonical
             [mkUploadPart 1 "a"; mkUploadPart 2 "b"; mkUploadPart 3 "c"]
             [mkUploadPart 1 "a"; mkUploadPart 2 "b"; mkUploadPart 3 "c"]);
      [exact Hnd|reflexivity|exact Hs].
Defined.

(** C4 as stated fails for an ascending sequence with a repeated ordinal:
    the two results for part 7 are exchanged. *)
Lemma finalize_unchanged_counterexample :
  ascending ascending_parts_with_tie
  /\ finalize ascending_parts_with_tie <> ascending_parts_with_tie
  /\ finalize ascending_parts_with_tie
     = [mkUploadPart 1 "a"; mkUploadPart 2 "b"; mkUploadPart 3 "c";
        mkUploadPart 4 "d"; mkUploadPart 5 "e"; mkUploadPart 6 "f";
        mkUploadPart 7 "h"; mkUploadPart 7 "g"; mkUploadPart 8 "i";
        mkUploadPart 9 "j"; mkUploadPart 10 "k"; mkUploadPart 11 "l";
        mkUploadPart 12 "m"].
Proof.
  split; [|split].
  - unfold ascending, ascending_parts_with_tie.
    repeat (constructor; [|repeat constructor; simpl; lia]). constructor.
  - vm_compute. discriminate.
  - vm_compute. reflexivity.
Qed.

(** * Further properties of multipart.go *)

(** ** [UploadFile]: whole runs *)

Lemma UploadPartFromFile_ok_events w imur filePath chunk t part t' :
  UploadPartFromFile w imur filePath (Offset chunk) (Size chunk) (Number chunk) t
  = (Ok part, t') ->
  exists resp,
    t' = t ++ transfer_events imur filePath chunk resp
    /\ part = part_of chunk resp.
Proof.
  unfold UploadPartFromFile, os_Open, bucket_do, transfer_events, part_params,
    part_of. io_unfold.
  destruct (w_Open w t filePath) as [err|]; simpl; [discriminate|].
  match goal with
  | |- context [w_do w ?t' ?m ?k ?p ?s ?o ?d] =>
      destruct (w_do w t' m k p s o d) as [resp|err]
  end; simpl; [|discriminate].
  intros [= <- <-]. exists resp. split; [|done].
  by rewrite <- !app_assoc.
Qed.

(** The upload loop, when every transfer succeeds: one transfer per chunk,
    in plan order, and the parts in the same order. *)
Lemma UploadFile_loop_ok w imur filePath chunks : forall parts t ps t',
  UploadFile_loop w imur filePath chunks parts t = (Ok ps, t') ->
  exists resps,
    length resps = length chunks
    /\ t' = t ++ mjoin (zip_with (transfer_events imur filePath) chunks resps)
    /\ ps = parts ++ zip_with part_of chunks resps.
Proof.
  induction chunks as [|chunk chunks IH]; intros parts t ps t'; simpl.
  - io_unfold. intros [= <- <-]. exists []. by rewrite !app_nil_r.
  - unfold mbind, IO_bind.
    destruct (UploadPartFromFile w imur filePath (Offset chunk) (Size chunk)
                (Number chunk) t) as [[part|err] t1] eqn:E.
    + apply UploadPartFromFile_ok_events in E as (resp & -> & ->).
      intros (resps & Hlen & -> & ->)%IH.
      exists (resp :: resps). simpl. split; [by rewrite Hlen|].
      by rewrite <- !app_assoc.
    + destruct (AbortMultipartUpload w imur t1). io_unfold. discriminate.
Qed.

(** The shape of a run that returns [nil]. *)
Lemma UploadFile_nil_run w objectKey filePath partSize options t0 evs :
  UploadFile w objectKey filePath partSize options t0 = (None, t0 ++ evs) ->
  exists chunks imur evsI resps bs resp,
    w_SplitFileByPartSize w t0 filePath partSize = Ok chunks
    /\ InitiateMultipartUpload w objectKey options
         (t0 ++ [EvSplitFileByPartSize filePath partSize (Ok chunks)])
       = (Ok imur,
          (t0 ++ [EvSplitFileByPartSize filePath partSize (Ok chunks)])
          ++ evsI)
    /\ Forall (fun ev => quiet ev = true) evsI
    /\ length resps = length chunks
    /\ w_xml_Marshal w (finalize (zip_with part_of chunks resps)) = Ok bs
    /\ w_xmlUnmarshal_cmur w (body resp) = None
    /\ evs = [EvSplitFileByPartSize filePath partSize (Ok chunks)] ++ evsI
             ++ mjoin (zip_with (transfer_events imur filePath) chunks resps)
             ++ [EvDo "POST" (Key imur) ("uploadId=" +:+ UploadID imur)
                   ("uploadId=" +:+ UploadID imur) [] (Buffer bs) (Ok resp);
                 EvClose (ResRespBody "POST" ("uploadId=" +:+ UploadID imur))].
Proof.
  intros Hrun. unfold UploadFile in Hrun.
  destruct ((partSize <? MinPartSize) || (MaxPartSize <? partSize));
    [io_unfold; discriminate|].
  unfold SplitFileByPartSize in Hrun. io_unfold.
  destruct (w_SplitFileByPartSize w t0 filePath partSize) as [chunks|e0];
    [|discriminate].
  set (ts := t0 ++ [EvSplitFileByPartSize filePath partSize (Ok chunks)]) in *.
  destruct (InitiateMultipartUpload_run w objectKey options ts)
    as (evsI & HtI & HqI).
  destruct (InitiateMultipartUpload w objectKey options ts)
    as [[imur|e1] t1] eqn:EI; simpl in HtI; subst t1; [|discriminate].
  destruct (UploadFile_loop w imur filePath chunks [] (ts ++ evsI))
    as [[parts|e2] t2] eqn:EL; [|discriminate].
  apply UploadFile_loop_ok in EL as (resps & Hlen & -> & ->).
  rewrite app_nil_l in Hrun.
  unfold CompleteMultipartUpload, bucket_do in Hrun. io_unfold.
  destruct (w_xml_Marshal w (finalize (zip_with part_of chunks resps)))
    as [bs|e3] eqn:EM; simpl in Hrun.
  2:{ destruct (AbortMultipartUpload w imur _). discriminate. }
  match type of Hrun with
  | context [w_do w ?t' ?m ?k ?p ?s ?o ?d] =>
      destruct (w_do w t' m k p s o d) as [resp|e4]
  end; simpl in Hrun.
  2:{ destruct (AbortMultipartUpload w imur _). discriminate. }
  destruct (w_xmlUnmarshal_cmur w (body resp)) as [e5|] eqn:EU; simpl in Hrun.
  { destruct (AbortMultipartUpload w imur _). discriminate. }
  injection Hrun as Ht. exists chunks, imur, evsI, resps, bs, resp.
  repeat split; try done.
  subst ts. rewrite <- !app_assoc in Ht. apply app_inv_head in Ht.
  rewrite <- Ht. simpl. by rewrite <- ?app_assoc.
Qed.

Lemma InitiateMultipartUpload_events w objectKey options t :
  exists res,
    (InitiateMultipartUpload w objectKey options t).2
    = t ++ EvDo "POST" objectKey "uploads" "uploads"
             (w_addContentType w options objectKey) NoBody res
        :: match res with
           | Ok _ => [EvClose (ResRespBody "POST" "uploads")]
           | Err _ => []
           end
    /\ match res with
       | Ok resp =>
           (InitiateMultipartUpload w objectKey options t).1
           = w_xmlUnmarshal_imur w (body resp)
       | Err err =>
           (InitiateMultipartUpload w objectKey options t).1 = Err err
       end.
Proof.
  unfold InitiateMultipartUpload, bucket_do. io_unfold.
  destruct (w_do w t "POST" objectKey "uploads" "uploads" _ NoBody)
    as [resp|err] eqn:E; [exists (Ok resp)|exists (Err err)]; simpl.
  - by rewrite <- app_assoc.
  - done.
Qed.

Lemma part_requests_app t1 t2 :
  part_requests (t1 ++ t2) = part_requests t1 ++ part_requests t2.
Proof. apply omap_app. Qed.

Lemma complete_requests_app t1 t2 :
  complete_requests (t1 ++ t2) = complete_requests t1 ++ complete_requests t2.
Proof. apply omap_app. Qed.

Lemma transfer_events_requests imur filePath chunks : forall resps,
  length resps = length chunks ->
  part_requests (mjoin (zip_with (transfer_events imur filePath) chunks resps))
  = map (planned_request imur filePath) chunks
  /\ complete_requests
       (mjoin (zip_with (transfer_events imur filePath) chunks resps)) = []
  /\ filter (fun ev => is_abort ev = true)
       (mjoin (zip_with (transfer_events imur filePath) chunks resps)) = [].
Proof.
  induction chunks as [|chunk chunks IH]; intros [|resp resps] Hlen;
    try done.
  destruct (IH resps) as (IH1 & IH2 & IH3); [by injection Hlen|].
  change (mjoin (zip_with (transfer_events imur filePath) (chunk :: chunks)
                   (resp :: resps)))
    with (transfer_events imur filePath chunk resp
          ++ mjoin (zip_with (transfer_events imur filePath) chunks resps)).
  rewrite part_requests_app, complete_requests_app, filter_app, IH1, IH2, IH3.
  done.
Qed.

Lemma part_answers_app t1 t2 :
  part_answers (t1 ++ t2) = part_answers t1 ++ part_answers t2.
Proof. apply omap_app. Qed.

Lemma transfer_events_answers imur filePath chunks : forall resps,
  length resps = length chunks ->
  part_answers (mjoin (zip_with (transfer_events imur filePath) chunks resps))
  = resps.
Proof.
  induction chunks as [|chunk chunks IH]; intros [|resp resps] Hlen;
    try done.
  change (mjoin (zip_with (transfer_events imur filePath) (chunk :: chunks)
                   (resp :: resps)))
    with (transfer_events imur filePath chunk resp
          ++ mjoin (zip_with (transfer_events imur filePath) chunks resps)).
  rewrite part_answers_app, IH; [done|by injection Hlen].
Qed.

(** What the trace of a run that returns [nil] holds. *)
Lemma UploadFile_nil_trace w objectKey filePath partSize options t0 evs :
  UploadFile w objectKey filePath partSize options t0 = (None, t0 ++ evs) ->
  exists chunks imur bs resp,
    w_SplitFileByPartSize w t0 filePath partSize = Ok chunks
    /\ (InitiateMultipartUpload w objectKey options
          (t0 ++ [EvSplitFileByPartSize filePath partSize (Ok chunks)])).1
       = Ok imur
    /\ filter (fun ev => is_abort ev = true) evs = []
    /\ part_requests evs = map (planned_request imur filePath) chunks
    /\ length (part_answers evs) = length chunks
    /\ w_xml_Marshal w (finalize (zip_with part_of chunks (part_answers evs)))
       = Ok bs
    /\ complete_requests evs = [(bs, Ok resp)]
    /\ w_xmlUnmarshal_cmur w (body resp) = None.
Proof.
  intros Hrun.
  destruct (UploadFile_nil_run _ _ _ _ _ _ _ Hrun)
    as (chunks & imur & evsI & resps & bs & resp
        & HS & HI & HqI & Hlen & HM & HU & ->).
  destruct (transfer_events_requests imur filePath chunks resps Hlen)
    as (Hp & Hc & Ha).
  pose proof (transfer_events_answers imur filePath chunks resps Hlen) as Hr.
  destruct (InitiateMultipartUpload_events w objectKey options
              (t0 ++ [EvSplitFileByPartSize filePath partSize (Ok chunks)]))
    as (res & HtI & _).
  rewrite HI in HtI. simpl in HtI. apply app_inv_head in HtI. subst evsI.
  assert (Hans : part_answers
                   ([EvSplitFileByPartSize filePath partSize (Ok chunks)]
                    ++ (EvDo "POST" objectKey "uploads" "uploads"
                          (w_addContentType w options objectKey) NoBody res
                        :: match res with
                           | Ok _ => [EvClose (ResRespBody "POST" "uploads")]
                           | Err _ => []
                           end)
                    ++ mjoin (zip_with (transfer_events imur filePath) chunks
                                resps)
                    ++ [EvDo "POST" (Key imur) ("uploadId=" +:+ UploadID imur)
                          ("uploadId=" +:+ UploadID imur) [] (Buffer bs)
                          (Ok resp);
                        EvClose (ResRespBody "POST"
                                   ("uploadId=" +:+ UploadID imur))])
                 = resps).
  { rewrite !part_answers_app, Hr. destruct res; simpl; by rewrite app_nil_r. }
  exists chunks, imur, bs, resp. rewrite Hans.
  split; [done|]. split; [by rewrite HI|].
  split; [rewrite !filter_app, Ha; by destruct res|].
  rewrite !part_requests_app, !complete_requests_app, Hp, Hc.
  split; [destruct res; simpl; by rewrite app_nil_r|].
  split; [done|]. split; [done|].
  split; [by destruct res|done].
Qed.

(** X1. When [UploadFile] returns [nil], it issued no Abort; it requested
    exactly the part transfers of the plan, one per chunk and in plan order,
    each reading the chunk's range of the file; and it issued exactly one
    Complete request, which the service answered and whose answer decoded
    without error. *)
Theorem UploadFile_nil_completed
    w objectKey filePath partSize options t0 evs :
  UploadFile w objectKey filePath partSize options t0 = (None, t0 ++ evs) ->
  filter (fun ev => is_abort ev = true) evs = []
  /\ exists chunks imur bs resp,
       w_SplitFileByPartSize w t0 filePath partSize = Ok chunks
       /\ (InitiateMultipartUpload w objectKey options
             (t0 ++ [EvSplitFileByPartSize filePath partSize (Ok chunks)])).1
          = Ok imur
       /\ part_requests evs = map (planned_request imur filePath) chunks
       /\ complete_requests evs = [(bs, Ok resp)]
       /\ w_xmlUnmarshal_cmur w (body resp) = None.
Proof.
  intros Hrun.
  destruct (UploadFile_nil_trace _ _ _ _ _ _ _ Hrun)
    as (chunks & imur & bs & resp & HS & HI & Ha & Hp & _ & _ & Hc & HU).
  split; [done|]. by exists chunks, imur, bs, resp.
Qed.

Lemma UploadFile_nil_completed_witness :
  upload_ok_run.1 = None
  /\ filter (fun ev => is_abort ev = true) upload_ok_run.2 = []
  /\ length (part_requests upload_ok_run.2) = 3%nat.
Proof.
  destruct (UploadFile_nil_completed upload_ok_world "object" "file"
              MinPartSize [] [] upload_ok_run.2) as (Ha & _).
  - vm_compute. reflexivity.
  - split; [reflexivity|]. split; [exact Ha|reflexivity].
Defined.

Lemma part_of_plan_ascending chunks : forall resps,
  plan_ascending chunks ->
  strictly_ascending (zip_with part_of chunks resps).
Proof.
  induction chunks as [|chunk chunks IH]; intros resps Hs; [constructor|].
  destruct resps as [|resp resps]; [constructor|].
  apply StronglySorted_inv in Hs as [Hs Hx]. simpl.
  constructor; [by apply IH|].
  apply Forall_forall. intros p Hp.
  apply elem_of_lookup_zip_with in Hp as (i & c & r & -> & Hc & _).
  rewrite Forall_forall in Hx. apply Hx. by eapply list_elem_of_lookup_2.
Qed.

(** X2. When the plan numbers its chunks in strictly ascending order and
    [UploadFile] returns [nil], the body of its Complete request encodes the
    parts in plan order, the part of each chunk carrying the chunk's number
    and the [ETag] header of the answer to the chunk's transfer: the
    ordering applied by [CompleteMultipartUpload] changes nothing. *)
Theorem UploadFile_completes_in_plan_order
    w objectKey filePath partSize options t0 evs chunks :
  UploadFile w objectKey filePath partSize options t0 = (None, t0 ++ evs) ->
  w_SplitFileByPartSize w t0 filePath partSize = Ok chunks ->
  plan_ascending chunks ->
  length (part_answers evs) = length chunks
  /\ exists bs resp,
       w_xml_Marshal w (zip_with part_of chunks (part_answers evs)) = Ok bs
       /\ complete_requests evs = [(bs, Ok resp)].
Proof.
  intros Hrun HS Hasc.
  destruct (UploadFile_nil_trace _ _ _ _ _ _ _ Hrun)
    as (chunks' & imur & bs & resp & HS' & _ & _ & _ & Hlen & HM & Hc & _).
  rewrite HS in HS'. injection HS' as <-. split; [done|].
  exists bs, resp. split; [|done].
  pose proof (part_of_plan_ascending chunks (part_answers evs) Hasc) as Hstr.
  destruct (sorter_canonical finalize finalize_sorted _ _
              (strictly_ascending_NoDup _ Hstr) (reflexivity _))
    as (_ & _ & _ & Hid).
  by rewrite (Hid Hstr) in HM.
Qed.

Lemma UploadFile_completes_in_plan_order_witness :
  length (part_answers upload_ok_run.2) = 3%nat
  /\ complete_requests upload_ok_run.2 = [([], Ok scenario_response)].
Proof.
  destruct (UploadFile_completes_in_plan_order upload_ok_world "object" "file"
              MinPartSize [] [] upload_ok_run.2
              [mkFileChunk 1 0 MinPartSize;
               mkFileChunk 2 MinPartSize MinPartSize;
               mkFileChunk 3 (2 * MinPartSize) (MinPartSize / 2)])
    as (Hlen & bs & resp & _ & Hc).
  - vm_compute. reflexivity.
  - reflexivity.
  - repeat (constructor; [|repeat constructor; simpl; lia]). constructor.
  - split; [exact Hlen|reflexivity].
Defined.

(** ** [UploadFile]: when Abort is issued *)

Lemma part_failure_not_abort ev err :
  part_failure ev = Some err -> is_abort ev = false.
Proof.
  destruct ev as [| ? [?|] |? ? ? ? ? [] []| | | | |]; try done.
  simpl. destruct (method =? "PUT")%string eqn:E; [|done].
  apply String.eqb_eq in E. by subst.
Qed.

(** An error returned after the session was opened: the run ends with the
    events of its only Abort. *)
Lemma UploadFile_session_error
    w objectKey filePath partSize options t0 chunks imur err evs :
  MinPartSize <= partSize <= MaxPartSize ->
  w_SplitFileByPartSize w t0 filePath partSize = Ok chunks ->
  (InitiateMultipartUpload w objectKey options
     (t0 ++ [EvSplitFileByPartSize filePath partSize (Ok chunks)])).1
  = Ok imur ->
  UploadFile w objectKey filePath partSize options t0 = (Some err, t0 ++ evs) ->
  exists pre res,
    evs = pre ++ abort_events imur res
    /\ Forall (fun ev => is_abort ev = false) pre.
Proof.
  intros [Hlo Hhi] HS HI Hrun. unfold UploadFile in Hrun.
  replace ((partSize <? MinPartSize) || (MaxPartSize <? partSize)) with false
    in Hrun by (symmetry; apply orb_false_intro; lia).
  unfold SplitFileByPartSize in Hrun. io_unfold. rewrite HS in Hrun.
  set (ts := t0 ++ [EvSplitFileByPartSize filePath partSize (Ok chunks)]) in *.
  destruct (InitiateMultipartUpload_run w objectKey options ts)
    as (evsI & HtI & HqI).
  destruct (InitiateMultipartUpload w objectKey options ts)
    as [r1 t1] eqn:EI; simpl in HtI, HI; subst t1 r1.
  assert (HaI : Forall (fun ev => is_abort ev = false) evsI).
  { eapply Forall_impl; [exact HqI|]. intros x Hx.
    by apply quiet_spec in Hx as (_ & ? & _). }
  destruct (UploadFile_loop_run w imur filePath chunks [] (ts ++ evsI))
    as (evsL & HtL & HrL).
  destruct (UploadFile_loop w imur filePath chunks [] (ts ++ evsI))
    as [[parts|e2] t2] eqn:EL; simpl in HtL, HrL; subst t2.
  - assert (HaL : Forall (fun ev => is_abort ev = false) evsL).
    { eapply Forall_impl; [exact HrL|]. intros x Hx.
      by apply quiet_spec in Hx as (_ & ? & _). }
    destruct (CompleteMultipartUpload_run w imur parts ((ts ++ evsI) ++ evsL))
      as (evsC & HtC & HqC).
    destruct (CompleteMultipartUpload w imur parts ((ts ++ evsI) ++ evsL))
      as [[e3|] t3]; simpl in HtC; subst t3; [|discriminate].
    match type of Hrun with
    | context [AbortMultipartUpload w imur ?t] =>
        destruct (AbortMultipartUpload_run w imur t) as (res & Ha);
        destruct (AbortMultipartUpload w imur t) as [ab t4];
        simpl in Ha; subst t4
    end.
    injection Hrun as _ Ht. subst ts.
    rewrite <- !app_assoc in Ht. apply app_inv_head in Ht.
    exists ([EvSplitFileByPartSize filePath partSize (Ok chunks)]
            ++ evsI ++ evsL ++ evsC), res.
    split; [by rewrite <- Ht, <- !app_assoc|].
    apply Forall_app; split; [by repeat constructor|].
    apply Forall_app; split; [done|]. apply Forall_app; split; [done|].
    eapply Forall_impl; [exact HqC|]. by intros x [_ ?].
  - destruct HrL as (before & ev & closes & res & -> & Hb & Hf & Hc).
    injection Hrun as _ Ht. subst ts.
    rewrite <- !app_assoc in Ht. apply app_inv_head in Ht.
    exists ([EvSplitFileByPartSize filePath partSize (Ok chunks)]
            ++ evsI ++ before ++ ev :: closes), res.
    split; [rewrite <- Ht; simpl; by rewrite <- !app_assoc|].
    apply Forall_app; split; [by repeat constructor|].
    apply Forall_app; split; [done|]. apply Forall_app; split.
    + eapply Forall_impl; [exact Hb|]. intros x Hx.
      by apply quiet_spec in Hx as (_ & ? & _).
    + constructor; [by eapply part_failure_not_abort|].
      eapply Forall_impl; [exact Hc|]. intros x Hx.
      by apply is_close_spec in Hx as (_ & ? & _).
Qed.

(** A run that opens no session: the part size is invalid, there is no plan,
    or [InitiateMultipartUpload] fails.  It returns an error having sent at
    most the Initiate request. *)
Lemma UploadFile_no_session
    w objectKey filePath partSize options t0 r evs :
  UploadFile w objectKey filePath partSize options t0 = (r, t0 ++ evs) ->
  ~ (MinPartSize <= partSize <= MaxPartSize
     /\ exists chunks imur,
          w_SplitFileByPartSize w t0 filePath partSize = Ok chunks
          /\ (InitiateMultipartUpload w objectKey options
                (t0 ++ [EvSplitFileByPartSize filePath partSize (Ok chunks)])).1
             = Ok imur) ->
  r <> None
  /\ Forall (fun ev => is_abort ev = false) evs
  /\ part_requests evs = []
  /\ complete_requests evs = []
  /\ Forall (fun ev => forall filePath res, ev <> EvOpen filePath res) evs.
Proof.
  intros Hrun Hno. unfold UploadFile in Hrun.
  destruct ((partSize <? MinPartSize) || (MaxPartSize <? partSize)) eqn:Eb.
  { io_unfold. injection Hrun as <- Ht.
    rewrite <- (app_nil_r t0) in Ht at 1. apply app_inv_head in Ht.
    subst evs. by repeat split. }
  apply orb_false_elim in Eb as [?%Z.ltb_ge ?%Z.ltb_ge].
  unfold SplitFileByPartSize in Hrun. io_unfold.
  destruct (w_SplitFileByPartSize w t0 filePath partSize) as [chunks|e0] eqn:ES.
  2:{ injection Hrun as <- Ht. apply app_inv_head in Ht. subst evs.
      repeat split; try done; by repeat constructor. }
  set (ts := t0 ++ [EvSplitFileByPartSize filePath partSize (Ok chunks)]) in *.
  destruct (InitiateMultipartUpload_events w objectKey options ts)
    as (res & HtI & HrI).
  destruct (InitiateMultipartUpload w objectKey options ts)
    as [[imur|e1] t1] eqn:EI; simpl in HtI; subst t1.
  { exfalso. apply Hno. split; [lia|]. exists chunks, imur. unfold ts in EI. by rewrite EI. }
  injection Hrun as <- Ht. subst ts.
  rewrite <- !app_assoc in Ht. apply app_inv_head in Ht. subst evs.
  destruct res; repeat split; try done; by repeat constructor.
Qed.

(** X3. [UploadFile] issues an Abort exactly when it returns an error after
    the session was opened.  The Abort is then the last request of the run
    and the only Abort, and it names the handle that
    [InitiateMultipartUpload] returned: a run never aborts a session that it
    did not open or that it completed. *)
Theorem UploadFile_abort_iff_session_error
    w objectKey filePath partSize options t0 r evs :
  UploadFile w objectKey filePath partSize options t0 = (r, t0 ++ evs) ->
  ((exists ev, ev ∈ evs /\ is_abort ev = true)
   <-> r <> None
       /\ MinPartSize <= partSize <= MaxPartSize
       /\ exists chunks imur,
            w_SplitFileByPartSize w t0 filePath partSize = Ok chunks
            /\ (InitiateMultipartUpload w objectKey options
                  (t0 ++ [EvSplitFileByPartSize filePath partSize
                            (Ok chunks)])).1
               = Ok imur)
  /\ forall chunks imur,
       r <> None ->
       MinPartSize <= partSize <= MaxPartSize ->
       w_SplitFileByPartSize w t0 filePath partSize = Ok chunks ->
       (InitiateMultipartUpload w objectKey options
          (t0 ++ [EvSplitFileByPartSize filePath partSize (Ok chunks)])).1
       = Ok imur ->
       exists pre res,
         evs = pre ++ abort_events imur res
         /\ Forall (fun ev => is_abort ev = false) pre.
Proof.
  intros Hrun.
  assert (Hshape : forall chunks imur,
             r <> None ->
             MinPartSize <= partSize <= MaxPartSize ->
             w_SplitFileByPartSize w t0 filePath partSize = Ok chunks ->
             (InitiateMultipartUpload w objectKey options
                (t0 ++ [EvSplitFileByPartSize filePath partSize (Ok chunks)])).1
             = Ok imur ->
             exists pre res,
               evs = pre ++ abort_events imur res
               /\ Forall (fun ev => is_abort ev = false) pre).
  { intros chunks imur Hr Hvalid HS HI. destruct r as [err|]; [|done].
    by eapply UploadFile_session_error. }
  split; [|exact Hshape]. split.
  - intros (ev & Hin & Hab).
    assert (Hdec :
              (MinPartSize <= partSize <= MaxPartSize
               /\ exists chunks imur,
                    w_SplitFileByPartSize w t0 filePath partSize = Ok chunks
                    /\ (InitiateMultipartUpload w objectKey options
                          (t0 ++ [EvSplitFileByPartSize filePath partSize
                                    (Ok chunks)])).1
                       = Ok imur)
              \/ ~ (MinPartSize <= partSize <= MaxPartSize
                    /\ exists chunks imur,
                         w_SplitFileByPartSize w t0 filePath partSize
                         = Ok chunks
                         /\ (InitiateMultipartUpload w objectKey options
                               (t0 ++ [EvSplitFileByPartSize filePath partSize
                                         (Ok chunks)])).1
                            = Ok imur)).
    { destruct (decide (MinPartSize <= partSize <= MaxPartSize))
        as [Hvalid|Hinvalid]; [|right; by intros [? _]].
      destruct (w_SplitFileByPartSize w t0 filePath partSize)
        as [chunks|e0] eqn:ES;
        [|right; intros (_ & ? & ? & ? & _); discriminate].
      destruct (InitiateMultipartUpload w objectKey options
                  (t0 ++ [EvSplitFileByPartSize filePath partSize
                            (Ok chunks)])).1 as [imur|e1] eqn:EI.
      - left. split; [done|]. by exists chunks, imur.
      - right. intros (_ & chunks' & imur & [= <-] & HI). congruence. }
    destruct Hdec as [Hs|Hno].
    + destruct Hs as [Hvalid Hs]. split; [|by split].
      intros ->.
      destruct (UploadFile_nil_trace _ _ _ _ _ _ _ Hrun)
        as (_ & _ & _ & _ & _ & _ & Ha & _).
      assert (Hin' : ev ∈ filter (fun ev => is_abort ev = true) evs)
        by (by apply list_elem_of_filter).
      rewrite Ha in Hin'. by apply elem_of_nil in Hin'.
    + exfalso.
      destruct (UploadFile_no_session _ _ _ _ _ _ _ _ Hrun Hno)
        as (_ & Hna & _).
      rewrite Forall_forall in Hna. specialize (Hna ev Hin). congruence.
  - intros (Hr & Hvalid & chunks & imur & HS & HI).
    destruct (Hshape chunks imur Hr Hvalid HS HI) as (pre & res & -> & _).
    exists (abort_request imur res). split; [|done].
    apply elem_of_app. right. apply list_elem_of_here.
Qed.

Lemma UploadFile_abort_iff_session_error_witness :
  exists pre res,
    upload_abort_run.1 <> None
    /\ upload_abort_run.2 = pre ++ abort_events scenario_imur res
    /\ Forall (fun ev => is_abort ev = false) pre.
Proof.
  destruct (UploadFile_abort_iff_session_error upload_abort_world "object"
              "file" MinPartSize [] [] upload_abort_run.1 upload_abort_run.2)
    as (_ & Hshape).
  - vm_compute. reflexivity.
  - destruct (Hshape [mkFileChunk 1 0 MinPartSize;
                      mkFileChunk 2 MinPartSize MinPartSize;
                      mkFileChunk 3 (2 * MinPartSize) (MinPartSize / 2)]
                scenario_imur) as (pre & res & Hevs & Hpre).
    + discriminate.
    + vm_compute. split; discriminate.
    + reflexivity.
    + vm_compute. reflexivity.
    + exists pre, res. split; [discriminate|]. split; [exact Hevs|exact Hpre].
Defined.

(** X4. When [UploadFile] opens no session (the part size is out of range,
    the file cannot be split, or [InitiateMultipartUpload] fails) it returns
    an error without having opened the file for a transfer and without any
    part transfer, Complete or Abort request. *)
Theorem UploadFile_no_session_no_transfer
    w objectKey filePath partSize options t0 r evs :
  UploadFile w objectKey filePath partSize options t0 = (r, t0 ++ evs) ->
  ~ (MinPartSize <= partSize <= MaxPartSize
     /\ exists chunks imur,
          w_SplitFileByPartSize w t0 filePath partSize = Ok chunks
          /\ (InitiateMultipartUpload w objectKey options
                (t0 ++ [EvSplitFileByPartSize filePath partSize (Ok chunks)])).1
             = Ok imur) ->
  r <> None
  /\ filter (fun ev => is_abort ev = true) evs = []
  /\ part_requests evs = []
  /\ complete_requests evs = []
  /\ Forall (fun ev => forall filePath res, ev <> EvOpen filePath res) evs.
Proof.
  intros Hrun Hno.
  destruct (UploadFile_no_session _ _ _ _ _ _ _ _ Hrun Hno)
    as (Hr & Ha & Hp & Hc & Ho).
  split; [done|]. split; [by apply filter_is_abort_none|done].
Qed.

Lemma UploadFile_no_session_no_transfer_witness :
  (UploadFile no_session_world "object" "file" MinPartSize [] []).1
  = Some "service unavailable"%string
  /\ part_requests (UploadFile no_session_world "object" "file" MinPartSize
                      [] []).2 = [].
Proof.
  destruct (UploadFile_no_session_no_transfer no_session_world "object" "file"
              MinPartSize [] []
              (UploadFile no_session_world "object" "file" MinPartSize [] []).1
              (UploadFile no_session_world "object" "file" MinPartSize [] []).2)
    as (_ & _ & Hp & _).
  - vm_compute. reflexivity.
  - intros (_ & chunks & imur & _ & HI). vm_compute in HI. discriminate HI.
  - split; [vm_compute; reflexivity|exact Hp].
Defined.

(** ** The session methods *)

Lemma exchange_failed method objectKey urlParams subResource options data err :
  exchange [EvDo method objectKey urlParams subResource options data (Err err)].
Proof. right. left. by eexists _, _, _, _, _, _, _. Qed.

Lemma exchange_answered method objectKey urlParams subResource options data
    resp :
  exchange [EvDo method objectKey urlParams subResource options data (Ok resp);
            EvClose (ResRespBody method urlParams)].
Proof. right. right. by eexists _, _, _, _, _, _, _. Qed.

(** A method that sends one request and closes the body of the answer before
    it returns, whatever it makes of the answer. *)
Lemma one_request_exchanges {A : Type} w method objectKey urlParams subResource
    options data (decode : Response -> result A) :
  exchanges
    (resp ← bucket_do w method objectKey urlParams subResource options data;
     match resp with
     | Err err => mret (Err err)
     | Ok resp =>
         _ ← emit (EvClose (ResRespBody method urlParams));
         mret (decode resp)
     end) failure.
Proof.
  intros t. unfold bucket_do. io_unfold.
  destruct (w_do w t method objectKey urlParams subResource options data)
    as [resp|err]; simpl; eexists.
  - split; [by rewrite <- app_assoc|].
    split; [apply exchange_answered|]. split; [|done].
    intros. discriminate.
  - split; [done|]. split; [apply exchange_failed|]. split; [|done].
    intros; congruence.
Qed.

Lemma exchanges_ext {A : Type} (c c' : IO A) error_of :
  (forall t, c t = c' t) -> exchanges c error_of -> exchanges c' error_of.
Proof.
  intros Heq Hc t. destruct (Hc t) as (evs & H). rewrite Heq in H.
  by exists evs.
Qed.

(** X5. Each of the seven session methods is one exchange with the service:
    it sends at most one request; when the request is answered it closes the
    response body, once and before returning, also when the answer cannot be
    decoded; when the request fails it returns the request's error and has
    nothing to close; and it sends no request only when it returns an error
    of its own ([CompleteMultipartUpload] when the parts cannot be encoded,
    [ListMultipartUploads] when the options cannot). *)
Theorem session_methods_exchange
    {ListUploadedPartsResult ListMultipartUploadResult : Type}
    (h : Helpers ListUploadedPartsResult ListMultipartUploadResult)
    (w : World) (imur : InitiateMultipartUploadResult)
    (objectKey copySrc : string) (options : list Option)
    (reader : list Byte.byte) (size startPosition partSize partNumber : Z)
    (parts : list UploadPart) :
  exchanges (InitiateMultipartUpload w objectKey options) failure
  /\ exchanges (bucket_UploadPart h w imur reader size partNumber) failure
  /\ exchanges (UploadPartCopy h w imur copySrc startPosition partSize
                  partNumber options) failure
  /\ exchanges (CompleteMultipartUpload w imur parts) id
  /\ exchanges (AbortMultipartUpload w imur) id
  /\ exchanges (ListUploadedParts h w imur) failure
  /\ exchanges (ListMultipartUploads h w options) failure.
Proof.
  split; [|split; [|split; [|split; [|split; [|split]]]]].
  - eapply exchanges_ext;
      [|apply (one_request_exchanges w "POST" objectKey "uploads" "uploads"
                 (w_addContentType w options objectKey) NoBody
                 (fun resp => w_xmlUnmarshal_imur w (body resp)))].
    intros t. unfold InitiateMultipartUpload, bucket_do. io_unfold.
    by destruct (w_do w t _ _ _ _ _ _).
  - eapply exchanges_ext;
      [|apply (one_request_exchanges w "PUT" (Key imur)
                 (part_params imur partNumber) (part_params imur partNumber)
                 [h_ContentLength h size]
                 (Buffer (take (Z.to_nat size) reader))
                 (fun resp => Ok {| ETag := Get (headers resp) HTTPHeaderEtag;
                                    PartNumber := partNumber |}))].
    intros t. unfold bucket_UploadPart, bucket_do, part_params. io_unfold.
    by destruct (w_do w t _ _ _ _ _ _).
  - eapply exchanges_ext;
      [|apply (one_request_exchanges w "PUT" (Key imur)
                 (part_params imur partNumber) (part_params imur partNumber)
                 ([h_CopySource h (h_BucketName h) copySrc;
                   h_CopySourceRange h startPosition partSize] ++ options)
                 NoBody
                 (fun resp =>
                    match h_xmlUnmarshal_copy h (body resp) with
                    | Err err => Err err
                    | Ok etag => Ok {| ETag := etag;
                                       PartNumber := partNumber |}
                    end))].
    intros t. unfold UploadPartCopy, bucket_do, part_params. io_unfold.
    destruct (w_do w t _ _ _ _ _ _) as [resp|err]; [|done]. simpl.
    by destruct (h_xmlUnmarshal_copy h (body resp)).
  - intros t. unfold CompleteMultipartUpload, bucket_do. io_unfold.
    destruct (w_xml_Marshal w (finalize parts)) as [bs|err]; simpl.
    + match goal with
      | |- context [w_do w ?t' ?m ?k ?p ?s ?o ?d] =>
          destruct (w_do w t' m k p s o d) as [resp|err]
      end; simpl; eexists.
      * split; [by rewrite <- app_assoc|].
        split; [apply exchange_answered|]. split; [|done].
        intros. discriminate.
      * split; [done|]. split; [apply exchange_failed|]. split; [|done].
        intros; congruence.
    + exists []. split; [by rewrite app_nil_r|]. split; [by left|].
      split; [|done]. intros. discriminate.
  - intros t. unfold AbortMultipartUpload, bucket_do. io_unfold.
    match goal with
    | |- context [w_do w ?t' ?m ?k ?p ?s ?o ?d] =>
        destruct (w_do w t' m k p s o d) as [resp|err]
    end; simpl; eexists.
    + split; [by rewrite <- app_assoc|].
      split; [apply exchange_answered|]. split; [|done].
      intros. discriminate.
    + split; [done|]. split; [apply exchange_failed|]. split; [|done].
      intros; congruence.
  - eapply exchanges_ext;
      [|apply (one_request_exchanges w "GET" (Key imur)
                 ("uploadId=" +:+ UploadID imur)
                 ("uploadId=" +:+ UploadID imur) [] NoBody
                 (fun resp => h_xmlUnmarshal_parts h (body resp)))].
    intros t. unfold ListUploadedParts, bucket_do. io_unfold.
    by destruct (w_do w t _ _ _ _ _ _).
  - unfold ListMultipartUploads.
    destruct (h_handleParams h (options ++ [h_EncodingType h "url"]))
      as [params|err].
    + eapply exchanges_ext;
        [|apply (one_request_exchanges w "GET" "" ("uploads&" +:+ params)
                   "uploads" [] NoBody
                   (fun resp =>
                      match h_xmlUnmarshal_uploads h (body resp) with
                      | Err err => Err err
                      | Ok out =>
                          match (h_decodeListMultipartUploadResult h out).2
                          with
                          | Some err => Err err
                          | None =>
                              Ok (h_decodeListMultipartUploadResult h out).1
                          end
                      end))].
      intros t. unfold bucket_do. io_unfold.
      destruct (w_do w t _ _ _ _ _ _) as [resp|err]; [|done]. simpl.
      destruct (h_xmlUnmarshal_uploads h (body resp)) as [out|err]; [|done].
      by destruct (h_decodeListMultipartUploadResult h out) as [out' [err|]].
    + intros t. exists []. io_unfold. split; [by rewrite app_nil_r|].
      split; [by left|]. split; [|done]. intros. discriminate.
Qed.

Lemma string_length_app (s1 s2 : string) :
  String.length (s1 +:+ s2) = (String.length s1 + String.length s2)%nat.
Proof. induction s1 as [|a s1 IH]; simpl; [done|by rewrite IH]. Qed.

Lemma string_app_inv_tail (s1 s2 s : string) :
  s1 +:+ s = s2 +:+ s -> s1 = s2.
Proof.
  revert s2. induction s1 as [|a s1 IH]; intros [|b s2] H; simpl in H.
  - done.
  - exfalso. apply (f_equal String.length) in H.
    rewrite !string_length_app in H. simpl in H. rewrite ?string_length_app in H. lia.
  - exfalso. apply (f_equal String.length) in H.
    rewrite !string_length_app in H. simpl in H. rewrite ?string_length_app in H. lia.
  - injection H as -> H. f_equal. by apply IH.
Qed.

Lemma part_params_eq imur (n m : Z) :
  part_params imur n = part_params imur m -> n = m.
Proof.
  unfold part_params, Itoa. intros H.
  apply String.app_inj in H.
  apply string_app_inv_tail in H.
  by apply pretty_Z_inj in H.
Qed.

(** X6. Within a session the request parameters of a part transfer
    determine the part number: transfers of different parts are requests
    with different parameters. *)
Theorem part_params_distinct imur (n m : Z) :
  n <> m -> part_params imur n <> part_params imur m.
Proof. intros Hne Heq. by apply Hne, (part_params_eq imur). Qed.

Lemma part_params_distinct_witness :
  part_params scenario_imur 1 <> part_params scenario_imur 12.
Proof. apply (part_params_distinct scenario_imur 1 12). lia. Defined.

(** ** What is opened is closed *)

Lemma held_app t1 : forall st t2,
  held st (t1 ++ t2) = held (held st t1) t2.
Proof.
  induction t1 as [|ev t1 IH]; intros st t2; [done|].
  destruct ev; simpl; apply IH.
Qed.

Lemma release_head r st : release r (r :: st) = st.
Proof. simpl. by rewrite decide_True. Qed.

Lemma exchange_held evs st : exchange evs -> held st evs = st.
Proof.
  intros [->|[H|H]]; [done| |].
  - by destruct H as (? & ? & ? & ? & ? & ? & ? & ->).
  - destruct H as (method & ? & urlParams & ? & ? & ? & ? & ->).
    cbn [held acquired]. apply release_head.
Qed.

Lemma balanced_ret {A : Type} (a : A) : balanced (mret a).
Proof. intros t. exists []. io_unfold. by rewrite app_nil_r. Qed.

Lemma balanced_bind {A B : Type} (c : IO A) (k : A -> IO B) :
  balanced c -> (forall a, balanced (k a)) -> balanced (c ≫= k).
Proof.
  intros Hc Hk t. unfold mbind, IO_bind.
  destruct (Hc t) as (evs1 & Ht1 & Hh1).
  destruct (c t) as [a t1]. simpl in Ht1. subst t1.
  destruct (Hk a (t ++ evs1)) as (evs2 & Ht2 & Hh2).
  exists (evs1 ++ evs2). split; [by rewrite Ht2, app_assoc|].
  intros st. by rewrite held_app, Hh1, Hh2.
Qed.

Lemma UploadPartFromFile_balanced
    w imur filePath startPosition partSize partNumber :
  balanced (UploadPartFromFile w imur filePath startPosition partSize
              partNumber).
Proof.
  intros t. unfold UploadPartFromFile, os_Open, bucket_do. io_unfold.
  destruct (w_Open w t filePath) as [err|]; simpl.
  - by exists [EvOpen filePath (Some err)].
  - match goal with
    | |- context [w_do w ?t' ?m ?k ?p ?s ?o ?d] =>
        destruct (w_do w t' m k p s o d) as [resp|err]
    end; simpl; eexists.
    + split; [by rewrite <- !app_assoc|]. intros st.
      cbn [app held acquired]. by rewrite !release_head.
    + split; [by rewrite <- !app_assoc|]. intros st.
      cbn [app held acquired]. by rewrite !release_head.
Qed.

Lemma AbortMultipartUpload_balanced w imur :
  balanced (AbortMultipartUpload w imur).
Proof.
  intros t. destruct (AbortMultipartUpload_run w imur t) as (res & Ht).
  exists (abort_events imur res). split; [done|]. intros st.
  destruct res; [|done]. cbn [abort_events abort_request held acquired].
  apply release_head.
Qed.

Lemma CompleteMultipartUpload_balanced w imur parts :
  balanced (CompleteMultipartUpload w imur parts).
Proof.
  intros t. unfold CompleteMultipartUpload, bucket_do. io_unfold.
  destruct (w_xml_Marshal w (finalize parts)) as [bs|err]; simpl.
  - match goal with
    | |- context [w_do w ?t' ?m ?k ?p ?s ?o ?d] =>
        destruct (w_do w t' m k p s o d) as [resp|err]
    end; simpl; eexists.
    + split; [by rewrite <- app_assoc|]. intros st.
      cbn [held acquired]. apply release_head.
    + by split.
  - exists []. by rewrite app_nil_r.
Qed.

Lemma InitiateMultipartUpload_balanced w objectKey options :
  balanced (InitiateMultipartUpload w objectKey options).
Proof.
  intros t.
  destruct (InitiateMultipartUpload_events w objectKey options t)
    as (res & Ht & _).
  eexists. split; [exact Ht|]. intros st.
  destruct res; [|done]. cbn [held acquired]. apply release_head.
Qed.

Lemma UploadFile_loop_balanced w imur filePath chunks : forall parts,
  balanced (UploadFile_loop w imur filePath chunks parts).
Proof.
  induction chunks as [|chunk chunks IH]; intros parts; simpl.
  - apply balanced_ret.
  - apply balanced_bind; [apply UploadPartFromFile_balanced|].
    intros [part|err]; [apply IH|].
    apply balanced_bind; [apply AbortMultipartUpload_balanced|].
    intros _. apply balanced_ret.
Qed.

(** X7. [UploadPartFromFile] and [UploadFile] hold no resource when they
    return that was not held when they were called: every file they opened
    and every response body they received has been closed, on every path,
    the failing ones and the ones through Abort included. *)
Theorem UploadFile_releases_resources
    w imur objectKey filePath startPosition partSize partNumber options :
  balanced (UploadPartFromFile w imur filePath startPosition partSize
              partNumber)
  /\ balanced (UploadFile w objectKey filePath partSize options).
Proof.
  split; [apply UploadPartFromFile_balanced|].
  unfold UploadFile.
  destruct ((partSize <? MinPartSize) || (MaxPartSize <? partSize));
    [apply balanced_ret|].
  apply balanced_bind.
  { intros t. unfold SplitFileByPartSize. io_unfold. by eexists. }
  intros [chunks|err]; [|apply balanced_ret].
  apply balanced_bind; [apply InitiateMultipartUpload_balanced|].
  intros [imur'|err]; [|apply balanced_ret].
  apply balanced_bind; [apply UploadFile_loop_balanced|].
  intros [parts|err]; [|apply balanced_ret].
  apply balanced_bind; [apply CompleteMultipartUpload_balanced|].
  intros [err|]; [|apply balanced_ret].
  apply balanced_bind; [apply AbortMultipartUpload_balanced|].
  intros _. apply balanced_ret.
Qed.

(** ** [ListMultipartUploads] *)


(** ** [CompleteMultipartUpload] and the caller's slice *)

(** X9. [CompleteMultipartUpload] sorts the slice of its caller in place:
    whether the call succeeds, the encoding fails or the request fails, the
    caller is left with an ascending permutation of the parts passed in;
    error and events are those of the method; and a request that was sent
    carries the encoding of exactly the parts the caller is left with. *)
Theorem CompleteMultipartUpload_sorts_in_place w imur parts t :
  (CompleteMultipartUpload_inplace w imur parts t).1.2
  = (CompleteMultipartUpload w imur parts t).1
  /\ (CompleteMultipartUpload_inplace w imur parts t).2
     = (CompleteMultipartUpload w imur parts t).2
  /\ ascending (CompleteMultipartUpload_inplace w imur parts t).1.1
  /\ (CompleteMultipartUpload_inplace w imur parts t).1.1 ≡ₚ parts
  /\ exists evs,
       (CompleteMultipartUpload_inplace w imur parts t).2 = t ++ evs
       /\ Forall (fun req =>
                    w_xml_Marshal w
                      (CompleteMultipartUpload_inplace w imur parts t).1.1
                    = Ok req.1)
            (complete_requests evs).
Proof.
  destruct (finalize_sorted parts) as [Hs Hp].
  unfold CompleteMultipartUpload_inplace, CompleteMultipartUpload, bucket_do.
  io_unfold.
  destruct (w_xml_Marshal w (finalize parts)) as [bs|err] eqn:EM; simpl.
  - match goal with
    | |- context [w_do w ?t' ?m ?k ?p ?s ?o ?d] =>
        destruct (w_do w t' m k p s o d) as [resp|err]
    end; simpl.
    + repeat (split; [done|]). eexists.
      split; [by rewrite <- app_assoc|]. by repeat constructor.
    + repeat (split; [done|]). eexists. split; [done|].
      by repeat constructor.
  - repeat (split; [done|]). exists []. by rewrite app_nil_r.
Qed.

(** ** Requests of a session *)

Lemma string_app_assoc (s1 s2 s3 : string) :
  (s1 +:+ s2) +:+ s3 = s1 +:+ s2 +:+ s3.
Proof.
  induction s1 as [|a s1 IH]; [done|].
  change (String a ((s1 +:+ s2) +:+ s3) = String a (s1 +:+ s2 +:+ s3)).
  by rewrite IH.
Qed.

Lemma addresses_part imur method partNumber options data res :
  addresses imur
    (EvDo method (Key imur) (part_params imur partNumber)
       (part_params imur partNumber) options data res).
Proof.
  split; [done|]. split; [done|].
  exists ("partNumber=" +:+ Itoa partNumber +:+ "&"). unfold part_params.
  by rewrite !string_app_assoc.
Qed.

Lemma addresses_session imur method options data res :
  addresses imur
    (EvDo method (Key imur) ("uploadId=" +:+ UploadID imur)
       ("uploadId=" +:+ UploadID imur) options data res).
Proof. split; [done|]. split; [done|]. by exists ""%string. Qed.

Ltac scoped :=
  repeat (apply Forall_cons_2;
          [first [exact I | apply addresses_session | apply addresses_part]|]);
  apply Forall_nil_2.

(** X10. Every request that a method taking a session handle sends (the
    three part uploads, [CompleteMultipartUpload], [AbortMultipartUpload],
    [ListUploadedParts]) names the object of the handle, carries the upload
    id of the handle at the end of its parameters, and signs these same
    parameters as its sub-resource. *)
Theorem session_requests_address_session
    {ListUploadedPartsResult ListMultipartUploadResult : Type}
    (h : Helpers ListUploadedPartsResult ListMultipartUploadResult)
    (w : World) (imur : InitiateMultipartUploadResult)
    (filePath copySrc : string) (options : list Option)
    (reader : list Byte.byte) (size startPosition partSize partNumber : Z)
    (parts : list UploadPart) :
  session_scoped imur (bucket_UploadPart h w imur reader size partNumber)
  /\ session_scoped imur (UploadPartFromFile w imur filePath startPosition
                            partSize partNumber)
  /\ session_scoped imur (UploadPartCopy h w imur copySrc startPosition
                            partSize partNumber options)
  /\ session_scoped imur (CompleteMultipartUpload w imur parts)
  /\ session_scoped imur (AbortMultipartUpload w imur)
  /\ session_scoped imur (ListUploadedParts h w imur).
Proof.
  split; [|split; [|split; [|split; [|split]]]]; intros t.
  - unfold bucket_UploadPart, bucket_do. io_unfold.
    destruct (w_do w t _ _ _ _ _ _) as [resp|err]; simpl; eexists.
    + split; [by rewrite <- app_assoc|]. scoped.
    + split; [done|]. scoped.
  - unfold UploadPartFromFile, os_Open, bucket_do. io_unfold.
    destruct (w_Open w t filePath) as [err|]; simpl.
    { eexists. split; [done|]. scoped. }
    match goal with
    | |- context [w_do w ?t' ?m ?k ?p ?s ?o ?d] =>
        destruct (w_do w t' m k p s o d) as [resp|err]
    end; simpl; eexists.
    + split; [by rewrite <- !app_assoc|]. scoped.
    + split; [by rewrite <- !app_assoc|]. scoped.
  - unfold UploadPartCopy, bucket_do. io_unfold.
    destruct (w_do w t _ _ _ _ _ _) as [resp|err]; simpl.
    + destruct (h_xmlUnmarshal_copy h (body resp)); simpl; eexists;
        (split; [by rewrite <- app_assoc|]); scoped.
    + eexists. split; [done|]. scoped.
  - unfold CompleteMultipartUpload, bucket_do. io_unfold.
    destruct (w_xml_Marshal w (finalize parts)) as [bs|err]; simpl.
    + match goal with
      | |- context [w_do w ?t' ?m ?k ?p ?s ?o ?d] =>
          destruct (w_do w t' m k p s o d) as [resp|err]
      end; simpl; eexists.
      * split; [by rewrite <- app_assoc|]. scoped.
      * split; [done|]. scoped.
    + exists []. by rewrite app_nil_r.
  - unfold AbortMultipartUpload, bucket_do. io_unfold.
    match goal with
    | |- context [w_do w ?t' ?m ?k ?p ?s ?o ?d] =>
        destruct (w_do w t' m k p s o d) as [resp|err]
    end; simpl; eexists.
    + split; [by rewrite <- app_assoc|]. scoped.
    + split; [done|]. scoped.
  - unfold ListUploadedParts, bucket_do. io_unfold.
    destruct (w_do w t _ _ _ _ _ _) as [resp|err]; simpl; eexists.
    + split; [by rewrite <- app_assoc|]. scoped.
    + split; [done|]. scoped.
Qed.

(** ** [UploadPart] *)

(** X11. [UploadPart] declares [size] bytes and sends what the limited
    reader delivers: the first [size] bytes of the reader's stream, or all of
    it when the stream is shorter, or nothing when [size] is negative.  The
    body has the declared length exactly when [0 <= size] and the stream
    holds at least [size] bytes.  The part returned for an answered request
    has the number passed in and the [ETag] header of the answer. *)
Theorem UploadPart_request
    {ListUploadedPartsResult ListMultipartUploadResult : Type}
    (h : Helpers ListUploadedPartsResult ListMultipartUploadResult)
    (w : World) (imur : InitiateMultipartUploadResult)
    (reader : list Byte.byte) (size partNumber : Z) (t : Trace) :
  exists sent res,
    (bucket_UploadPart h w imur reader size partNumber t).2
    = t ++ EvDo "PUT" (Key imur) (part_params imur partNumber)
             (part_params imur partNumber) [h_ContentLength h size]
             (Buffer sent) res
        :: match res with
           | Ok _ => [EvClose (ResRespBody "PUT"
                                 (part_params imur partNumber))]
           | Err _ => []
           end
    /\ sent `prefix_of` reader
    /\ Z.of_nat (length sent) = Z.min (Z.max size 0) (Z.of_nat (length reader))
    /\ (Z.of_nat (length sent) = size
        <-> 0 <= size <= Z.of_nat (length reader))
    /\ (bucket_UploadPart h w imur reader size partNumber t).1
       = match res with
         | Ok resp => Ok {| PartNumber := partNumber;
                            ETag := Get (headers resp) HTTPHeaderEtag |}
         | Err err => Err err
         end.
Proof.
  assert (Hlen : Z.of_nat (length (take (Z.to_nat size) reader))
                 = Z.min (Z.max size 0) (Z.of_nat (length reader))).
  { rewrite length_take. lia. }
  unfold bucket_UploadPart, bucket_do, part_params. io_unfold.
  exists (take (Z.to_nat size) reader).
  destruct (w_do w t _ _ _ _ _ _) as [resp|err];
    [exists (Ok resp)|exists (Err err)]; simpl.
  - split; [by rewrite <- app_assoc|].
    split; [apply prefix_take|]. split; [done|]. split; [lia|done].
  - split; [done|].
    split; [apply prefix_take|]. split; [done|]. split; [lia|done].
Qed.

(** ** [DownloadFile]: resources and file content *)

Lemma delivered_app t1 t2 : delivered (t1 ++ t2) = delivered t1 ++ delivered t2.
Proof. unfold delivered. by rewrite omap_app, join_app. Qed.

(** The loop: the deferred closes it gathers are the readers it opened, the
    last one first, above those it started with; it closes nothing itself;
    and the file receives what the reads delivered, all of it unless a copy
    or a read failed. *)
Lemma DownloadFile_loop_deferred w objectKey filePath objectSize partSize :
  forall fuel i options deferred t,
  exists evs,
    (DownloadFile_loop w fuel objectKey filePath objectSize partSize i options
       deferred t).2 = t ++ evs
    /\ (DownloadFile_loop w fuel objectKey filePath objectSize partSize i
          options deferred t).1.2
       = rev (omap acquired evs) ++ deferred
    /\ Forall (fun ev => is_close ev = false) evs
    /\ (exists rest, delivered evs = sink_bytes evs ++ rest)
    /\ ((DownloadFile_loop w fuel objectKey filePath objectSize partSize i
           options deferred t).1.1 = Returned None ->
        delivered evs = sink_bytes evs).
Proof.
  induction fuel as [|fuel IH]; intros i options deferred t;
    simpl DownloadFile_loop.
  - exists []. destruct (i <? objectSize); simpl; rewrite app_nil_r;
      repeat split; try done; by exists [].
  - destruct (i <? objectSize).
    2:{ exists []. simpl. rewrite app_nil_r.
        repeat split; try done. by exists []. }
    set (opts := options ++ [Range i (GetPartEnd i objectSize partSize)]).
    unfold GetObject, io_CopyBuffer. io_unfold.
    destruct (w_GetObject w t objectKey opts) as [data|err] eqn:EG; simpl.
    2:{ exists [EvGetObject objectKey opts (Err err)]. simpl.
        repeat split; try done; [by repeat constructor|by exists []]. }
    destruct (w_CopyBuffer_fails w (t ++ [EvGetObject objectKey opts (Ok data)])
                data) as [[m err]|] eqn:EC; simpl.
    { exists [EvGetObject objectKey opts (Ok data);
              EvCopyBuffer filePath (take m data) (Some err)]. simpl.
      rewrite <- app_assoc.
      repeat split; try done; [by repeat constructor|].
      exists (drop m data). unfold delivered, sink_bytes. simpl.
      by rewrite !app_nil_r, take_drop. }
    destruct (IH (int64 (i + partSize)) opts
                (ResReader objectKey opts :: deferred)
                ((t ++ [EvGetObject objectKey opts (Ok data)])
                 ++ [EvCopyBuffer filePath data None]))
      as (evs & Ht & Hd & Hc & (rest & Hpre) & Hnil).
    exists ([EvGetObject objectKey opts (Ok data);
             EvCopyBuffer filePath data None] ++ evs).
    split; [rewrite Ht; by rewrite <- !app_assoc|].
    split; [rewrite Hd; simpl; by rewrite <- app_assoc|].
    split; [by repeat constructor|].
    rewrite delivered_app, sink_bytes_app.
    assert (Hhead : delivered [EvGetObject objectKey opts (Ok data);
                               EvCopyBuffer filePath data None] = data
                    /\ sink_bytes [EvGetObject objectKey opts (Ok data);
                                   EvCopyBuffer filePath data None] = data).
    { unfold delivered, sink_bytes. simpl. by rewrite app_nil_r. }
    destruct Hhead as [-> ->]. split.
    + exists rest. by rewrite Hpre, app_assoc.
    + intros Hout. by rewrite (Hnil Hout).
Qed.

(** The events of any run, up to the deferred closes. *)
Lemma DownloadFile_body w fuel objectKey filePath partSize options t0 :
  exists body,
    Forall (fun ev => is_close ev = false) body
    /\ (exists rest, delivered body = sink_bytes body ++ rest)
    /\ match (DownloadFile w fuel objectKey filePath partSize options t0).1
       with
       | OutOfFuel =>
           (DownloadFile w fuel objectKey filePath partSize options t0).2
           = t0 ++ body
       | Returned r =>
           (DownloadFile w fuel objectKey filePath partSize options t0).2
           = t0 ++ body ++ map EvClose (rev (omap acquired body))
           /\ (r = None -> delivered body = sink_bytes body)
       end.
Proof.
  unfold DownloadFile.
  destruct ((partSize <? 1) || (MaxPartSize <? partSize)).
  { exists []. io_unfold. rewrite app_nil_r.
    split; [done|]. split; [by exists []|]. done. }
  unfold GetObjectDetailedMeta, os_OpenFile. io_unfold.
  destruct (w_GetObjectDetailedMeta w t0 objectKey) as [meta|e] eqn:Em; simpl.
  2:{ exists [EvGetObjectDetailedMeta objectKey (Err e)]. simpl.
      split; [by repeat constructor|]. split; [by exists []|]. done. }
  destruct (w_OpenFile w _ filePath) as [e|] eqn:Eo; simpl.
  { exists [EvGetObjectDetailedMeta objectKey (Ok meta);
            EvOpenFile filePath (Some e)]. simpl.
    split; [by repeat constructor|]. split; [by exists []|].
    by rewrite <- app_assoc. }
  set (objectSize := (ParseInt (Get meta HTTPHeaderContentLength)).1).
  set (t1 := (t0 ++ [EvGetObjectDetailedMeta objectKey (Ok meta)])
             ++ [EvOpenFile filePath None]).
  destruct (DownloadFile_loop_deferred w objectKey filePath objectSize partSize
              fuel 0 options [ResFile filePath] t1)
    as (evs & Ht & Hd & Hc & Hpre & Hnil).
  destruct (DownloadFile_loop w fuel objectKey filePath objectSize partSize 0
              options [ResFile filePath] t1) as [[out deferred] t2].
  simpl in Ht, Hd, Hnil. subst t2 deferred.
  exists ([EvGetObjectDetailedMeta objectKey (Ok meta);
           EvOpenFile filePath None] ++ evs).
  split; [by repeat constructor|].
  assert (Hsame : forall l : list Event,
             delivered ([EvGetObjectDetailedMeta objectKey (Ok meta);
                         EvOpenFile filePath None] ++ l) = delivered l
             /\ sink_bytes ([EvGetObjectDetailedMeta objectKey (Ok meta);
                             EvOpenFile filePath None] ++ l) = sink_bytes l).
  { done. }
  destruct (Hsame evs) as [-> ->]. split; [done|].
  destruct out as [|r]; simpl.
  - unfold t1. by rewrite <- !app_assoc.
  - rewrite run_deferred_run. simpl. split; [|intros ->; by apply Hnil].
    unfold t1. by rewrite <- !app_assoc.
Qed.

(** X12. When [DownloadFile] returns, everything it opened (the local file,
    the reader of every answered ranged read) is closed exactly once, and
    only then: no close comes before the last read or copy, and the closes
    run in the reverse order of the openings, the readers from the last to
    the first and the local file at the end.  Every reader stays open until
    the whole download is over. *)
Theorem DownloadFile_closes_on_return
    w fuel objectKey filePath partSize options t0 r evs :
  DownloadFile w fuel objectKey filePath partSize options t0
  = (Returned r, t0 ++ evs) ->
  exists body,
    evs = body ++ map EvClose (rev (omap acquired body))
    /\ Forall (fun ev => is_close ev = false) body.
Proof.
  intros Hrun.
  destruct (DownloadFile_body w fuel objectKey filePath partSize options t0)
    as (body & Hc & _ & Hout).
  rewrite Hrun in Hout. simpl in Hout. destruct Hout as [Ht _].
  apply app_inv_head in Ht. by exists body.
Qed.

Lemma DownloadFile_closes_on_return_witness :
  exists body,
    download_run.2 = body ++ map EvClose (rev (omap acquired body))
    /\ Forall (fun ev => is_close ev = false) body.
Proof.
  apply (DownloadFile_closes_on_return download_world 3 "object" "file" 100
           [] [] None download_run.2).
  vm_compute. reflexivity.
Defined.

(** X13. Whatever a [DownloadFile] run does, the bytes it wrote to the local
    file are a prefix of the bytes its ranged reads delivered, in the order
    of the reads; and when it returns [nil] they are all of them. *)
Theorem DownloadFile_file_content
    w fuel objectKey filePath partSize options t0 out evs :
  DownloadFile w fuel objectKey filePath partSize options t0
  = (out, t0 ++ evs) ->
  (exists rest, delivered evs = sink_bytes evs ++ rest)
  /\ (out = Returned None -> sink_bytes evs = delivered evs).
Proof.
  intros Hrun.
  destruct (DownloadFile_body w fuel objectKey filePath partSize options t0)
    as (body & Hc & Hpre & Hout).
  rewrite Hrun in Hout. simpl in Hout.
  assert (Hcl : forall rs : list Resource,
             delivered (map EvClose rs) = [] /\ sink_bytes (map EvClose rs) = []).
  { induction rs as [|x rs IH]; [done|]. done. }
  destruct out as [|r].
  - apply app_inv_head in Hout. subst evs. split; [done|]. intros. discriminate.
  - destruct Hout as [Ht Hnil]. apply app_inv_head in Ht. subst evs.
    destruct (Hcl (rev (omap acquired body))) as [Hd Hs].
    rewrite delivered_app, sink_bytes_app, Hd, Hs, !app_nil_r.
    split; [done|]. intros [= ->]. symmetry. by apply Hnil.
Qed.

Lemma DownloadFile_file_content_witness :
  download_run.1 = Returned None
  /\ sink_bytes download_run.2 = delivered download_run.2
  /\ length (sink_bytes download_run.2) = 250%nat.
Proof.
  destruct (DownloadFile_file_content download_world 3 "object" "file" 100
              [] [] download_run.1 download_run.2) as (_ & Hnil).
  - vm_compute. reflexivity.
  - split; [reflexivity|]. split; [apply Hnil; reflexivity|].
    vm_compute. reflexivity.
Defined.

(** ** [DownloadFile]: a size at the end of [int64] *)

Lemma int64_range z : - 2 ^ 63 <= int64 z < 2 ^ 63.
Proof.
  unfold int64.
  pose proof (Z.mod_pos_bound (z + 2 ^ 63) (2 ^ 64) ltac:(lia)). lia.
Qed.

Lemma int64_even z : Z.even (int64 z) = Z.even z.
Proof.
  unfold int64.
  rewrite (Z.mod_eq (z + 2 ^ 63) (2 ^ 64)) by lia.
  replace (z + 2 ^ 63 - 2 ^ 64 * ((z + 2 ^ 63) / 2 ^ 64) - 2 ^ 63)
    with (z - 2 * (2 ^ 63 * ((z + 2 ^ 63) / 2 ^ 64))) by lia.
  rewrite Z.even_sub, Z.even_mul. simpl. by destruct (Z.even z).
Qed.

Lemma loop_start_even partSize n :
  Z.even partSize = true ->
  Z.even (loop_start partSize n) = true
  /\ - 2 ^ 63 <= loop_start partSize n < 2 ^ 63.
Proof.
  intros Heven. induction n as [|n [IH _]];
    [split; [done|change (loop_start partSize 0) with 0; lia]|].
  change (loop_start partSize (S n))
    with (int64 (loop_start partSize n + partSize)).
  split; [|apply int64_range].
  by rewrite int64_even, Z.even_add, IH, Heven.
Qed.

(** X14. When the object size is the largest [int64] (which is also what the
    ignored [ParseInt] error leaves for any [Content-Length] beyond it) and
    the chunk size is even, the loop variable wraps around before it reaches
    the size: [DownloadFile] never returns [nil], however many iterations it
    is given; it returns an error or keeps requesting ranges. *)
Theorem DownloadFile_largest_size_never_completes
    w fuel objectKey filePath partSize options t0 meta :
  w_GetObjectDetailedMeta w t0 objectKey = Ok meta ->
  (ParseInt (Get meta HTTPHeaderContentLength)).1 = 2 ^ 63 - 1 ->
  Z.even partSize = true ->
  (DownloadFile w fuel objectKey filePath partSize options t0).1
  <> Returned None.
Proof.
  intros Hmeta Hsize Heven Hnil.
  destruct (decide (1 <= partSize <= MaxPartSize)) as [Hvalid|Hinvalid].
  2:{ unfold DownloadFile in Hnil.
      replace ((partSize <? 1) || (MaxPartSize <? partSize)) with true in Hnil
        by (symmetry; apply orb_true_iff; lia).
      discriminate Hnil. }
  destruct (w_OpenFile w (t0 ++ [EvGetObjectDetailedMeta objectKey (Ok meta)])
              filePath) as [e|] eqn:Hopen.
  { unfold DownloadFile in Hnil.
    replace ((partSize <? 1) || (MaxPartSize <? partSize)) with false in Hnil
      by (symmetry; apply orb_false_intro; lia).
    unfold GetObjectDetailedMeta, os_OpenFile in Hnil. io_unfold.
    rewrite Hmeta, Hopen in Hnil. discriminate Hnil. }
  destruct (DownloadFile_run w fuel objectKey filePath partSize options t0 meta
              Hvalid Hmeta Hopen)
    as (items & tail & closes & _ & _ & _ & _ & Hout).
  rewrite Hnil, Hsize in Hout. destruct Hout as [_ Hge].
  destruct (loop_start_even partSize (length items) Heven) as [He Hr].
  assert (loop_start partSize (length items) = 2 ^ 63 - 1) as Heq by lia.
  rewrite Heq in He. discriminate He.
Qed.

Lemma DownloadFile_largest_size_never_completes_witness :
  (DownloadFile huge_length_world 1 "object" "file" 100 [] []).1
  <> Returned None.
Proof.
  apply (DownloadFile_largest_size_never_completes huge_length_world 1
           "object" "file" 100 [] []
           {[ HTTPHeaderContentLength := "9223372036854775808"%string ]}).
  - reflexivity.
  - vm_compute. reflexivity.
  - reflexivity.
Defined.

(** ** The caller's slice *)

Lemma slice_append_elements caller s x :
  slice_ok caller s ->
  elements (slice_append caller s x).1 (slice_append caller s x).2
  = elements caller s ++ [x]
  /\ slice_ok (slice_append caller s x).1 (slice_append caller s x).2.
Proof.
  destruct s as [len|elems]; [|done]. unfold slice_append. intros Hlen.
  destruct (decide (len < length caller)%nat) as [Hlt|Hge];
    cbn [fst snd elements slice_ok]; [|done].
  split; [|rewrite length_insert; lia].
  rewrite (take_S_r _ _ x) by (by apply list_lookup_insert_eq).
  by rewrite take_insert_ge by lia.
Qed.

Lemma after_appends_nil caller s :
  slice_ok caller s -> after_appends caller s [] = caller.
Proof.
  destruct s as [len|elems]; simpl; [|done]. intros Hlen.
  unfold written_back. simpl. rewrite Nat.add_0_r, take_drop.
  by apply take_ge.
Qed.

Lemma after_appends_cons caller s x xs :
  slice_ok caller s ->
  after_appends (slice_append caller s x).1 (slice_append caller s x).2 xs
  = after_appends caller s (x :: xs).
Proof.
  destruct s as [len|elems]; [|done]. unfold slice_append. intros Hlen.
  simpl in Hlen.
  destruct (decide (len < length caller)%nat) as [Hlt|Hge];
    cbn [fst snd after_appends]; unfold written_back.
  - rewrite length_insert.
    rewrite (take_S_r _ _ x) by (by apply list_lookup_insert_eq).
    rewrite take_insert_ge by lia.
    rewrite drop_insert_lt by lia.
    rewrite <- app_assoc. simpl.
    by replace (len + S (length xs))%nat with (S (len + length xs)) by lia.
  - assert (len = length caller) as -> by lia.
    rewrite (take_ge caller (length caller)) by lia.
    by rewrite take_app_length.
Qed.

Lemma added_app t1 t2 : added (t1 ++ t2) = added t1 ++ added t2.
Proof. unfold added. by rewrite ranged_reads_app, omap_app. Qed.

Lemma added_read objectKey options x res t :
  added (EvGetObject objectKey (options ++ [x]) res :: t) = x :: added t.
Proof. unfold added. simpl. by rewrite last_snoc. Qed.

(** The loop on the caller's slice does what the loop on the list of its
    elements does, and leaves in the caller's array the options it added. *)
Lemma DownloadFile_loop_shared_run w objectKey filePath objectSize partSize :
  forall fuel i caller s deferred t,
  slice_ok caller s ->
  exists evs,
    (DownloadFile_loop w fuel objectKey filePath objectSize partSize i
       (elements caller s) deferred t).2 = t ++ evs
    /\ DownloadFile_loop_shared w fuel objectKey filePath objectSize partSize i
         caller s deferred t
       = (((DownloadFile_loop w fuel objectKey filePath objectSize partSize i
              (elements caller s) deferred t).1.1,
           (DownloadFile_loop w fuel objectKey filePath objectSize partSize i
              (elements caller s) deferred t).1.2,
           after_appends caller s (added evs)),
          t ++ evs).
Proof.
  induction fuel as [|fuel IH]; intros i caller s deferred t Hok;
    simpl DownloadFile_loop; simpl DownloadFile_loop_shared.
  - exists []. rewrite after_appends_nil by done.
    destruct (i <? objectSize); io_unfold; by rewrite app_nil_r.
  - destruct (i <? objectSize).
    2:{ exists []. rewrite after_appends_nil by done.
        io_unfold. by rewrite app_nil_r. }
    set (x := Range i (GetPartEnd i objectSize partSize)).
    destruct (slice_append_elements caller s x Hok) as [Hel Hok'].
    pose proof (after_appends_cons caller s x) as Hafter.
    destruct (slice_append caller s x) as [caller' s'].
    simpl in Hel, Hok', Hafter. rewrite Hel.
    unfold GetObject, io_CopyBuffer. io_unfold.
    destruct (w_GetObject w t objectKey (elements caller s ++ [x]))
      as [data|err]; simpl.
    2:{ exists [EvGetObject objectKey (elements caller s ++ [x]) (Err err)].
        split; [done|]. rewrite added_read, <- Hafter by done.
        by rewrite after_appends_nil. }
    destruct (w_CopyBuffer_fails w _ data) as [[m err]|]; simpl.
    { exists [EvGetObject objectKey (elements caller s ++ [x]) (Ok data);
              EvCopyBuffer filePath (take m data) (Some err)].
      rewrite <- app_assoc. split; [done|].
      rewrite added_read, <- Hafter by done.
      by rewrite after_appends_nil. }
    destruct (IH (int64 (i + partSize)) caller' s'
                (ResReader objectKey (elements caller s ++ [x]) :: deferred)
                ((t ++ [EvGetObject objectKey (elements caller s ++ [x])
                          (Ok data)])
                 ++ [EvCopyBuffer filePath data None]) Hok')
      as (evs & Ht & Hrun).
    rewrite Hel in Ht, Hrun.
    exists ([EvGetObject objectKey (elements caller s ++ [x]) (Ok data);
             EvCopyBuffer filePath data None] ++ evs).
    split; [rewrite Ht; by rewrite <- !app_assoc|].
    rewrite Hrun. simpl. rewrite added_read, <- Hafter by done.
    by rewrite <- !app_assoc.
Qed.

Lemma written_back_shows caller len xs :
  (len <= length caller)%nat ->
  length (written_back caller len xs) = length caller
  /\ take len (written_back caller len xs) = take len caller
  /\ forall k x,
       xs !! k = Some x -> (len + k < length caller)%nat ->
       written_back caller len xs !! (len + k)%nat = Some x.
Proof.
  intros Hlen. unfold written_back. split; [|split].
  - rewrite length_take, !length_app, length_take, length_drop. lia.
  - rewrite take_take, Nat.min_l by lia.
    rewrite take_app_le by (rewrite length_take; lia).
    by rewrite take_take, Nat.min_id.
  - intros k x Hk Hlt. rewrite lookup_take_lt by lia.
    rewrite lookup_app_r by (rewrite length_take; lia).
    rewrite length_take, Nat.min_l by lia.
    replace (len + k - len)%nat with k by lia.
    by rewrite lookup_app_l by (by eapply lookup_lt_Some).
Qed.

(** X15. [DownloadFile(objectKey, filePath, partSize, opts...)] appends its
    [Range] options to the caller's slice: it behaves as on a list of the
    slice's elements, and what the slice shows is unchanged, but the spare
    capacity of the caller's array is overwritten, slot by slot from the end
    of the slice, with the [Range] option of each ranged read in turn, until
    it is used up. *)
Theorem DownloadFile_shares_options_array
    w fuel objectKey filePath partSize caller len t0 :
  (len <= length caller)%nat ->
  exists evs,
    DownloadFile w fuel objectKey filePath partSize (take len caller) t0
    = ((DownloadFile_shared w fuel objectKey filePath partSize caller len
          t0).1.1, t0 ++ evs)
    /\ (DownloadFile_shared w fuel objectKey filePath partSize caller len t0).2
       = t0 ++ evs
    /\ (DownloadFile_shared w fuel objectKey filePath partSize caller len
          t0).1.2 = written_back caller len (added evs)
    /\ length (written_back caller len (added evs)) = length caller
    /\ take len (written_back caller len (added evs)) = take len caller
    /\ forall k x,
         added evs !! k = Some x -> (len + k < length caller)%nat ->
         written_back caller len (added evs) !! (len + k)%nat = Some x.
Proof.
  intros Hlen.
  assert (Hnone : written_back caller len [] = caller)
    by (by apply (after_appends_nil caller (Shared len))).
  assert (Hgoal : exists evs,
             DownloadFile w fuel objectKey filePath partSize (take len caller)
               t0
             = ((DownloadFile_shared w fuel objectKey filePath partSize caller
                   len t0).1.1, t0 ++ evs)
             /\ (DownloadFile_shared w fuel objectKey filePath partSize caller
                   len t0).2 = t0 ++ evs
             /\ (DownloadFile_shared w fuel objectKey filePath partSize caller
                   len t0).1.2 = written_back caller len (added evs)).
  { unfold DownloadFile, DownloadFile_shared.
    destruct ((partSize <? 1) || (MaxPartSize <? partSize)).
    { exists []. io_unfold. rewrite app_nil_r.
      split; [done|]. split; [done|]. symmetry. exact Hnone. }
    unfold GetObjectDetailedMeta, os_OpenFile. io_unfold.
    destruct (w_GetObjectDetailedMeta w t0 objectKey) as [meta|e]; simpl.
    2:{ exists [EvGetObjectDetailedMeta objectKey (Err e)].
        split; [done|]. split; [done|]. symmetry. exact Hnone. }
    destruct (w_OpenFile w _ filePath) as [e|]; simpl.
    { exists [EvGetObjectDetailedMeta objectKey (Ok meta);
              EvOpenFile filePath (Some e)].
      rewrite <- app_assoc.
      split; [done|]. split; [done|]. symmetry. exact Hnone. }
    set (objectSize := (ParseInt (Get meta HTTPHeaderContentLength)).1).
    set (t1 := (t0 ++ [EvGetObjectDetailedMeta objectKey (Ok meta)])
               ++ [EvOpenFile filePath None]).
    destruct (DownloadFile_loop_shared_run w objectKey filePath objectSize
                partSize fuel 0 caller (Shared len) [ResFile filePath] t1
                Hlen) as (evs & Ht & Hrun).
    simpl elements in Ht, Hrun. simpl after_appends in Hrun.
    rewrite Hrun.
    destruct (DownloadFile_loop w fuel objectKey filePath objectSize partSize
                0 (take len caller) [ResFile filePath] t1)
      as [[out deferred] t2].
    simpl in Ht. subst t2. simpl.
    destruct out as [|r].
    - exists ([EvGetObjectDetailedMeta objectKey (Ok meta);
               EvOpenFile filePath None] ++ evs).
      unfold t1. rewrite <- !app_assoc. done.
    - rewrite run_deferred_run. simpl.
      exists ([EvGetObjectDetailedMeta objectKey (Ok meta);
               EvOpenFile filePath None] ++ evs ++ map EvClose deferred).
      unfold t1. rewrite <- !app_assoc. simpl.
      assert (added (evs ++ map EvClose deferred) = added evs) as Hadd.
      { rewrite added_app.
        assert (added (map EvClose deferred) = []) as ->;
          [|by rewrite app_nil_r].
        clear. by induction deferred. }
      change (added (EvGetObjectDetailedMeta objectKey (Ok meta)
                     :: EvOpenFile filePath None
                     :: evs ++ map EvClose deferred))
        with (added (evs ++ map EvClose deferred)).
      by rewrite Hadd. }
  destruct Hgoal as (evs & H1 & H2 & H3). exists evs.
  destruct (written_back_shows caller len (added evs) Hlen) as (? & ? & ?).
  done.
Qed.

Lemma DownloadFile_shares_options_array_witness :
  (DownloadFile_shared download_world 3 "object" "file" 100 spare_capacity 1
     []).1
  = (Returned None,
     [OtherOption "If-Match" "etag"; Range 0 99; Range 100 199]).
Proof.
  destruct (DownloadFile_shares_options_array download_world 3 "object" "file"
              100 spare_capacity 1 []) as (evs & _ & Ht & Harr & _).
  - simpl. lia.
  - simpl in Ht. subst evs.
    rewrite (surjective_pairing (DownloadFile_shared _ _ _ _ _ _ _ _).1).
    rewrite Harr. vm_compute. reflexivity.
Defined.

Lemma slice_append_once caller len x :
  (len <= length caller)%nat ->
  elements (slice_append caller (Shared len) x).1
    (slice_append caller (Shared len) x).2
  = take len caller ++ [x]
  /\ (slice_append caller (Shared len) x).1 = written_back caller len [x].
Proof.
  intros Hlen.
  destruct (slice_append_elements caller (Shared len) x Hlen) as [Hel Hok].
  split; [done|].
  rewrite <- (after_appends_nil _ _ Hok).
  by rewrite (after_appends_cons caller (Shared len) x [] Hlen).
Qed.

(** X16. [ListMultipartUploads(opts...)] appends [EncodingType("url")] to
    the caller's slice: it behaves as on a list of the slice's elements, and
    what the slice shows is unchanged, but when the caller's array has spare
    capacity its first spare slot is overwritten with that option, whether
    the method succeeds or fails. *)
Theorem ListMultipartUploads_shares_options_array
    {ListUploadedPartsResult ListMultipartUploadResult : Type}
    (h : Helpers ListUploadedPartsResult ListMultipartUploadResult)
    (w : World) (caller : list Option) (len : nat) (t : Trace) :
  (len <= length caller)%nat ->
  ListMultipartUploads h w (take len caller) t
  = ((ListMultipartUploads_shared h w caller len t).1.1,
     (ListMultipartUploads_shared h w caller len t).2)
  /\ (ListMultipartUploads_shared h w caller len t).1.2
     = written_back caller len [h_EncodingType h "url"]
  /\ take len (written_back caller len [h_EncodingType h "url"])
     = take len caller
  /\ ((len < length caller)%nat ->
      written_back caller len [h_EncodingType h "url"] !! len
      = Some (h_EncodingType h "url")).
Proof.
  intros Hlen.
  destruct (written_back_shows caller len [h_EncodingType h "url"] Hlen)
    as (_ & Htake & Hslot).
  split; [|split; [|split; [done|]]].
  3:{ intros Hlt. specialize (Hslot 0%nat (h_EncodingType h "url")).
      rewrite Nat.add_0_r in Hslot. by apply Hslot. }
  all: unfold ListMultipartUploads, ListMultipartUploads_shared.
  all: destruct (slice_append_once caller len (h_EncodingType h "url") Hlen)
         as [Hel Hc].
  all: destruct (slice_append caller (Shared len) (h_EncodingType h "url"))
         as [caller' s'].
  all: simpl in Hel, Hc; subst caller'; rewrite Hel.
  all: destruct (h_handleParams h (take len caller ++ [h_EncodingType h "url"]))
         as [params|err]; [|done].
  all: unfold bucket_do; io_unfold.
  all: destruct (w_do w t "GET" "" ("uploads&" +:+ params) "uploads" [] NoBody)
         as [resp|err]; [|done]; simpl.
  all: destruct (h_xmlUnmarshal_uploads h (body resp)) as [out|err]; [|done].
  all: by destruct (h_decodeListMultipartUploadResult h out) as [out' [err|]].
Qed.

Lemma ListMultipartUploads_shares_options_array_witness :
  ListMultipartUploads_shared failing_helpers no_session_world spare_capacity
    1 []
  = (Err "cannot encode", 
     [OtherOption "If-Match" "etag"; OtherOption "encoding-type" "url";
      OtherOption "y" "2"], []).
Proof.
  destruct (ListMultipartUploads_shares_options_array failing_helpers
              no_session_world spare_capacity 1 []) as (_ & Harr & _).
  - simpl. lia.
  - rewrite (surjective_pairing (ListMultipartUploads_shared _ _ _ _ _)).
    rewrite (surjective_pairing (ListMultipartUploads_shared _ _ _ _ _).1).
    rewrite Harr. vm_compute. reflexivity.
Defined.
